(** * Lakbay: a shallow embedding of the lexer and the transpiler of lakbay.py

    The Python module holds two classes, [Lexer] and [Transpiler], and the
    entry point [compile_lakbay].  Both classes are objects whose methods
    mutate the fields of [self]; they are embedded as records threaded
    through a state-and-exception monad.  The entry point is embedded
    twice: as a function of the source text, and as code that creates its
    two instances in a store that outlives the call and reaches them by
    reference ([Process]).  Python's [while] loops and the
    mutually recursive parsing methods are embedded as fixpoints on a fuel
    argument: running out of fuel is the outcome [Timeout], which is kept
    apart from a raised exception.

    Source text is a sequence of characters with code points 0 to 255
    ([ascii]); the character classes are those of Python's [str] methods
    on these code points.  Integers are unbounded and the depth of the
    call stack is not limited: the interpreter's recursion limit is not
    part of the model.

    The file has three parts: the embedding of the module, the vocabulary
    of the properties, and the properties with their proofs. *)

From Stdlib Require Import String Ascii List ZArith Lia Bool Arith.
From Stdlib Require Import DecimalString.
From Stdlib Require DecimalNat DecimalFacts.
Import ListNotations.
Open Scope string_scope.

(** ** Python values and built-ins *)

(** The exceptions the module can raise: the explicit [raise Exception(...)],
    the attribute access on [None], the out-of-range string index and the
    missing dict key. *)
Inductive exn : Type :=
| Exception (msg : string)
| AttributeError (msg : string)
| IndexError (msg : string)
| KeyError (msg : string).

(** [str(e)] *)
Definition str_exn (e : exn) : string :=
  match e with
  | Exception m => m
  | AttributeError m => m
  | IndexError m => m
  | KeyError m => m
  end.

Inductive outcome (A : Type) : Type :=
| Ok (a : A)
| Raise (e : exn)
| Timeout.

Arguments Ok {A} a.
Arguments Raise {A} e.
Arguments Timeout {A}.

(** A method of an object with state [St] that returns an [A]. *)
Definition M (St A : Type) : Type := St -> outcome (A * St).

Definition ret {St A} (a : A) : M St A := fun s => Ok (a, s).

Definition bind {St A B} (m : M St A) (k : A -> M St B) : M St B :=
  fun s =>
    match m s with
    | Ok (a, s') => k a s'
    | Raise e => Raise e
    | Timeout => Timeout
    end.

Definition raise {St A} (e : exn) : M St A := fun _ => Raise e.
Definition timeout {St A} : M St A := fun _ => Timeout.
Definition gets {St A} (f : St -> A) : M St A := fun s => Ok (f s, s).
Definition modify {St} (f : St -> St) : M St unit := fun s => Ok (tt, f s).

Declare Scope monad_scope.
Delimit Scope monad_scope with monad.
Notation "x <- m ;; k" := (bind m (fun x => k))
  (at level 61, m at next level, right associativity) : monad_scope.
Notation "m ;;; k" := (bind m (fun _ => k))
  (at level 61, right associativity) : monad_scope.
Open Scope monad_scope.

(** The newline character and a few character literals that cannot be
    written inside a Rocq string. *)
Definition LF : ascii := ascii_of_nat 10.
Definition TAB : ascii := ascii_of_nat 9.
Definition CR : ascii := ascii_of_nat 13.
Definition DQUOTE : ascii := ascii_of_nat 34.
Definition BACKSLASH : ascii := ascii_of_nat 92.

Definition chr (c : ascii) : string := String c EmptyString.
Definition nl : string := chr LF.
Definition dq : string := chr DQUOTE.

Definition in_range (lo hi : nat) (c : ascii) : bool :=
  ((lo <=? nat_of_ascii c) && (nat_of_ascii c <=? hi))%nat.

(** [str.isspace], [str.isdigit], [str.isalpha] and [str.isalnum] on the
    code points 0 to 255. *)
Definition isspace (c : ascii) : bool :=
  in_range 9 13 c || in_range 28 32 c || in_range 133 133 c
  || in_range 160 160 c.

Definition isdigit (c : ascii) : bool :=
  in_range 48 57 c || in_range 178 179 c || in_range 185 185 c.

Definition isalpha (c : ascii) : bool :=
  in_range 65 90 c || in_range 97 122 c || in_range 170 170 c
  || in_range 181 181 c || in_range 186 186 c || in_range 192 214 c
  || in_range 216 246 c || in_range 248 255 c.

Definition isalnum (c : ascii) : bool :=
  isalpha c || isdigit c || in_range 188 190 c.

(** [str(n)] for a non-negative integer. *)
Definition str_nat (n : nat) : string :=
  NilEmpty.string_of_uint (Nat.to_uint n).

(** [s * n] *)
Fixpoint str_mul (s : string) (n : nat) : string :=
  match n with
  | O => ""
  | S n' => s ++ str_mul s n'
  end.

(** [sep.join(l)] *)
Definition join (sep : string) (l : list string) : string :=
  String.concat sep l.

(** [x in l] for a list or set of strings. *)
Definition mem (x : string) (l : list string) : bool :=
  existsb (String.eqb x) l.

(** A dict literal as an association list, with [k in d] and [d[k]]. *)
Fixpoint lookup {V} (k : string) (d : list (string * V)) : option V :=
  match d with
  | [] => None
  | (k', v) :: d' => if k =? k' then Some v else lookup k d'
  end.

(** [code[i:j]] on a sequence of characters, as a string. *)
Definition slice (code : list ascii) (i j : nat) : string :=
  string_of_list_ascii (firstn (j - i) (skipn i code)).

(** ** Token *)

Module Token.
Record t : Type := mk { type : string; value : string; line : nat }.
End Token.

(** ** Lexer *)

Module Lexer.

Record t : Type := mk {
  code : list ascii;
  pos : nat;
  line : nat;
  tokens : list Token.t
}.

(** [Lexer.__init__] *)
Definition init (code : list ascii) : t := mk code 0 1 [].

Definition keywords : list string :=
  [ "class"; "extends"; "func"; "return"; "if"; "else";
    "while"; "for"; "new"; "this"; "public"; "private";
    "int"; "float"; "string"; "bool"; "void"; "array";
    "print"; "true"; "false" ].

Definition escape_chars : list (string * ascii) :=
  [ ("n", LF); ("t", TAB); ("r", CR);
    (chr BACKSLASH, BACKSLASH); (dq, DQUOTE) ].

Definition operators : list (string * string) :=
  [ ("==", "EQ"); ("!=", "NEQ"); ("<=", "LEQ"); (">=", "GEQ");
    ("&&", "AND"); ("||", "OR"); ("++", "INC"); ("--", "DEC") ].

Definition single_chars : list (string * string) :=
  [ ("+", "PLUS"); ("-", "MINUS"); ("*", "MULT"); ("/", "DIV");
    ("=", "ASSIGN"); ("<", "LT"); (">", "GT"); ("!", "NOT");
    ("(", "LPAREN"); (")", "RPAREN"); ("{", "LBRACE"); ("}", "RBRACE");
    ("[", "LBRACKET"); ("]", "RBRACKET"); (";", "SEMI"); (",", "COMMA");
    (".", "DOT"); (":", "COLON") ].

(** [self.pos < len(self.code)] *)
Definition in_bounds : M t bool :=
  gets (fun s => (pos s <? length (code s))%nat).

(** [self.code[self.pos]]: an index out of range raises. *)
Definition cur : M t ascii :=
  fun s =>
    match nth_error (code s) (pos s) with
    | Some c => Ok (c, s)
    | None => Raise (IndexError "string index out of range")
    end.

(** [self.pos < len(self.code) - 1] *)
Definition before_last : M t bool :=
  gets (fun s => (pos s <? length (code s) - 1)%nat).

(** [self.pos + 1 < len(self.code)] *)
Definition has_next : M t bool :=
  gets (fun s => (pos s + 1 <? length (code s))%nat).

(** [self.code[self.pos:self.pos+2]] *)
Definition peek2 : M t string :=
  gets (fun s => slice (code s) (pos s) (pos s + 2)).

(** [self.pos += k] *)
Definition step (k : nat) : M t unit :=
  modify (fun s => mk (code s) (pos s + k) (line s) (tokens s)).

(** [self.line += 1] *)
Definition newline : M t unit :=
  modify (fun s => mk (code s) (pos s) (line s + 1) (tokens s)).

(** [self.tokens.append(Token(ty, v, self.line))] *)
Definition emit (ty v : string) : M t unit :=
  modify (fun s =>
    mk (code s) (pos s) (line s) (tokens s ++ [Token.mk ty v (line s)])%list).

(** The loop that skips a comment up to the end of its line. *)
Fixpoint comment_loop (fuel : nat) : M t unit :=
  match fuel with
  | O => timeout
  | S n =>
      b <- in_bounds ;;
      if b then
        c <- cur ;;
        if negb (c =? LF)%char then step 1 ;;; comment_loop n
        else ret tt
      else ret tt
  end.

(** The loop that collects the digits and dots of a number. *)
Fixpoint number_loop (fuel : nat) (num : string) : M t string :=
  match fuel with
  | O => timeout
  | S n =>
      b <- in_bounds ;;
      if b then
        c <- cur ;;
        if isdigit c || (c =? ".")%char then
          step 1 ;;; number_loop n (num ++ chr c)
        else ret num
      else ret num
  end.

(** The loop that collects the characters of an identifier. *)
Fixpoint ident_loop (fuel : nat) (ident : string) : M t string :=
  match fuel with
  | O => timeout
  | S n =>
      b <- in_bounds ;;
      if b then
        c <- cur ;;
        if isalnum c || (c =? "_")%char then
          step 1 ;;; ident_loop n (ident ++ chr c)
        else ret ident
      else ret ident
  end.

(** [escape_chars.get(c, c)] *)
Definition unescape (c : ascii) : ascii :=
  match lookup (chr c) escape_chars with
  | Some c' => c'
  | None => c
  end.

(** The loop that collects a string literal up to its closing quote. *)
Fixpoint string_loop (fuel : nat) (str : string) : M t string :=
  match fuel with
  | O => timeout
  | S n =>
      b <- in_bounds ;;
      if b then
        c <- cur ;;
        if negb (c =? DQUOTE)%char then
          more <- has_next ;;
          (if (c =? BACKSLASH)%char && more then
             step 1 ;;;
             e <- cur ;;
             step 1 ;;;
             string_loop n (str ++ chr (unescape e))
           else
             step 1 ;;;
             string_loop n (str ++ chr c))
        else ret str
      else ret str
  end.

(** One turn of the main loop of [tokenize], entered with
    [self.pos < len(self.code)]. *)
Definition tokenize_body (fuel : nat) : M t unit :=
  c <- cur ;;
  if isspace c then
    (if (c =? LF)%char then newline else ret tt) ;;;
    step 1
  else
    more <- before_last ;;
    two_char <- peek2 ;;
    if more && (two_char =? "//") then
      comment_loop fuel
    else if isdigit c then
      num <- number_loop fuel "" ;;
      emit "NUMBER" num
    else if isalpha c || (c =? "_")%char then
      ident <- ident_loop fuel "" ;;
      emit (if mem ident keywords then "KEYWORD" else "IDENTIFIER") ident
    else if (c =? DQUOTE)%char then
      step 1 ;;;
      str <- string_loop fuel "" ;;
      step 1 ;;;
      emit "STRING" str
    else
      match lookup two_char operators with
      | Some ty => emit ty two_char ;;; step 2
      | None =>
          match lookup (chr c) single_chars with
          | Some ty => emit ty (chr c) ;;; step 1
          | None => step 1
          end
      end.

Fixpoint tokenize_loop (fuel : nat) : M t unit :=
  match fuel with
  | O => timeout
  | S n =>
      b <- in_bounds ;;
      if b then tokenize_body n ;;; tokenize_loop n
      else ret tt
  end.

(** [Lexer.tokenize] *)
Definition tokenize (fuel : nat) : M t (list Token.t) :=
  tokenize_loop fuel ;;; gets tokens.

End Lexer.

(** ** Transpiler *)

Module Transpiler.

(** The field [classes] of the Python object is never read or written
    after [__init__] and is left out. *)
Record t : Type := mk {
  tokens : list Token.t;
  pos : nat;
  output : list string;
  indent : Z
}.

(** [Transpiler.__init__] *)
Definition init (tokens : list Token.t) : t := mk tokens 0 [] 0%Z.

Definition current : M t (option Token.t) :=
  gets (fun s => nth_error (tokens s) (pos s)).

(** [self.current() and p(self.current())] *)
Definition cur_is (p : Token.t -> bool) : M t bool :=
  gets (fun s =>
    match nth_error (tokens s) (pos s) with
    | Some tok => p tok
    | None => false
    end).

Definition advance : M t unit :=
  modify (fun s => mk (tokens s) (pos s + 1) (output s) (indent s)).

(** [token.type] on a value that may be [None]. *)
Definition no_attribute (a : string) : exn :=
  AttributeError ("'NoneType' object has no attribute '" ++ a ++ "'").

Definition get_type (token : option Token.t) : M t string :=
  match token with
  | Some tok => ret (Token.type tok)
  | None => raise (no_attribute "type")
  end.

(** The truth value of an optional string argument: [None] and the empty
    string are false. *)
Definition truthy (v : option string) : bool :=
  match v with
  | Some s => negb (s =? "")
  | None => false
  end.

Definition expect (token_type : string) (value : option string)
  : M t Token.t :=
  token <- current ;;
  match token with
  | None =>
      raise (Exception ("Line " ++ "?" ++ ": Expected " ++ token_type
                        ++ ", got " ++ "EOF"))
  | Some tok =>
      if negb (Token.type tok =? token_type) then
        raise (Exception ("Line " ++ str_nat (Token.line tok)
                          ++ ": Expected " ++ token_type
                          ++ ", got " ++ Token.type tok))
      else
        match value with
        | Some v =>
            if truthy value && negb (Token.value tok =? v) then
              raise (Exception ("Line " ++ str_nat (Token.line tok)
                                ++ ": Expected '" ++ v
                                ++ "', got '" ++ Token.value tok ++ "'"))
            else advance ;;; ret tok
        | None => advance ;;; ret tok
        end
  end.

(** [self.output.append(line)] *)
Definition append (line : string) : M t unit :=
  modify (fun s =>
    mk (tokens s) (pos s) (output s ++ [line])%list (indent s)).

Definition write (code : string) : M t unit :=
  i <- gets indent ;;
  append (str_mul "    " (Z.to_nat i) ++ code).

(** [self.indent += d] *)
Definition indent_add (d : Z) : M t unit :=
  modify (fun s => mk (tokens s) (pos s) (output s) (indent s + d)%Z).

Definition type_map : list (string * string) :=
  [ ("int", "int"); ("float", "float"); ("string", "string");
    ("bool", "bool"); ("void", "void") ].

(** [type_map.get(lakbay_type, lakbay_type)] *)
Definition convert_type (lakbay_type : string) : string :=
  match lookup lakbay_type type_map with
  | Some cpp => cpp
  | None => lakbay_type
  end.

Definition is_type (ty : string) (tok : Token.t) : bool :=
  Token.type tok =? ty.

Definition is_keyword (v : string) (tok : Token.t) : bool :=
  (Token.type tok =? "KEYWORD") && (Token.value tok =? v).

Definition comparison_ops : list (string * string) :=
  [ ("LT", "<"); ("GT", ">"); ("LEQ", "<="); ("GEQ", ">=") ].

(** *** Expressions *)

Fixpoint transpile_expression (fuel : nat) : M t string :=
  match fuel with
  | O => timeout
  | S n => transpile_logical_or n
  end

with transpile_logical_or (fuel : nat) : M t string :=
  match fuel with
  | O => timeout
  | S n =>
      left <- transpile_logical_and n ;;
      logical_or_loop n left
  end

with logical_or_loop (fuel : nat) (left : string) : M t string :=
  match fuel with
  | O => timeout
  | S n =>
      b <- cur_is (is_type "OR") ;;
      if b then
        advance ;;;
        right <- transpile_logical_and n ;;
        logical_or_loop n ("(" ++ left ++ " || " ++ right ++ ")")
      else ret left
  end

with transpile_logical_and (fuel : nat) : M t string :=
  match fuel with
  | O => timeout
  | S n =>
      left <- transpile_equality n ;;
      logical_and_loop n left
  end

with logical_and_loop (fuel : nat) (left : string) : M t string :=
  match fuel with
  | O => timeout
  | S n =>
      b <- cur_is (is_type "AND") ;;
      if b then
        advance ;;;
        right <- transpile_equality n ;;
        logical_and_loop n ("(" ++ left ++ " && " ++ right ++ ")")
      else ret left
  end

with transpile_equality (fuel : nat) : M t string :=
  match fuel with
  | O => timeout
  | S n =>
      left <- transpile_comparison n ;;
      equality_loop n left
  end

with equality_loop (fuel : nat) (left : string) : M t string :=
  match fuel with
  | O => timeout
  | S n =>
      b <- cur_is (fun tok => mem (Token.type tok) ["EQ"; "NEQ"]) ;;
      if b then
        token <- current ;;
        ty <- get_type token ;;
        let op := if ty =? "EQ" then "==" else "!=" in
        advance ;;;
        right <- transpile_comparison n ;;
        equality_loop n ("(" ++ left ++ " " ++ op ++ " " ++ right ++ ")")
      else ret left
  end

with transpile_comparison (fuel : nat) : M t string :=
  match fuel with
  | O => timeout
  | S n =>
      left <- transpile_term n ;;
      comparison_loop n left
  end

with comparison_loop (fuel : nat) (left : string) : M t string :=
  match fuel with
  | O => timeout
  | S n =>
      b <- cur_is (fun tok =>
             mem (Token.type tok) ["LT"; "GT"; "LEQ"; "GEQ"]) ;;
      if b then
        token <- current ;;
        ty <- get_type token ;;
        match lookup ty comparison_ops with
        | None => raise (KeyError ("'" ++ ty ++ "'"))
        | Some op =>
            advance ;;;
            right <- transpile_term n ;;
            comparison_loop n
              ("(" ++ left ++ " " ++ op ++ " " ++ right ++ ")")
        end
      else ret left
  end

with transpile_term (fuel : nat) : M t string :=
  match fuel with
  | O => timeout
  | S n =>
      left <- transpile_factor n ;;
      term_loop n left
  end

with term_loop (fuel : nat) (left : string) : M t string :=
  match fuel with
  | O => timeout
  | S n =>
      b <- cur_is (fun tok => mem (Token.type tok) ["PLUS"; "MINUS"]) ;;
      if b then
        token <- current ;;
        ty <- get_type token ;;
        let op := if ty =? "PLUS" then "+" else "-" in
        advance ;;;
        right <- transpile_factor n ;;
        term_loop n ("(" ++ left ++ " " ++ op ++ " " ++ right ++ ")")
      else ret left
  end

with transpile_factor (fuel : nat) : M t string :=
  match fuel with
  | O => timeout
  | S n =>
      left <- transpile_unary n ;;
      factor_loop n left
  end

with factor_loop (fuel : nat) (left : string) : M t string :=
  match fuel with
  | O => timeout
  | S n =>
      b <- cur_is (fun tok => mem (Token.type tok) ["MULT"; "DIV"]) ;;
      if b then
        token <- current ;;
        ty <- get_type token ;;
        let op := if ty =? "MULT" then "*" else "/" in
        advance ;;;
        right <- transpile_unary n ;;
        factor_loop n ("(" ++ left ++ " " ++ op ++ " " ++ right ++ ")")
      else ret left
  end

with transpile_unary (fuel : nat) : M t string :=
  match fuel with
  | O => timeout
  | S n =>
      b <- cur_is (fun tok => mem (Token.type tok) ["MINUS"; "NOT"]) ;;
      if b then
        token <- current ;;
        ty <- get_type token ;;
        let op := if ty =? "MINUS" then "-" else "!" in
        advance ;;;
        operand <- transpile_unary n ;;
        ret (op ++ operand)
      else transpile_postfix n
  end

with transpile_postfix (fuel : nat) : M t string :=
  match fuel with
  | O => timeout
  | S n =>
      expr <- transpile_primary n ;;
      postfix_loop n expr
  end

with postfix_loop (fuel : nat) (expr : string) : M t string :=
  match fuel with
  | O => timeout
  | S n =>
      token <- current ;;
      match token with
      | None => ret expr
      | Some tok =>
          if Token.type tok =? "DOT" then
            advance ;;;
            member <- expect "IDENTIFIER" None ;;
            b <- cur_is (is_type "LPAREN") ;;
            if b then
              advance ;;;
              args <- args_loop n [] ;;
              expect "RPAREN" None ;;;
              postfix_loop n
                (expr ++ "." ++ Token.value member
                 ++ "(" ++ join ", " args ++ ")")
            else
              postfix_loop n (expr ++ "." ++ Token.value member)
          else if Token.type tok =? "LPAREN" then
            advance ;;;
            args <- args_loop n [] ;;
            expect "RPAREN" None ;;;
            postfix_loop n (expr ++ "(" ++ join ", " args ++ ")")
          else if Token.type tok =? "LBRACKET" then
            advance ;;;
            index <- transpile_expression n ;;
            expect "RBRACKET" None ;;;
            postfix_loop n (expr ++ "[" ++ index ++ "]")
          else if Token.type tok =? "ASSIGN" then
            advance ;;;
            value <- transpile_expression n ;;
            postfix_loop n (expr ++ " = " ++ value)
          else ret expr
      end
  end

(** The loop that collects the arguments of a call up to its closing
    parenthesis; the source writes it out at each call site. *)
with args_loop (fuel : nat) (args : list string) : M t (list string) :=
  match fuel with
  | O => timeout
  | S n =>
      b <- cur_is (fun tok => negb (Token.type tok =? "RPAREN")) ;;
      if b then
        arg <- transpile_expression n ;;
        c <- cur_is (is_type "COMMA") ;;
        (if c then advance else ret tt) ;;;
        args_loop n (args ++ [arg])%list
      else ret args
  end

with transpile_primary (fuel : nat) : M t string :=
  match fuel with
  | O => timeout
  | S n =>
      token <- current ;;
      match token with
      | None => raise (no_attribute "type")
      | Some tok =>
          let ty := Token.type tok in
          let v := Token.value tok in
          if ty =? "NUMBER" then advance ;;; ret v
          else if ty =? "STRING" then advance ;;; ret (dq ++ v ++ dq)
          else if ty =? "IDENTIFIER" then advance ;;; ret v
          else if (ty =? "KEYWORD") && (v =? "this") then
            advance ;;; ret "this"
          else if (ty =? "KEYWORD") && (v =? "true") then
            advance ;;; ret "true"
          else if (ty =? "KEYWORD") && (v =? "false") then
            advance ;;; ret "false"
          else if (ty =? "KEYWORD") && (v =? "new") then
            advance ;;;
            class_name <- expect "IDENTIFIER" None ;;
            expect "LPAREN" None ;;;
            args <- args_loop n [] ;;
            expect "RPAREN" None ;;;
            ret ("new " ++ Token.value class_name
                 ++ "(" ++ join ", " args ++ ")")
          else if ty =? "LPAREN" then
            advance ;;;
            expr <- transpile_expression n ;;
            expect "RPAREN" None ;;;
            ret ("(" ++ expr ++ ")")
          else
            raise (Exception ("Line " ++ str_nat (Token.line tok)
                              ++ ": Unexpected token: " ++ ty ++ " " ++ v))
      end
  end.

(** *** Statements *)

Definition transpile_print (fuel : nat) : M t unit :=
  expect "KEYWORD" (Some "print") ;;;
  expect "LPAREN" None ;;;
  args <- args_loop fuel [] ;;
  expect "RPAREN" None ;;;
  expect "SEMI" None ;;;
  let print_stmt :=
    fold_left (fun acc arg => acc ++ " << " ++ arg) args "cout" in
  write (print_stmt ++ " << endl;").

Definition transpile_var_declaration (fuel : nat) : M t unit :=
  type_name <- expect "KEYWORD" None ;;
  let cpp_type := convert_type (Token.value type_name) in
  var_name <- expect "IDENTIFIER" None ;;
  b <- cur_is (is_type "ASSIGN") ;;
  (if b then
     advance ;;;
     value <- transpile_expression fuel ;;
     write (cpp_type ++ " " ++ Token.value var_name ++ " = " ++ value ++ ";")
   else
     write (cpp_type ++ " " ++ Token.value var_name ++ ";")) ;;;
  expect "SEMI" None ;;;
  ret tt.

Fixpoint transpile_block (fuel : nat) : M t unit :=
  match fuel with
  | O => timeout
  | S n =>
      b <- cur_is (fun tok => negb (Token.type tok =? "RBRACE")) ;;
      if b then transpile_statement n ;;; transpile_block n
      else ret tt
  end

with transpile_statement (fuel : nat) : M t unit :=
  match fuel with
  | O => timeout
  | S n =>
      token <- current ;;
      match token with
      | None => ret tt
      | Some tok =>
          if Token.type tok =? "KEYWORD" then
            if Token.value tok =? "return" then
              advance ;;;
              b <- cur_is (fun tok' => negb (Token.type tok' =? "SEMI")) ;;
              (if b then
                 expr <- transpile_expression n ;;
                 write ("return " ++ expr ++ ";")
               else write "return;") ;;;
              expect "SEMI" None ;;;
              ret tt
            else if Token.value tok =? "if" then transpile_if n
            else if Token.value tok =? "while" then transpile_while n
            else if Token.value tok =? "for" then transpile_for n
            else if Token.value tok =? "print" then transpile_print n
            else if mem (Token.value tok) ["int"; "float"; "string"; "bool"]
            then transpile_var_declaration n
            else ret tt
          else
            expr <- transpile_expression n ;;
            write (expr ++ ";") ;;;
            expect "SEMI" None ;;;
            ret tt
      end
  end

with transpile_if (fuel : nat) : M t unit :=
  match fuel with
  | O => timeout
  | S n =>
      expect "KEYWORD" (Some "if") ;;;
      expect "LPAREN" None ;;;
      condition <- transpile_expression n ;;
      expect "RPAREN" None ;;;
      expect "LBRACE" None ;;;
      write ("if (" ++ condition ++ ") {") ;;;
      indent_add 1 ;;;
      transpile_block n ;;;
      indent_add (-1) ;;;
      write "}" ;;;
      expect "RBRACE" None ;;;
      b <- cur_is (is_keyword "else") ;;
      if b then
        advance ;;;
        expect "LBRACE" None ;;;
        write "else {" ;;;
        indent_add 1 ;;;
        transpile_block n ;;;
        indent_add (-1) ;;;
        write "}" ;;;
        expect "RBRACE" None ;;;
        ret tt
      else ret tt
  end

with transpile_while (fuel : nat) : M t unit :=
  match fuel with
  | O => timeout
  | S n =>
      expect "KEYWORD" (Some "while") ;;;
      expect "LPAREN" None ;;;
      condition <- transpile_expression n ;;
      expect "RPAREN" None ;;;
      expect "LBRACE" None ;;;
      write ("while (" ++ condition ++ ") {") ;;;
      indent_add 1 ;;;
      transpile_block n ;;;
      indent_add (-1) ;;;
      write "}" ;;;
      expect "RBRACE" None ;;;
      ret tt
  end

with transpile_for (fuel : nat) : M t unit :=
  match fuel with
  | O => timeout
  | S n =>
      expect "KEYWORD" (Some "for") ;;;
      expect "LPAREN" None ;;;
      init <- transpile_expression n ;;
      expect "SEMI" None ;;;
      condition <- transpile_expression n ;;
      expect "SEMI" None ;;;
      update <- transpile_expression n ;;
      expect "RPAREN" None ;;;
      expect "LBRACE" None ;;;
      write ("for (" ++ init ++ "; " ++ condition ++ "; " ++ update
             ++ ") {") ;;;
      indent_add 1 ;;;
      transpile_block n ;;;
      indent_add (-1) ;;;
      write "}" ;;;
      expect "RBRACE" None ;;;
      ret tt
  end.

(** *** Classes *)

Definition transpile_property (fuel : nat) : M t unit :=
  type_name <- expect "KEYWORD" None ;;
  let cpp_type := convert_type (Token.value type_name) in
  var_name <- expect "IDENTIFIER" None ;;
  b <- cur_is (is_type "ASSIGN") ;;
  (if b then
     advance ;;;
     value <- transpile_expression fuel ;;
     write (cpp_type ++ " " ++ Token.value var_name ++ " = " ++ value ++ ";")
   else
     write (cpp_type ++ " " ++ Token.value var_name ++ ";")) ;;;
  expect "SEMI" None ;;;
  ret tt.

(** The loop that collects the parameters of a method. *)
Fixpoint params_loop (fuel : nat) (params : list string)
  : M t (list string) :=
  match fuel with
  | O => timeout
  | S n =>
      b <- cur_is (fun tok => negb (Token.type tok =? "RPAREN")) ;;
      if b then
        param_type <- expect "KEYWORD" None ;;
        param_name <- expect "IDENTIFIER" None ;;
        let param := convert_type (Token.value param_type)
                     ++ " " ++ Token.value param_name in
        c <- cur_is (is_type "COMMA") ;;
        (if c then advance else ret tt) ;;;
        params_loop n (params ++ [param])%list
      else ret params
  end.

Definition transpile_method (fuel : nat) (class_name : string) : M t unit :=
  expect "KEYWORD" (Some "func") ;;;
  method_name <- expect "IDENTIFIER" None ;;
  let is_constructor := Token.value method_name =? class_name in
  expect "LPAREN" None ;;;
  params <- params_loop fuel [] ;;
  expect "RPAREN" None ;;;
  c <- cur_is (is_type "COLON") ;;
  return_type <-
    (if negb is_constructor && c then
       advance ;;;
       ty <- expect "KEYWORD" None ;;
       ret (convert_type (Token.value ty))
     else ret "void") ;;
  let param_str := join ", " params in
  (if is_constructor then
     write (class_name ++ "(" ++ param_str ++ ") {")
   else
     write (return_type ++ " " ++ Token.value method_name
            ++ "(" ++ param_str ++ ") {")) ;;;
  expect "LBRACE" None ;;;
  indent_add 1 ;;;
  transpile_block fuel ;;;
  indent_add (-1) ;;;
  write "}" ;;;
  expect "RBRACE" None ;;;
  ret tt.

(** The loop over the members of a class body. *)
Fixpoint class_body_loop (fuel : nat) (class_name : string) : M t unit :=
  match fuel with
  | O => timeout
  | S n =>
      token <- current ;;
      match token with
      | None => ret tt
      | Some tok =>
          if negb (Token.type tok =? "RBRACE") then
            (if Token.type tok =? "KEYWORD" then
               if mem (Token.value tok) ["public"; "private"] then
                 let visibility := Token.value tok in
                 advance ;;;
                 expect "COLON" None ;;;
                 indent_add (-1) ;;;
                 write (visibility ++ ":") ;;;
                 indent_add 1
               else if Token.value tok =? "func" then
                 transpile_method n class_name
               else transpile_property n
             else advance) ;;;
            class_body_loop n class_name
          else ret tt
      end
  end.

Definition transpile_class (fuel : nat) : M t unit :=
  expect "KEYWORD" (Some "class") ;;;
  class_name <- expect "IDENTIFIER" None ;;
  b <- cur_is (is_keyword "extends") ;;
  parent <-
    (if b then
       advance ;;;
       p <- expect "IDENTIFIER" None ;;
       ret (Some (Token.value p))
     else ret None) ;;
  expect "LBRACE" None ;;;
  write (nl ++ "class " ++ Token.value class_name
         ++ (if truthy parent
             then " : public " ++ match parent with
                                  | Some p => p
                                  | None => ""
                                  end
             else "")
         ++ " {") ;;;
  write "public:" ;;;
  indent_add 1 ;;;
  class_body_loop fuel (Token.value class_name) ;;;
  indent_add (-1) ;;;
  write "};" ;;;
  expect "RBRACE" None ;;;
  ret tt.

Definition preamble : list string :=
  [ "#include <iostream>"; "#include <string>"; "#include <vector>";
    "using namespace std;"; "" ].

(** The loop over the top-level tokens. *)
Fixpoint transpile_loop (fuel : nat) : M t unit :=
  match fuel with
  | O => timeout
  | S n =>
      token <- current ;;
      match token with
      | None => ret tt
      | Some tok =>
          (if is_keyword "class" tok then transpile_class n
           else advance) ;;;
          transpile_loop n
      end
  end.

(** [self.output = l] *)
Definition set_output (l : list string) : M t unit :=
  modify (fun s => mk (tokens s) (pos s) l (indent s)).

Definition transpile (fuel : nat) : M t string :=
  set_output preamble ;;;
  transpile_loop fuel ;;;
  append (nl ++ "int main() {") ;;;
  append ("    cout << " ++ dq ++ "Lakbay Program Running..." ++ dq
          ++ " << endl;") ;;;
  append "    return 0;" ;;;
  append "}" ;;;
  out <- gets output ;;
  ret (join nl out).

End Transpiler.

(** ** The entry point *)

(** [compile_lakbay]: every exception raised by the lexer or the transpiler
    is caught and turned into a text that starts with [ERROR: ].  [None]
    means that the call has not returned within [fuel]. *)
Definition compile_lakbay (fuel : nat) (source_code : string)
  : option string :=
  match Lexer.tokenize fuel (Lexer.init (list_ascii_of_string source_code))
  with
  | Ok (tokens, _) =>
      match Transpiler.transpile fuel (Transpiler.init tokens) with
      | Ok (cpp_code, _) => Some cpp_code
      | Raise e => Some ("ERROR: " ++ str_exn e)
      | Timeout => None
      end
  | Raise e => Some ("ERROR: " ++ str_exn e)
  | Timeout => None
  end.

(** ** The interpreter's store *)

(** [compile_lakbay] above is a function of the source text.  In the
    interpreter the call creates two instances, [Lexer(source_code)] and
    [Transpiler(tokens)], and calls a method on each through a reference.
    Here is the same entry point run in a store of instances that outlives
    the call. *)
Module Process.

(** The instances that calls of [compile_lakbay] create, each one the
    record of its attributes.  [Abandoned] is an instance that an exception
    has left in the middle of a method: the attributes it has then are not
    followed any further, and [compile_lakbay] holds the only reference to
    it. *)
Inductive object : Type :=
| LexerObject (self : Lexer.t)
| TranspilerObject (self : Transpiler.t)
| Abandoned.

(** The store holds every instance created so far, in the order of
    creation, and a reference is a position in it.  No instance is ever
    removed: what an earlier call has created is still there when a later
    call runs.  The list of tokens, which the instance of [Transpiler]
    shares with the instance of [Lexer] that made it, is held by value in
    both: no method of [Lexer] runs once [tokenize] has returned, and no
    method of [Transpiler] assigns to the list or changes it. *)
Definition store : Type := list object.
Definition ref : Type := nat.

(** Code that runs in the store.  [None]: a method is called through a
    reference that is no instance of the class of the method. *)
Definition P (A : Type) : Type := store -> option (outcome A * store).

(** The instance creation [C(...)]: the new instance, with the attributes
    that [__init__] has set, joins the store. *)
Definition new (o : object) (h : store) : ref * store :=
  (length h, (h ++ [o])%list).

(** The store with the instance at [r] replaced. *)
Fixpoint put (r : ref) (o : object) (h : store) : store :=
  match h, r with
  | [], _ => []
  | _ :: h', O => o :: h'
  | x :: h', S r' => x :: put r' o h'
  end.

(** A method call [r.m()] on an instance of [Lexer]: the method runs on
    the attributes of the instance at [r] and leaves them changed. *)
Definition call_lexer {A} (r : ref) (m : M Lexer.t A) : P A :=
  fun h =>
    match nth_error h r with
    | Some (LexerObject self) =>
        Some match m self with
             | Ok (a, self') => (Ok a, put r (LexerObject self') h)
             | Raise e => (Raise e, put r Abandoned h)
             | Timeout => (Timeout, h)
             end
    | _ => None
    end.

(** The same on an instance of [Transpiler]. *)
Definition call_transpiler {A} (r : ref) (m : M Transpiler.t A) : P A :=
  fun h =>
    match nth_error h r with
    | Some (TranspilerObject self) =>
        Some match m self with
             | Ok (a, self') => (Ok a, put r (TranspilerObject self') h)
             | Raise e => (Raise e, put r Abandoned h)
             | Timeout => (Timeout, h)
             end
    | _ => None
    end.

(** [compile_lakbay], statement by statement. *)
Definition compile_lakbay (fuel : nat) (source_code : string) : P string :=
  fun h =>
    let (lexer, h) :=
      new (LexerObject (Lexer.init (list_ascii_of_string source_code))) h in
    match call_lexer lexer (Lexer.tokenize fuel) h with
    | Some (Ok tokens, h) =>
        let (transpiler, h) :=
          new (TranspilerObject (Transpiler.init tokens)) h in
        match call_transpiler transpiler (Transpiler.transpile fuel) h with
        | Some (Ok cpp_code, h) => Some (Ok cpp_code, h)
        | Some (Raise e, h) => Some (Ok ("ERROR: " ++ str_exn e), h)
        | Some (Timeout, h) => Some (Timeout, h)
        | None => None
        end
    | Some (Raise e, h) => Some (Ok ("ERROR: " ++ str_exn e), h)
    | Some (Timeout, h) => Some (Timeout, h)
    | None => None
    end.

End Process.

(** ** The runner *)

Module Runner.

(** The test that [main] of runner.py makes on the text returned by
    [compile_lakbay]: [cpp_code.startswith("ERROR:")]. *)
Definition reports_failure (cpp_code : string) : bool :=
  prefix "ERROR:" cpp_code.

End Runner.

(** * Specification vocabulary *)

(** [refines m m']: whenever [m] returns or raises, [m'] does the same.
    It compares a method run with some fuel to the same method run with
    more fuel. *)
Definition refines {St A} (m m' : M St A) : Prop :=
  forall s, m s = Timeout \/ m' s = m s.

Module FuelSpec.
Import Transpiler.

(** The methods of the expression grammar, each run with fuel [n], are
    refined by the same methods run with fuel [m]. *)
Record expr_mono (n m : nat) : Prop := {
  em_expression : refines (transpile_expression n) (transpile_expression m);
  em_logical_or : refines (transpile_logical_or n) (transpile_logical_or m);
  em_or_loop : forall l, refines (logical_or_loop n l) (logical_or_loop m l);
  em_logical_and :
    refines (transpile_logical_and n) (transpile_logical_and m);
  em_and_loop :
    forall l, refines (logical_and_loop n l) (logical_and_loop m l);
  em_equality : refines (transpile_equality n) (transpile_equality m);
  em_equality_loop :
    forall l, refines (equality_loop n l) (equality_loop m l);
  em_comparison : refines (transpile_comparison n) (transpile_comparison m);
  em_comparison_loop :
    forall l, refines (comparison_loop n l) (comparison_loop m l);
  em_term : refines (transpile_term n) (transpile_term m);
  em_term_loop : forall l, refines (term_loop n l) (term_loop m l);
  em_factor : refines (transpile_factor n) (transpile_factor m);
  em_factor_loop : forall l, refines (factor_loop n l) (factor_loop m l);
  em_unary : refines (transpile_unary n) (transpile_unary m);
  em_postfix : refines (transpile_postfix n) (transpile_postfix m);
  em_postfix_loop : forall e, refines (postfix_loop n e) (postfix_loop m e);
  em_args_loop : forall a, refines (args_loop n a) (args_loop m a);
  em_primary : refines (transpile_primary n) (transpile_primary m)
}.

(** The same for the methods of the statement grammar. *)
Record stmt_mono (n m : nat) : Prop := {
  sm_block : refines (transpile_block n) (transpile_block m);
  sm_statement : refines (transpile_statement n) (transpile_statement m);
  sm_if : refines (transpile_if n) (transpile_if m);
  sm_while : refines (transpile_while n) (transpile_while m);
  sm_for : refines (transpile_for n) (transpile_for m)
}.

End FuelSpec.

Module TranspilerSpec.
Import Transpiler.

(** [extends s s']: the token sequence is the same, the cursor has not moved
    back and the buffer has only grown. *)
Definition extends (s s' : t) : Prop :=
  tokens s' = tokens s /\ pos s <= pos s' /\
  exists l, output s' = (output s ++ l)%list.

(** The line shown by a parse error: the line of a token of the input, or a
    question mark at the end of the input. *)
Definition line_tag (toks : list Token.t) (l : string) : Prop :=
  l = "?" \/ exists tok, In tok toks /\ l = str_nat (Token.line tok).

(** The message of an [Exception] starts with its line. *)
Definition located (toks : list Token.t) (e : exn) : Prop :=
  match e with
  | Exception m =>
      exists l rest, line_tag toks l /\ m = "Line " ++ l ++ ": " ++ rest
  | _ => True
  end.

(** A method, run on the token sequence [toks], either returns with the
    state extended or raises a located exception. *)
Definition sound {A} (toks : list Token.t) (m : M t A) : Prop :=
  forall s, tokens s = toks ->
    match m s with
    | Ok (_, s') => extends s s'
    | Raise e => located toks e
    | Timeout => True
    end.

(** Every method of the expression grammar is sound. *)
Record expr_sound (toks : list Token.t) (n : nat) : Prop := {
  es_expression : sound toks (transpile_expression n);
  es_logical_or : sound toks (transpile_logical_or n);
  es_or_loop : forall l, sound toks (logical_or_loop n l);
  es_logical_and : sound toks (transpile_logical_and n);
  es_and_loop : forall l, sound toks (logical_and_loop n l);
  es_equality : sound toks (transpile_equality n);
  es_equality_loop : forall l, sound toks (equality_loop n l);
  es_comparison : sound toks (transpile_comparison n);
  es_comparison_loop : forall l, sound toks (comparison_loop n l);
  es_term : sound toks (transpile_term n);
  es_term_loop : forall l, sound toks (term_loop n l);
  es_factor : sound toks (transpile_factor n);
  es_factor_loop : forall l, sound toks (factor_loop n l);
  es_unary : sound toks (transpile_unary n);
  es_postfix : sound toks (transpile_postfix n);
  es_postfix_loop : forall e, sound toks (postfix_loop n e);
  es_args_loop : forall a, sound toks (args_loop n a);
  es_primary : sound toks (transpile_primary n)
}.

(** Every method of the statement grammar is sound. *)
Record stmt_sound (toks : list Token.t) (n : nat) : Prop := {
  ss_block : sound toks (transpile_block n);
  ss_statement : sound toks (transpile_statement n);
  ss_if : sound toks (transpile_if n);
  ss_while : sound toks (transpile_while n);
  ss_for : sound toks (transpile_for n)
}.

(** The fixed entry point that ends every translation. *)
Definition main_stub : list string :=
  [ nl ++ "int main() {";
    "    cout << " ++ dq ++ "Lakbay Program Running..." ++ dq ++ " << endl;";
    "    return 0;";
    "}" ].

End TranspilerSpec.

(** ** Example programs *)

(** The tokens of a source text, when the lexer returns them. *)
Definition tokens_of (fuel : nat) (src : string) : option (list Token.t) :=
  match Lexer.tokenize fuel (Lexer.init (list_ascii_of_string src)) with
  | Ok (toks, _) => Some toks
  | _ => None
  end.

(** A keyword at the start of a statement that [transpile_statement] has no
    branch for. *)
Definition unhandled_keyword (tok : Token.t) : bool :=
  (Token.type tok =? "KEYWORD")
  && negb (mem (Token.value tok)
             ["return"; "if"; "while"; "for"; "print";
              "int"; "float"; "string"; "bool"]).

(** A method body that starts a statement with [this]. *)
Definition this_statement_src : string :=
  "class A { func f() { this.x = 1; } }".

(** Its tokens. *)
Definition this_statement_toks : list Token.t :=
  Eval vm_compute in
    match tokens_of 100 this_statement_src with
    | Some toks => toks
    | None => []
    end.

(** A print statement whose string literal holds the escape backslash-n. *)
Definition escape_src : string :=
  "class A { func f() { print(" ++ dq ++ "a\nb" ++ dq ++ "); } }".

(** The body that a translation wraps between the preamble and the entry
    point. *)
Definition program (body : list string) : string :=
  join nl (Transpiler.preamble ++ body ++ TranspilerSpec.main_stub).

Module LexerSpec.
Import Lexer.

(** [self.pos = p] *)
Definition set_pos (s : t) (p : nat) : t := mk (code s) p (line s) (tokens s).

(** The lines of the tokens never decrease along the sequence. *)
Definition line_ordered (toks : list Token.t) : Prop :=
  forall i j ti tj,
    i <= j -> nth_error toks i = Some ti -> nth_error toks j = Some tj ->
    Token.line ti <= Token.line tj.

(** The tokens produced so far are in source order and none is on a line
    after the current one. *)
Definition lines_ok (s : t) : Prop :=
  line_ordered (tokens s)
  /\ Forall (fun tok => 1 <= Token.line tok <= line s) (tokens s)
  /\ 1 <= line s.

End LexerSpec.

Module ProcessSpec.
Import Process.

(** The calls [compile_lakbay(src)] for the texts [src] of [sources], made
    one after the other in the same interpreter, from the store [h]: the
    texts they return and the store they leave.  [None] if one of them does
    not return. *)
Fixpoint session (fuel : nat) (sources : list string) (h : store)
  : option (list string * store) :=
  match sources with
  | [] => Some ([], h)
  | src :: rest =>
      match compile_lakbay fuel src h with
      | Some (Ok r, h1) =>
          match session fuel rest h1 with
          | Some (rs, h2) => Some (r :: rs, h2)
          | None => None
          end
      | _ => None
      end
  end.

(** [kept h h']: every instance of [h] is in [h'], at its place and with
    the attributes it had. *)
Definition kept (h h' : store) : Prop := exists l, h' = (h ++ l)%list.

(** What a call returns in a store, written as an outcome. *)
Definition returned (r : option string) : outcome string :=
  match r with
  | Some text => Ok text
  | None => Timeout
  end.

End ProcessSpec.

Module InsertSpec.
Import Lexer LexerSpec.

(** A character that starts no rule of the main loop of [tokenize]: it is
    not white space, not a digit, not a letter or an underscore, not a
    double quote and not a single-character operator.  Standing alone, it
    reaches the last line of the loop, which skips it.  Among these
    characters are [&] and [|], which the loop reads only in the operators
    [&&] and [||], and the code points 188 to 190, which [str.isalnum]
    accepts and [str.isalpha] and [str.isdigit] do not. *)
Definition unrecognized (c : ascii) : bool :=
  negb (isspace c) && negb (isdigit c)
  && negb (isalpha c || (c =? "_")%char)
  && negb (c =? DQUOTE)%char
  && match lookup (chr c) single_chars with Some _ => false | None => true end.

(** The last character of a text, if it has one. *)
Definition last_char (l : list ascii) : option ascii :=
  nth_error l (length l - 1).

(** [joins pre c post]: put between [pre] and [post], the character [c]
    stands next to a character that it can make a token with.  Either the
    loop of identifiers accepts [c] ([str.isalnum]) and [pre] ends with a
    character of a word, or [c] is [&] or [|] and the same character stands
    before or after it. *)
Definition joins (pre : list ascii) (c : ascii) (post : list ascii)
  : bool :=
  (isalnum c
   && match last_char pre with
      | Some x => isalnum x || (x =? "_")%char
      | None => false
      end)
  || (((c =? "&")%char || (c =? "|")%char)
      && (match last_char pre with
          | Some x => (x =? c)%char
          | None => false
          end
          || match post with
             | y :: _ => (y =? c)%char
             | [] => false
             end)).

(** The first [k] turns of the main loop of [tokenize]. *)
Fixpoint turns (fuel k : nat) : M t unit :=
  match k with
  | O => ret tt
  | S k' =>
      b <- in_bounds ;;
      if b then tokenize_body fuel ;;; turns fuel k' else ret tt
  end.

(** The main loop starts a turn with the cursor at [p]: no token, comment
    or string literal of [code] spans the position [p]. *)
Definition token_boundary (code : list ascii) (p : nat) : Prop :=
  exists fuel k s, turns fuel k (init code) = Ok (tt, s) /\ pos s = p.

(** A method leaves the text alone and never moves the cursor back. *)
Definition grows {A} (m : M t A) : Prop :=
  forall s, match m s with
            | Ok (_, s') => code s' = code s /\ pos s <= pos s'
            | _ => True
            end.

(** Two runs, on a text and on the text with [c] inserted after [pre],
    that have both passed the insertion point. *)
Definition shifted (pre post : list ascii) (c : ascii) (s1 s2 : t)
  : Prop :=
  code s1 = (pre ++ post)%list /\ code s2 = (pre ++ c :: post)%list
  /\ pos s2 = pos s1 + 1 /\ length pre <= pos s1
  /\ line s2 = line s1 /\ tokens s2 = tokens s1.

(** Run from two such states, a method does the same in both and leaves
    them in two such states. *)
Definition lockstep (pre post : list ascii) (c : ascii) {A}
  (m1 m2 : M t A) : Prop :=
  forall s1 s2, shifted pre post c s1 s2 ->
    match m1 s1, m2 s2 with
    | Ok (a1, s1'), Ok (a2, s2') => a1 = a2 /\ shifted pre post c s1' s2'
    | Raise e1, Raise e2 => e1 = e2
    | Timeout, Timeout => True
    | _, _ => False
    end.

(** The same two runs before the insertion point. *)
Definition aligned (pre post : list ascii) (c : ascii) (s1 s2 : t)
  : Prop :=
  code s1 = (pre ++ post)%list /\ code s2 = (pre ++ c :: post)%list
  /\ pos s2 = pos s1 /\ pos s1 <= length pre
  /\ line s2 = line s1 /\ tokens s2 = tokens s1.

(** The state after [self.tokens.append(Token(ty, v, self.line))]. *)
Definition emitted (s : t) (ty v : string) : t :=
  mk (code s) (pos s) (line s)
     (tokens s ++ [Token.mk ty v (line s)])%list.

(** [lexes_to s toks]: the main loop, started in [s], ends with the
    tokens [toks]. *)
Definition lexes_to (s : t) (toks : list Token.t) : Prop :=
  exists n s', tokenize_loop n s = Ok (tt, s') /\ tokens s' = toks.

End InsertSpec.

Module MethodSpec.
Import Transpiler.

(** [self.pos = p] *)
Definition at_pos (s : t) (p : nat) : t :=
  mk (tokens s) p (output s) (indent s).

(** The line that [write] appends. *)
Definition written (s : t) (code : string) : t :=
  mk (tokens s) (pos s)
     (output s ++ [(str_mul "    " (Z.to_nat (indent s)) ++ code)%string])%list
     (indent s).

(** The error of [expect] on a token of another type. *)
Definition expect_type_error (ty : string) (tok : Token.t) : exn :=
  Exception ("Line " ++ str_nat (Token.line tok) ++ ": Expected " ++ ty
             ++ ", got " ++ Token.type tok).

(** A method that emits nothing. *)
Definition quiet {A} (m : M t A) : Prop :=
  forall s a s', m s = Ok (a, s') ->
    tokens s' = tokens s /\ output s' = output s /\ indent s' = indent s.

(** The tokens [func NAME (] at the cursor. *)
Definition method_head (s : t) (name : Token.t) : Prop :=
  exists kw lp,
    nth_error (tokens s) (pos s) = Some kw /\ is_keyword "func" kw = true
    /\ nth_error (tokens s) (pos s + 1) = Some name
    /\ Token.type name = "IDENTIFIER"
    /\ nth_error (tokens s) (pos s + 2) = Some lp
    /\ Token.type lp = "LPAREN".

(** The parameter list that follows is accepted and closed. *)
Definition params_end (fuel : nat) (s : t) (params : list string) (sp : t)
  : Prop :=
  params_loop fuel [] (at_pos s (pos s + 3)) = Ok (params, sp)
  /\ exists rp, nth_error (tokens s) (pos sp) = Some rp
                /\ Token.type rp = "RPAREN".

End MethodSpec.

Module CursorSpec.
Import Transpiler MethodSpec.

(** [advances k m]: when [m] returns it has changed nothing but the cursor,
    which it has moved forward by [k] tokens or more. *)
Definition advances (k : nat) {A} (m : M t A) : Prop :=
  forall s a s', m s = Ok (a, s') ->
    s' = at_pos s (pos s') /\ pos s + k <= pos s'.

(** Every method of the expression grammar consumes a token; the loops
    may consume none. *)
Record expr_advances (n : nat) : Prop := {
  ea_expression : advances 1 (transpile_expression n);
  ea_logical_or : advances 1 (transpile_logical_or n);
  ea_or_loop : forall l, advances 0 (logical_or_loop n l);
  ea_logical_and : advances 1 (transpile_logical_and n);
  ea_and_loop : forall l, advances 0 (logical_and_loop n l);
  ea_equality : advances 1 (transpile_equality n);
  ea_equality_loop : forall l, advances 0 (equality_loop n l);
  ea_comparison : advances 1 (transpile_comparison n);
  ea_comparison_loop : forall l, advances 0 (comparison_loop n l);
  ea_term : advances 1 (transpile_term n);
  ea_term_loop : forall l, advances 0 (term_loop n l);
  ea_factor : advances 1 (transpile_factor n);
  ea_factor_loop : forall l, advances 0 (factor_loop n l);
  ea_unary : advances 1 (transpile_unary n);
  ea_postfix : advances 1 (transpile_postfix n);
  ea_postfix_loop : forall e, advances 0 (postfix_loop n e);
  ea_args_loop : forall a, advances 0 (args_loop n a);
  ea_primary : advances 1 (transpile_primary n)
}.

(** [m] returns only with the cursor moved forward. *)
Definition progresses {A} (m : M t A) : Prop :=
  forall s a s', m s = Ok (a, s') -> pos s < pos s'.

End CursorSpec.

Module TerminationSpec.
Import Transpiler.

(** The number of tokens from the cursor to the end of the input. *)
Definition remaining (s : t) : nat := length (tokens s) - pos s.

(** [returns lo b m]: started with [lo] to [b] tokens remaining, [m]
    returns or raises. *)
Definition returns (lo b : nat) {A} (m : M t A) : Prop :=
  forall s, lo <= remaining s <= b -> m s <> Timeout.

(** Every method of the expression grammar, run with fuel [n], returns or
    raises when the fuel covers twelve calls for each remaining token and
    the depth of the grammar below the method. *)
Record expr_returns (n : nat) : Prop := {
  er_expression :
    forall b, 12 * b + 10 <= n -> returns 0 b (transpile_expression n);
  er_logical_or :
    forall b, 12 * b + 9 <= n -> returns 0 b (transpile_logical_or n);
  er_or_loop :
    forall l b, 12 * b + 1 <= n -> returns 0 b (logical_or_loop n l);
  er_logical_and :
    forall b, 12 * b + 8 <= n -> returns 0 b (transpile_logical_and n);
  er_and_loop :
    forall l b, 12 * b + 1 <= n -> returns 0 b (logical_and_loop n l);
  er_equality :
    forall b, 12 * b + 7 <= n -> returns 0 b (transpile_equality n);
  er_equality_loop :
    forall l b, 12 * b + 1 <= n -> returns 0 b (equality_loop n l);
  er_comparison :
    forall b, 12 * b + 6 <= n -> returns 0 b (transpile_comparison n);
  er_comparison_loop :
    forall l b, 12 * b + 1 <= n -> returns 0 b (comparison_loop n l);
  er_term :
    forall b, 12 * b + 5 <= n -> returns 0 b (transpile_term n);
  er_term_loop :
    forall l b, 12 * b + 1 <= n -> returns 0 b (term_loop n l);
  er_factor :
    forall b, 12 * b + 4 <= n -> returns 0 b (transpile_factor n);
  er_factor_loop :
    forall l b, 12 * b + 1 <= n -> returns 0 b (factor_loop n l);
  er_unary :
    forall b, 12 * b + 3 <= n -> returns 0 b (transpile_unary n);
  er_postfix :
    forall b, 12 * b + 2 <= n -> returns 0 b (transpile_postfix n);
  er_postfix_loop :
    forall e b, 12 * b + 1 <= n -> returns 0 b (postfix_loop n e);
  er_args_loop :
    forall a b, 12 * b + 11 <= n -> returns 0 b (args_loop n a);
  er_primary :
    forall b, 12 * b + 1 <= n -> returns 0 b (transpile_primary n)
}.

End TerminationSpec.

Module IndentSpec.
Import Transpiler.

(** [shifts d m]: when [m] returns, the indentation level has changed by
    [d]. *)
Definition shifts (d : Z) {A} (m : M t A) : Prop :=
  forall s a s', m s = Ok (a, s') -> indent s' = (indent s + d)%Z.

(** The methods of the statement grammar leave the level as they found
    it. *)
Record stmt_level (n : nat) : Prop := {
  sl_block : shifts 0 (transpile_block n);
  sl_statement : shifts 0 (transpile_statement n);
  sl_if : shifts 0 (transpile_if n);
  sl_while : shifts 0 (transpile_while n);
  sl_for : shifts 0 (transpile_for n)
}.

(** The blanks that [write] puts before a line. *)
Definition margin (s : t) : string := str_mul "    " (Z.to_nat (indent s)).

End IndentSpec.

Module ChainSpec.
Import Transpiler.

(** A token that is an operand by itself. *)
Definition operand (tok : Token.t) : bool :=
  mem (Token.type tok) ["NUMBER"; "IDENTIFIER"].

(** The types of the tokens that continue an expression after an
    operand. *)
Definition continuations : list string :=
  [ "DOT"; "LPAREN"; "LBRACKET"; "ASSIGN"; "MULT"; "DIV"; "PLUS"; "MINUS";
    "LT"; "GT"; "LEQ"; "GEQ"; "EQ"; "NEQ"; "AND"; "OR" ].

(** The token after the token at the cursor, if there is one, has none of
    the types [tys]. *)
Definition next_not (tys : list string) (s : t) : Prop :=
  match nth_error (tokens s) (pos s + 1) with
  | Some tok => mem (Token.type tok) tys = false
  | None => True
  end.

(** The text that [transpile_term] gives to operands chained by [+] and
    [-]. *)
Definition sum_text (first : Token.t) (rest : list (Token.t * Token.t))
  : string :=
  fold_left
    (fun left p =>
       "(" ++ left ++ " "
       ++ (if Token.type (fst p) =? "PLUS" then "+" else "-")
       ++ " " ++ Token.value (snd p) ++ ")")
    rest (Token.value first).

(** The tokens of such a chain after its first operand. *)
Definition sum_tokens (rest : list (Token.t * Token.t)) : list Token.t :=
  flat_map (fun p => [fst p; snd p]) rest.

(** An operator [+] or [-] followed by an operand. *)
Definition summand (p : Token.t * Token.t) : bool :=
  mem (Token.type (fst p)) ["PLUS"; "MINUS"] && operand (snd p).

(** At the cursor stands nothing that has one of the types [tys]. *)
Definition cur_not (tys : list string) (s : t) : Prop :=
  match nth_error (tokens s) (pos s) with
  | Some tok => mem (Token.type tok) tys = false
  | None => True
  end.

(** The rest of the tokens does not continue an expression. *)
Definition ends_expression (tail : list Token.t) : bool :=
  match tail with
  | [] => true
  | tok :: _ => negb (mem (Token.type tok) continuations)
  end.

(** The tokens of the arguments of a call: operands, each followed by a
    comma or not. *)
Definition arg_tokens (items : list (Token.t * option Token.t))
  : list Token.t :=
  flat_map (fun p => fst p :: match snd p with
                              | Some comma => [comma]
                              | None => []
                              end) items.

(** An operand, and after it a comma if anything. *)
Definition argument (p : Token.t * option Token.t) : bool :=
  operand (fst p)
  && match snd p with
     | Some comma => Token.type comma =? "COMMA"
     | None => true
     end.

End ChainSpec.

Module TokenSpec.
Import Lexer.

(** Every character of [w] satisfies [p]. *)
Definition all_chars (p : ascii -> bool) (w : string) : bool :=
  forallb p (list_ascii_of_string w).

(** The text of a [NUMBER] token: a digit, then digits and dots. *)
Definition number_text (v : string) : bool :=
  match v with
  | String c rest =>
      isdigit c && all_chars (fun c => isdigit c || (c =? ".")%char) rest
  | EmptyString => false
  end.

(** The text of a word: a letter or an underscore, then letters, digits
    and underscores. *)
Definition word_text (v : string) : bool :=
  match v with
  | String c rest =>
      (isalpha c || (c =? "_")%char)
      && all_chars (fun c => isalnum c || (c =? "_")%char) rest
  | EmptyString => false
  end.

(** [v] is an operator or a punctuation mark and [ty] is its type. *)
Definition punctuation (ty v : string) : bool :=
  match lookup v operators with
  | Some ty' => ty' =? ty
  | None =>
      match lookup v single_chars with
      | Some ty' => ty' =? ty
      | None => false
      end
  end.

(** What the type of a token says about its text. *)
Definition well_formed (tok : Token.t) : bool :=
  let ty := Token.type tok in
  let v := Token.value tok in
  if ty =? "NUMBER" then number_text v
  else if ty =? "KEYWORD" then word_text v && mem v keywords
  else if ty =? "IDENTIFIER" then word_text v && negb (mem v keywords)
  else if ty =? "STRING" then true
  else punctuation ty v.

(** A loop that collects characters that satisfy [p] keeps the tokens and
    the first character of its accumulator. *)
Definition collects (p : ascii -> bool) (loop : string -> M t string)
  : Prop :=
  forall c w s w' s',
    loop (String c w) s = Ok (w', s') ->
    all_chars p w = true ->
    line s' = line s /\ tokens s' = tokens s
    /\ exists r, w' = String c r /\ all_chars p r = true.

(** A loop that emits no token and counts no line. *)
Definition silent {A} (m : M t A) : Prop :=
  forall s a s', m s = Ok (a, s') ->
    line s' = line s /\ tokens s' = tokens s.

End TokenSpec.

Module LiteralSpec.

(** The text of [v] inside a string literal: a backslash before every
    double quote and every backslash. *)
Fixpoint literal_of (v : string) : string :=
  match v with
  | EmptyString => ""
  | String c rest =>
      if (c =? DQUOTE)%char || (c =? BACKSLASH)%char then
        String BACKSLASH (String c (literal_of rest))
      else String c (literal_of rest)
  end.

End LiteralSpec.

Module BlankSpec.

(** A text of white space and [//] comments only; [in_comment] tells that
    the text starts inside a comment. *)
Fixpoint blank (in_comment : bool) (code : list ascii) : bool :=
  match code with
  | [] => true
  | c :: rest =>
      if in_comment then blank (negb (c =? LF)%char) rest
      else if isspace c then blank false rest
      else
        match rest with
        | c2 :: _ => (c =? "/")%char && (c2 =? "/")%char && blank true rest
        | [] => false
        end
  end.

End BlankSpec.

Module LineSpec.
Import Lexer.

(** The number of the line that the position [p] of [code] is on: one more
    than the number of newline characters before it. *)
Definition line_at (code : list ascii) (p : nat) : nat :=
  1 + length (filter (fun c => (c =? LF)%char) (firstn p code)).

(** A method that stays on its line: it leaves the text, the line counter
    and the tokens alone and passes no newline character. *)
Definition on_line {A} (m : M t A) : Prop :=
  forall s a s', m s = Ok (a, s') ->
    line s' = line s /\ tokens s' = tokens s
    /\ line_at (code s) (pos s') = line_at (code s) (pos s).

End LineSpec.

Module TextSpec.
Import Lexer.

(** A loop that collects the characters it passes: its result is its
    accumulator followed by the text between the two positions. *)
Definition reads (loop : string -> M t string) : Prop :=
  forall w s w' s', loop w s = Ok (w', s') ->
    pos s <= pos s' /\ w' = w ++ slice (code s) (pos s) (pos s').

End TextSpec.

Module BlockSpec.
Import Transpiler TerminationSpec.

(** No token from the cursor on is a keyword that [transpile_statement]
    has no branch for. *)
Definition handled_ahead (s : t) : Prop :=
  Forall (fun tok => unhandled_keyword tok = false)
    (skipn (pos s) (tokens s)).

(** [returns_handled lo b m]: started with [lo] to [b] tokens remaining,
    none of them an unhandled keyword, [m] returns or raises. *)
Definition returns_handled (lo b : nat) {A} (m : M t A) : Prop :=
  forall s, handled_ahead s -> lo <= remaining s <= b -> m s <> Timeout.

(** [keeps d m]: when [m] returns it has kept the tokens and moved the
    cursor forward by [d] tokens or more. *)
Definition keeps (d : nat) {A} (m : M t A) : Prop :=
  forall s a s', m s = Ok (a, s') ->
    tokens s' = tokens s /\ pos s + d <= pos s'.

(** The methods of the statement grammar, run with fuel [n], return or
    raise when the fuel covers twelve calls for each remaining token and
    the depth of the grammar below the method. *)
Record stmt_returns (n : nat) : Prop := {
  sr_block :
    forall b, 12 * b + 12 <= n -> returns_handled 0 b (transpile_block n);
  sr_statement :
    forall b, 12 * b + 11 <= n ->
      returns_handled 0 b (transpile_statement n);
  sr_if : forall b, 12 * b + 1 <= n -> returns_handled 0 b (transpile_if n);
  sr_while :
    forall b, 12 * b + 1 <= n -> returns_handled 0 b (transpile_while n);
  sr_for :
    forall b, 12 * b + 1 <= n -> returns_handled 0 b (transpile_for n)
}.

End BlockSpec.

(** * Properties *)

(** ** The monad and fuel *)

Lemma refines_refl {St A} (m : M St A) : refines m m.
Proof. intros s; now right. Qed.

Lemma refines_timeout {St A} (m : M St A) : refines timeout m.
Proof. intros s; now left. Qed.

Lemma refines_bind {St A B} (m m' : M St A) (k k' : A -> M St B) :
  refines m m' -> (forall a, refines (k a) (k' a)) ->
  refines (bind m k) (bind m' k').
Proof.
  intros Hm Hk s. unfold bind.
  destruct (Hm s) as [E | E]; rewrite E; auto.
  destruct (m s) as [[a s'] | e |]; auto.
  apply Hk.
Qed.

Lemma refines_ok {St A} (m m' : M St A) s r :
  refines m m' -> m s = r -> r <> Timeout -> m' s = r.
Proof. intros H E N. destruct (H s); congruence. Qed.

(** Splits a goal [refines m m'] along the shape that [m] and [m'] share,
    down to the calls, which the hypotheses relate. *)
Ltac mono_step :=
  first
    [ apply refines_refl
    | apply refines_timeout
    | match goal with
      | H : forall x, refines (?f ?n x) (?f ?m x) |- refines (?f ?n _) (?f ?m _) =>
          apply H
      | H : refines ?a ?b |- refines ?a ?b => exact H
      end
    | apply refines_bind; [ | intros ? ]
    | match goal with
      | |- refines (if ?b then _ else _) (if ?b then _ else _) => destruct b
      | |- refines (match ?x with _ => _ end) (match ?x with _ => _ end) =>
          destruct x
      end ].

Ltac mono := repeat mono_step.

Module TranspilerFuel.
Import Transpiler FuelSpec.

Lemma expr_fuel n : forall m, n <= m -> expr_mono n m.
Proof.
  induction n as [| n IH]; intros m Hm.
  - constructor; intros; apply refines_timeout.
  - destruct m as [| m]; [lia |].
    destruct (IH m ltac:(lia)).
    constructor; intros; simpl; mono.
Qed.

Lemma transpile_print_fuel n m :
  n <= m -> refines (transpile_print n) (transpile_print m).
Proof.
  intros H. destruct (expr_fuel n m H). unfold transpile_print. mono.
Qed.

Lemma transpile_var_declaration_fuel n m :
  n <= m ->
  refines (transpile_var_declaration n) (transpile_var_declaration m).
Proof.
  intros H. destruct (expr_fuel n m H). unfold transpile_var_declaration. mono.
Qed.

Lemma stmt_fuel n : forall m, n <= m -> stmt_mono n m.
Proof.
  induction n as [| n IH]; intros m Hm.
  - constructor; intros; apply refines_timeout.
  - destruct m as [| m]; [lia |].
    destruct (IH m ltac:(lia)).
    destruct (expr_fuel n m ltac:(lia)).
    assert (Hp := transpile_print_fuel n m ltac:(lia)).
    assert (Hv := transpile_var_declaration_fuel n m ltac:(lia)).
    constructor; intros; simpl; mono.
Qed.

Lemma transpile_property_fuel n m :
  n <= m -> refines (transpile_property n) (transpile_property m).
Proof.
  intros H. destruct (expr_fuel n m H). unfold transpile_property. mono.
Qed.

Lemma params_loop_fuel n :
  forall m, n <= m -> forall ps, refines (params_loop n ps) (params_loop m ps).
Proof.
  induction n as [| n IH]; intros m Hm ps.
  - apply refines_timeout.
  - destruct m as [| m]; [lia |].
    assert (IH' := IH m ltac:(lia)). simpl. mono.
Qed.

Lemma transpile_method_fuel n m :
  n <= m -> forall c, refines (transpile_method n c) (transpile_method m c).
Proof.
  intros H c. destruct (stmt_fuel n m H).
  assert (Hp := params_loop_fuel n m H).
  unfold transpile_method. mono.
Qed.

Lemma class_body_loop_fuel n :
  forall m, n <= m ->
  forall c, refines (class_body_loop n c) (class_body_loop m c).
Proof.
  induction n as [| n IH]; intros m Hm c.
  - apply refines_timeout.
  - destruct m as [| m]; [lia |].
    assert (IH' := IH m ltac:(lia)).
    assert (Hm' := transpile_method_fuel n m ltac:(lia)).
    assert (Hp := transpile_property_fuel n m ltac:(lia)).
    simpl. mono.
Qed.

Lemma transpile_class_fuel n m :
  n <= m -> refines (transpile_class n) (transpile_class m).
Proof.
  intros H. assert (Hb := class_body_loop_fuel n m H).
  unfold transpile_class. mono.
Qed.

Lemma transpile_loop_fuel n :
  forall m, n <= m -> refines (transpile_loop n) (transpile_loop m).
Proof.
  induction n as [| n IH]; intros m Hm.
  - apply refines_timeout.
  - destruct m as [| m]; [lia |].
    assert (IH' := IH m ltac:(lia)).
    assert (Hc := transpile_class_fuel n m ltac:(lia)).
    simpl. mono.
Qed.

Lemma transpile_fuel n m :
  n <= m -> refines (transpile n) (transpile m).
Proof.
  intros H. assert (Hl := transpile_loop_fuel n m H).
  unfold transpile. mono.
Qed.

End TranspilerFuel.

Module LexerFuel.
Import Lexer.

Lemma comment_loop_fuel n :
  forall m, n <= m -> refines (comment_loop n) (comment_loop m).
Proof.
  induction n as [| n IH]; intros m Hm.
  - apply refines_timeout.
  - destruct m as [| m]; [lia |].
    assert (IH' := IH m ltac:(lia)). simpl. mono.
Qed.

Lemma number_loop_fuel n :
  forall m, n <= m ->
  forall w, refines (number_loop n w) (number_loop m w).
Proof.
  induction n as [| n IH]; intros m Hm w.
  - apply refines_timeout.
  - destruct m as [| m]; [lia |].
    assert (IH' := IH m ltac:(lia)). simpl. mono.
Qed.

Lemma ident_loop_fuel n :
  forall m, n <= m ->
  forall w, refines (ident_loop n w) (ident_loop m w).
Proof.
  induction n as [| n IH]; intros m Hm w.
  - apply refines_timeout.
  - destruct m as [| m]; [lia |].
    assert (IH' := IH m ltac:(lia)). simpl. mono.
Qed.

Lemma string_loop_fuel n :
  forall m, n <= m ->
  forall w, refines (string_loop n w) (string_loop m w).
Proof.
  induction n as [| n IH]; intros m Hm w.
  - apply refines_timeout.
  - destruct m as [| m]; [lia |].
    assert (IH' := IH m ltac:(lia)). simpl. mono.
Qed.

Lemma tokenize_body_fuel n m :
  n <= m -> refines (tokenize_body n) (tokenize_body m).
Proof.
  intros H.
  assert (Hc := comment_loop_fuel n m H).
  assert (Hn := number_loop_fuel n m H).
  assert (Hi := ident_loop_fuel n m H).
  assert (Hs := string_loop_fuel n m H).
  unfold tokenize_body. mono.
Qed.

Lemma tokenize_loop_fuel n :
  forall m, n <= m -> refines (tokenize_loop n) (tokenize_loop m).
Proof.
  induction n as [| n IH]; intros m Hm.
  - apply refines_timeout.
  - destruct m as [| m]; [lia |].
    assert (IH' := IH m ltac:(lia)).
    assert (Hb := tokenize_body_fuel n m ltac:(lia)).
    simpl. mono.
Qed.

Lemma tokenize_fuel n m :
  n <= m -> refines (tokenize n) (tokenize m).
Proof.
  intros H. assert (Hl := tokenize_loop_fuel n m H).
  unfold tokenize. mono.
Qed.

End LexerFuel.

(** ** The transpiler: states only grow, parse errors carry a line *)

Module TranspilerSound.
Import Transpiler TranspilerSpec.

Lemma extends_refl s : extends s s.
Proof. repeat split; auto. exists []. now rewrite app_nil_r. Qed.

Lemma extends_trans s1 s2 s3 :
  extends s1 s2 -> extends s2 s3 -> extends s1 s3.
Proof.
  intros (T1 & P1 & l1 & O1) (T2 & P2 & l2 & O2).
  repeat split; [congruence | lia |].
  exists (l1 ++ l2)%list. now rewrite O2, O1, app_assoc.
Qed.

Section Sound.
Variable toks : list Token.t.

Lemma sound_ret A (a : A) : sound toks (ret a).
Proof. intros s _. apply extends_refl. Qed.

Lemma sound_timeout A : sound toks (@timeout t A).
Proof. intros s _. exact I. Qed.

Lemma sound_raise A e : located toks e -> sound toks (@raise t A e).
Proof. intros H s _. exact H. Qed.

Lemma sound_bind A B (m : M t A) (k : A -> M t B) :
  sound toks m -> (forall a, sound toks (k a)) -> sound toks (bind m k).
Proof.
  intros Hm Hk s Hs. unfold bind. specialize (Hm s Hs).
  destruct (m s) as [[a s'] | e |]; auto.
  assert (Hs' : tokens s' = toks) by (destruct Hm; congruence).
  specialize (Hk a s' Hs').
  destruct (k a s') as [[b s''] | e |]; auto.
  eapply extends_trans; eauto.
Qed.

(** After [self.current()] the token, when there is one, is known to be
    a token of the input. *)
Lemma sound_bind_current B (k : option Token.t -> M t B) :
  (forall tok, In tok toks -> sound toks (k (Some tok))) ->
  sound toks (k None) ->
  sound toks (bind current k).
Proof.
  intros Hsome Hnone s Hs. unfold bind, current, gets.
  destruct (nth_error (tokens s) (pos s)) as [tok |] eqn:E.
  - apply Hsome; auto. rewrite <- Hs. eapply nth_error_In; eauto.
  - apply Hnone; auto.
Qed.

Lemma sound_gets A (f : t -> A) : sound toks (gets f).
Proof. intros s _. apply extends_refl. Qed.

Lemma sound_cur_is p : sound toks (cur_is p).
Proof. apply sound_gets. Qed.

Lemma sound_advance : sound toks advance.
Proof.
  intros s _. repeat split; simpl; [lia |].
  exists []. now rewrite app_nil_r.
Qed.

Lemma sound_append l : sound toks (append l).
Proof. intros s _. repeat split; simpl; eauto. Qed.

Lemma sound_write c : sound toks (write c).
Proof.
  unfold write.
  apply sound_bind; [apply sound_gets | intros; apply sound_append].
Qed.

Lemma sound_indent_add d : sound toks (indent_add d).
Proof.
  intros s _. repeat split; simpl; auto.
  exists []. now rewrite app_nil_r.
Qed.

Lemma sound_get_type o : sound toks (get_type o).
Proof. destruct o; [apply sound_ret | apply sound_raise; exact I]. Qed.

Lemma located_tok tok rest :
  In tok toks ->
  located toks
    (Exception ("Line " ++ str_nat (Token.line tok) ++ ": " ++ rest)).
Proof.
  intros H. exists (str_nat (Token.line tok)), rest.
  split; [right; eauto | auto].
Qed.

Lemma located_eof rest :
  located toks (Exception ("Line " ++ "?" ++ ": " ++ rest)).
Proof. exists "?", rest. split; [now left | auto]. Qed.

Lemma sound_expect ty v : sound toks (expect ty v).
Proof.
  unfold expect. apply sound_bind_current.
  - intros tok Hin.
    destruct (negb (Token.type tok =? ty)).
    + apply sound_raise.
      apply (@located_tok tok
               ("Expected " ++ ty ++ ", got " ++ Token.type tok) Hin).
    + assert (Hadv : sound toks (advance ;;; ret tok))
        by (apply sound_bind;
            [apply sound_advance | intros; apply sound_ret]).
      destruct v as [v |]; [| exact Hadv].
      destruct (truthy (Some v) && negb (Token.value tok =? v))%bool;
        [| exact Hadv].
      apply sound_raise.
      apply (@located_tok tok
               ("Expected '" ++ v ++ "', got '" ++ Token.value tok ++ "'")
               Hin).
  - apply sound_raise.
    apply (located_eof ("Expected " ++ ty ++ ", got " ++ "EOF")).
Qed.

End Sound.

(** Splits a goal [sound toks m] along the shape of [m]. *)
Ltac sound_step :=
  first
    [ apply sound_ret
    | apply sound_timeout
    | apply sound_advance
    | apply sound_expect
    | apply sound_write
    | apply sound_append
    | apply sound_indent_add
    | apply sound_get_type
    | apply sound_cur_is
    | apply sound_gets
    | match goal with
      | H : forall x, sound ?toks (?f ?n x) |- sound ?toks (?f ?n _) =>
          apply H
      | H : sound ?toks ?a |- sound ?toks ?a => exact H
      end
    | apply sound_bind_current; [ intros ? ? | ]
    | apply sound_bind; [ | intros ? ]
    | match goal with
      | |- sound _ (if ?b then _ else _) => destruct b
      | |- sound _ (match ?x with _ => _ end) => destruct x
      end
    | apply sound_raise;
      first [ exact I
            | match goal with
              | H : In ?tok ?toks |- located ?toks (Exception ?m) =>
                  eapply (@located_tok toks tok _ H)
              end ] ].

Ltac sound_tac := repeat sound_step.

Lemma expr_sound_all toks n : expr_sound toks n.
Proof.
  induction n as [| n IH].
  - constructor; intros; apply sound_timeout.
  - destruct IH. constructor; intros; simpl; sound_tac.
Qed.

Lemma transpile_print_sound toks n : sound toks (transpile_print n).
Proof.
  destruct (expr_sound_all toks n). unfold transpile_print. sound_tac.
Qed.

Lemma transpile_var_declaration_sound toks n :
  sound toks (transpile_var_declaration n).
Proof.
  destruct (expr_sound_all toks n).
  unfold transpile_var_declaration. sound_tac.
Qed.

Lemma stmt_sound_all toks n : stmt_sound toks n.
Proof.
  induction n as [| n IH].
  - constructor; intros; apply sound_timeout.
  - destruct IH. destruct (expr_sound_all toks n).
    assert (Hp := transpile_print_sound toks n).
    assert (Hv := transpile_var_declaration_sound toks n).
    constructor; intros; simpl; sound_tac.
Qed.

Lemma transpile_property_sound toks n : sound toks (transpile_property n).
Proof.
  destruct (expr_sound_all toks n). unfold transpile_property. sound_tac.
Qed.

Lemma params_loop_sound toks n : forall ps, sound toks (params_loop n ps).
Proof.
  induction n as [| n IH]; intros ps.
  - apply sound_timeout.
  - simpl. sound_tac.
Qed.

Lemma transpile_method_sound toks n c : sound toks (transpile_method n c).
Proof.
  destruct (stmt_sound_all toks n).
  assert (Hp := params_loop_sound toks n).
  unfold transpile_method. sound_tac.
Qed.

Lemma class_body_loop_sound toks n :
  forall c, sound toks (class_body_loop n c).
Proof.
  induction n as [| n IH]; intros c.
  - apply sound_timeout.
  - assert (Hm := transpile_method_sound toks n).
    assert (Hp := transpile_property_sound toks n).
    simpl. sound_tac.
Qed.

Lemma transpile_class_sound toks n : sound toks (transpile_class n).
Proof.
  assert (Hb := class_body_loop_sound toks n).
  unfold transpile_class. sound_tac.
Qed.

Lemma transpile_loop_sound toks n : sound toks (transpile_loop n).
Proof.
  induction n as [| n IH].
  - apply sound_timeout.
  - assert (Hc := transpile_class_sound toks n).
    simpl. sound_tac.
Qed.

End TranspilerSound.

(** ** Running a method on a given state *)

Lemma bind_ok {St A B} (m : M St A) (k : A -> M St B) s a s' :
  m s = Ok (a, s') -> bind m k s = k a s'.
Proof. unfold bind. now intros ->. Qed.

Lemma bind_timeout {St A B} (m : M St A) (k : A -> M St B) s :
  m s = Timeout -> bind m k s = Timeout.
Proof. unfold bind. now intros ->. Qed.

Lemma bind_raise {St A B} (m : M St A) (k : A -> M St B) s e :
  m s = Raise e -> bind m k s = Raise e.
Proof. unfold bind. now intros ->. Qed.

Lemma bind_inv {St A B} (m : M St A) (k : A -> M St B) s r :
  bind m k s = Ok r -> exists a s', m s = Ok (a, s') /\ k a s' = Ok r.
Proof.
  unfold bind. destruct (m s) as [[a s'] | |]; try discriminate. eauto.
Qed.

Module Exec.
Import Transpiler.

(** The steps that never call a method with fuel. *)
Ltac is_prim m :=
  lazymatch m with
  | current => idtac
  | cur_is _ => idtac
  | advance => idtac
  | expect _ _ => idtac
  | write _ => idtac
  | append _ => idtac
  | indent_add _ => idtac
  | gets _ => idtac
  | ret _ => idtac
  | get_type _ => idtac
  | set_output _ => idtac
  | bind _ _ => idtac
  end.

Ltac exec_bind m k s :=
  let r := eval vm_compute in (m s) in
  lazymatch r with
  | Ok (?a, ?s') =>
      rewrite (@bind_ok _ _ _ m k s a s') by (vm_compute; reflexivity)
  | Raise ?e =>
      rewrite (@bind_raise _ _ _ m k s e) by (vm_compute; reflexivity)
  end; cbv beta.

Ltac exec_if b :=
  let r := eval vm_compute in b in
  replace b with r by (vm_compute; reflexivity); cbv iota.

(** One step of a method on a state whose tokens are known. *)
Ltac exec_step :=
  lazymatch goal with
  | |- bind (if ?b then _ else _) _ _ = _ => exec_if b
  | |- bind ?m ?k ?s = _ => is_prim m; exec_bind m k s
  | |- (if ?b then _ else _) ?s = _ => exec_if b
  | |- (match Some _ with _ => _ end) _ = _ => cbv iota beta
  | |- (let _ := _ in _) _ = _ => cbv zeta
  end.

(** A call whose result does not depend on the fuel that is left. *)
Ltac exec_call :=
  lazymatch goal with
  | |- bind ?m ?k ?s = _ => exec_bind m k s
  end.

Ltac exec := repeat exec_step.

End Exec.

(** ** Fuel does not change a result *)

Lemma compile_lakbay_fuel n m src r :
  n <= m -> compile_lakbay n src = Some r -> compile_lakbay m src = Some r.
Proof.
  intros H. unfold compile_lakbay.
  pose proof (LexerFuel.tokenize_fuel n m H
                (Lexer.init (list_ascii_of_string src))) as HL.
  destruct (Lexer.tokenize n _) as [[toks ls] | e |] eqn:E1.
  - destruct HL as [HL | HL]; [discriminate |]. rewrite HL.
    pose proof (TranspilerFuel.transpile_fuel n m H (Transpiler.init toks))
      as HT.
    destruct (Transpiler.transpile n _) as [[cpp ts] | e |] eqn:E2.
    + destruct HT as [HT | HT]; [discriminate |]. now rewrite HT.
    + destruct HT as [HT | HT]; [discriminate |]. now rewrite HT.
    + discriminate.
  - destruct HL as [HL | HL]; [discriminate |]. now rewrite HL.
  - discriminate.
Qed.

(** ** Calls in one interpreter *)

Module Calls.
Import ProcessSpec.

Lemma nth_error_new (h : Process.store) o :
  nth_error (h ++ [o])%list (length h) = Some o.
Proof.
  rewrite nth_error_app2 by lia. now rewrite Nat.sub_diag.
Qed.

Lemma put_new (h : Process.store) o o' :
  Process.put (length h) o' (h ++ [o])%list = (h ++ [o'])%list.
Proof. induction h as [| x h IH]; simpl; [| rewrite IH]; reflexivity. Qed.

(** A method called on the instance just created finds it, and changes
    nothing else in the store. *)
Lemma call_lexer_new {A} (m : M Lexer.t A) (h : Process.store) self :
  exists o,
    Process.call_lexer (length h) m (h ++ [Process.LexerObject self])%list
    = Some (match m self with
            | Ok (a, _) => Ok a
            | Raise e => Raise e
            | Timeout => Timeout
            end, (h ++ [o])%list).
Proof.
  unfold Process.call_lexer. rewrite nth_error_new.
  destruct (m self) as [[a self'] | e |]; rewrite ?put_new; eauto.
Qed.

Lemma call_transpiler_new {A} (m : M Transpiler.t A) (h : Process.store)
    self :
  exists o,
    Process.call_transpiler (length h) m
      (h ++ [Process.TranspilerObject self])%list
    = Some (match m self with
            | Ok (a, _) => Ok a
            | Raise e => Raise e
            | Timeout => Timeout
            end, (h ++ [o])%list).
Proof.
  unfold Process.call_transpiler. rewrite nth_error_new.
  destruct (m self) as [[a self'] | e |]; rewrite ?put_new; eauto.
Qed.

(** In every store, the call returns what the function of the source text
    returns, and it adds its instances to the store without touching the
    others. *)
Lemma compile_lakbay_in_store fuel src (h : Process.store) :
  exists l,
    Process.compile_lakbay fuel src h
    = Some (returned (compile_lakbay fuel src), (h ++ l)%list).
Proof.
  unfold Process.compile_lakbay, compile_lakbay, Process.new.
  destruct (call_lexer_new (Lexer.tokenize fuel) h
              (Lexer.init (list_ascii_of_string src))) as [o1 E1].
  rewrite E1.
  destruct (Lexer.tokenize fuel _) as [[tokens ls] | e |].
  - destruct (call_transpiler_new (Transpiler.transpile fuel)
                (h ++ [o1])%list (Transpiler.init tokens)) as [o2 E2].
    rewrite E2.
    destruct (Transpiler.transpile fuel _) as [[cpp ts] | e |];
      exists [o1; o2]; now rewrite <- app_assoc.
  - now exists [o1].
  - now exists [o1].
Qed.

Lemma compile_lakbay_returns fuel src (h : Process.store) r h' :
  Process.compile_lakbay fuel src h = Some (Ok r, h') ->
  compile_lakbay fuel src = Some r /\ kept h h'.
Proof.
  intros E. destruct (compile_lakbay_in_store fuel src h) as [l E'].
  rewrite E' in E. injection E as E <-.
  split; [| now exists l].
  destruct (compile_lakbay fuel src); [| discriminate].
  now injection E as ->.
Qed.

Lemma kept_trans (h1 h2 h3 : Process.store) :
  kept h1 h2 -> kept h2 h3 -> kept h1 h3.
Proof.
  intros [l1 ->] [l2 ->]. exists (l1 ++ l2)%list. now rewrite app_assoc.
Qed.

Lemma session_results fuel : forall sources h results h',
  session fuel sources h = Some (results, h') ->
  Forall2 (fun src r => compile_lakbay fuel src = Some r) sources results
  /\ kept h h'.
Proof.
  induction sources as [| src rest IH]; intros h results h' E; simpl in E.
  - injection E as <- <-. split; [constructor | exists []].
    now rewrite app_nil_r.
  - destruct (Process.compile_lakbay fuel src h) as [[[r | e |] h1] |] eqn:C;
      try discriminate.
    destruct (session fuel rest h1) as [[rs h2] |] eqn:S; [| discriminate].
    injection E as <- <-.
    destruct (compile_lakbay_returns _ _ _ _ _ C) as [R K1].
    destruct (IH _ _ _ S) as [F K2].
    split; [now constructor | exact (kept_trans _ _ _ K1 K2)].
Qed.

(** The other way round: where every call alone returns, the run returns,
    in whatever store it starts. *)
Lemma session_returns fuel : forall sources results (h : Process.store),
  Forall2 (fun src r => compile_lakbay fuel src = Some r) sources results ->
  exists h', session fuel sources h = Some (results, h').
Proof.
  intros sources results h F. revert h.
  induction F as [| src r l l' R F IH]; intros h; simpl.
  - now exists h.
  - destruct (compile_lakbay_in_store fuel src h) as [n E].
    rewrite E, R. cbn [returned].
    destruct (IH (h ++ n)%list) as [h' ->]. now exists h'.
Qed.

Lemma Forall2_nth {A B} (P : A -> B -> Prop) : forall l l' i a,
  Forall2 P l l' -> nth_error l i = Some a ->
  exists b, nth_error l' i = Some b /\ P a b.
Proof.
  intros l l' i a F. revert i. induction F as [| x y l l' H F IH]; intros i E.
  - now destruct i.
  - destruct i as [| i]; simpl in E |- *.
    + injection E as <-. eauto.
    + now apply IH.
Qed.

End Calls.

(** C6. Calls of [compile_lakbay] share no state.  Run any number of calls
    one after the other in one interpreter, from any store of instances
    (whatever earlier calls have created and left behind).  Each call that
    returns gives the text that [compile_lakbay] gives for its source text
    alone, and the text that the same call gives in any other store and
    with any other fuel; two calls of the run on the same text return the
    same text; every instance that was in the store before the run is
    there unchanged after it; and the same run from any other store returns
    the same texts. *)
Theorem calls_share_no_state fuel sources h results h' :
  ProcessSpec.session fuel sources h = Some (results, h') ->
  Forall2 (fun src r =>
             compile_lakbay fuel src = Some r
             /\ forall f h0 r0 h0',
                  Process.compile_lakbay f src h0 = Some (Ok r0, h0') ->
                  r0 = r)
          sources results
  /\ (forall i j src,
        nth_error sources i = Some src -> nth_error sources j = Some src ->
        nth_error results i = nth_error results j)
  /\ ProcessSpec.kept h h'
  /\ (forall h0, exists h0',
        ProcessSpec.session fuel sources h0 = Some (results, h0')).
Proof.
  intros E. destruct (Calls.session_results _ _ _ _ _ E) as [F K].
  split; [| split; [| split; [exact K |]]];
    [| | intros h0; exact (Calls.session_returns _ _ _ h0 F)].
  - clear E K. induction F as [| src r l l' R F IH]; constructor; auto.
    split; [exact R |]. intros f h0 r0 h0' C.
    destruct (Calls.compile_lakbay_returns _ _ _ _ _ C) as [R0 _].
    pose proof (compile_lakbay_fuel fuel (Nat.max fuel f) src r
                  (Nat.le_max_l _ _) R) as X1.
    pose proof (compile_lakbay_fuel f (Nat.max fuel f) src r0
                  (Nat.le_max_r _ _) R0) as X2.
    congruence.
  - intros i j src Ei Ej.
    destruct (Calls.Forall2_nth _ _ _ _ _ F Ei) as (ri & -> & Ri).
    destruct (Calls.Forall2_nth _ _ _ _ _ F Ej) as (rj & -> & Rj).
    congruence.
Qed.

Lemma calls_share_no_state_witness :
  exists results h',
    ProcessSpec.session 40
      ["class A { int x; }"; "class A"; "class A { int x; }"]
      [Process.Abandoned; Process.TranspilerObject (Transpiler.init [])]
    = Some (results, h')
    /\ nth_error results 0 = nth_error results 2.
Proof.
  eexists. eexists. split; [vm_compute; reflexivity |].
  refine (proj1 (proj2 (calls_share_no_state 40
                          ["class A { int x; }"; "class A";
                           "class A { int x; }"]
                          [Process.Abandoned;
                           Process.TranspilerObject (Transpiler.init [])]
                          _ _ _))
            0 2 "class A { int x; }" eq_refl eq_refl).
  vm_compute. reflexivity.
Defined.

(** ** The shape of a result *)

Module Shape.
Import Transpiler TranspilerSpec TranspilerSound.

Lemma transpile_shape toks n :
  match transpile n (init toks) with
  | Ok (text, _) => exists body, text = program body
  | Raise e => located toks e
  | Timeout => True
  end.
Proof.
  unfold transpile, bind at 1. unfold set_output, modify.
  set (s0 := mk _ _ _ _).
  pose proof (transpile_loop_sound toks n s0 eq_refl) as H.
  unfold bind at 1.
  destruct (transpile_loop n s0) as [[[] s1] | e |]; auto.
  destruct H as (_ & _ & l & Hl).
  unfold bind, append, modify, gets, ret; simpl.
  exists l. rewrite Hl. simpl. unfold program, main_stub.
  now rewrite <- !app_assoc.
Qed.

Lemma program_not_error body msg : program body <> "ERROR: " ++ msg.
Proof.
  unfold program, preamble. simpl.
  destruct (_ ++ main_stub)%list; simpl; discriminate.
Qed.

Lemma str_nat_digit n :
  exists c rest, str_nat n = String c rest /\ c <> "?"%char.
Proof.
  unfold str_nat.
  assert (H : Nat.to_uint n <> Decimal.Nil).
  { rewrite <- (DecimalNat.Unsigned.of_to n) at 1.
    rewrite DecimalNat.Unsigned.to_of. apply DecimalFacts.unorm_nonnil. }
  destruct (Nat.to_uint n); try congruence; simpl;
    eexists; eexists; (split; [reflexivity | discriminate]).
Qed.

End Shape.

(** C2, as the code has it.  When the translation of the tokens of a source
    text raises [e], [compile_lakbay] returns the text [ERROR: ] followed by
    [str(e)].  That text is a string like a success value and differs from
    every success value by its content only: a success value starts with the
    preamble.  When [e] is one of the transpiler's own parse errors its
    message starts with [Line l: ], where [l] is the line of a token of the
    input or a question mark at the end of the input. *)
Theorem compile_lakbay_error_text fuel src toks ls e :
  Lexer.tokenize fuel (Lexer.init (list_ascii_of_string src)) = Ok (toks, ls) ->
  Transpiler.transpile fuel (Transpiler.init toks) = Raise e ->
  compile_lakbay fuel src = Some ("ERROR: " ++ str_exn e)
  /\ (forall fuel' toks' text ts,
        Transpiler.transpile fuel' (Transpiler.init toks') = Ok (text, ts) ->
        text <> "ERROR: " ++ str_exn e)
  /\ (forall msg,
        e = Exception msg ->
        exists l rest,
          TranspilerSpec.line_tag toks l
          /\ msg = "Line " ++ l ++ ": " ++ rest).
Proof.
  intros HL HT. split; [| split].
  - unfold compile_lakbay. now rewrite HL, HT.
  - intros fuel' toks' text ts H.
    pose proof (Shape.transpile_shape toks' fuel') as S.
    rewrite H in S. destruct S as [body ->].
    apply Shape.program_not_error.
  - intros msg ->.
    pose proof (Shape.transpile_shape toks fuel) as S.
    rewrite HT in S. exact S.
Qed.

Lemma compile_lakbay_error_text_witness :
  compile_lakbay 40 "class A { int x }"
  = Some ("ERROR: " ++ "Line 1: Expected SEMI, got RBRACE").
Proof.
  refine (proj1 (compile_lakbay_error_text 40 "class A { int x }"
                   _ _ (Exception "Line 1: Expected SEMI, got RBRACE") _ _)).
  - vm_compute. reflexivity.
  - vm_compute. reflexivity.
Defined.

(** C2, as stated, fails: the error of a class that ends too early is a
    plain text, and it carries a question mark where a line number could
    be. *)
Lemma error_is_text_without_line :
  compile_lakbay 20 "class A" = Some "ERROR: Line ?: Expected LBRACE, got EOF"
  /\ ~ (exists n rest,
          compile_lakbay 20 "class A"
          = Some ("ERROR: Line " ++ str_nat n ++ ": " ++ rest)).
Proof.
  split; [vm_compute; reflexivity |].
  intros (n & rest & H).
  replace (compile_lakbay 20 "class A")
    with (Some "ERROR: Line ?: Expected LBRACE, got EOF") in H
    by (vm_compute; reflexivity).
  destruct (Shape.str_nat_digit n) as (c & r & E & N).
  rewrite E in H. simpl in H. injection H as H. congruence.
Qed.

(** ** A program without classes *)

Module NoClass.
Import Transpiler TranspilerSpec.

Lemma transpile_loop_skips n :
  forall s,
    (forall tok, In tok (tokens s) -> is_keyword "class" tok = false) ->
    length (tokens s) - pos s < n ->
    transpile_loop n s =
      Ok (tt, mk (tokens s) (Nat.max (pos s) (length (tokens s)))
                 (output s) (indent s)).
Proof.
  induction n as [| n IH]; intros s Hno Hn; [lia |].
  simpl. unfold bind at 1. unfold current, gets.
  destruct (nth_error (tokens s) (pos s)) as [tok |] eqn:E.
  - assert (Hlt : pos s < length (tokens s))
      by (apply nth_error_Some; congruence).
    rewrite (Hno tok (nth_error_In _ _ E)).
    unfold bind, advance, modify. rewrite IH; simpl; auto; [| lia].
    do 3 f_equal. lia.
  - apply nth_error_None in E. unfold ret. destruct s; simpl in *.
    do 3 f_equal. lia.
Qed.

End NoClass.

(** C10. On a token sequence with no [class] keyword, the empty one
    included, translation succeeds once the fuel exceeds the number of
    tokens: it returns the preamble followed by the entry point and nothing
    else, with the cursor at the end of the tokens and no other line in the
    buffer.  At the top level a token that is not the [class] keyword is
    skipped by one step of the loop, which leaves the buffer as it is. *)
Theorem transpile_without_class :
  (forall toks fuel,
     (forall tok, In tok toks -> Transpiler.is_keyword "class" tok = false) ->
     length toks < fuel ->
     Transpiler.transpile fuel (Transpiler.init toks) =
       Ok (program [],
           Transpiler.mk toks (length toks)
             (Transpiler.preamble ++ TranspilerSpec.main_stub) 0))
  /\ (forall n s tok,
        nth_error (Transpiler.tokens s) (Transpiler.pos s) = Some tok ->
        Transpiler.is_keyword "class" tok = false ->
        Transpiler.transpile_loop (S n) s
        = Transpiler.transpile_loop n
            (Transpiler.mk (Transpiler.tokens s) (Transpiler.pos s + 1)
               (Transpiler.output s) (Transpiler.indent s))).
Proof.
  split.
  - intros toks fuel Hno Hf. unfold Transpiler.transpile.
    unfold bind at 1.
    unfold Transpiler.set_output, modify, Transpiler.init.
    unfold bind at 1.
    rewrite NoClass.transpile_loop_skips by (simpl; auto; lia).
    reflexivity.
  - intros n s tok E K. simpl. unfold bind at 1.
    unfold Transpiler.current, gets. rewrite E, K. reflexivity.
Qed.

Lemma transpile_without_class_witness :
  Transpiler.transpile 3
    (Transpiler.init [Token.mk "IDENTIFIER" "x" 1; Token.mk "SEMI" ";" 1])
  = Ok (program [],
        Transpiler.mk [Token.mk "IDENTIFIER" "x" 1; Token.mk "SEMI" ";" 1] 2
          (Transpiler.preamble ++ TranspilerSpec.main_stub) 0).
Proof.
  apply (proj1 transpile_without_class
           [Token.mk "IDENTIFIER" "x" 1; Token.mk "SEMI" ";" 1] 3).
  - intros tok [<- | [<- | []]]; reflexivity.
  - simpl. lia.
Defined.

(** ** Precedence *)

(** C7. The expression [1 + 2 * 3] is emitted as [(1 + (2 * 3))]: the
    product binds tighter than the sum and every binary operation gets its
    own parentheses.  The same holds for any three operands, and for the
    expression inside a whole program. *)
Theorem precedence_emission :
  (forall a b c la lp lb lm lc,
     let toks := [ Token.mk "NUMBER" a la; Token.mk "PLUS" "+" lp;
                   Token.mk "NUMBER" b lb; Token.mk "MULT" "*" lm;
                   Token.mk "NUMBER" c lc ] in
     Transpiler.transpile_expression 20 (Transpiler.init toks)
     = Ok ("(" ++ a ++ " + " ++ ("(" ++ b ++ " * " ++ c ++ ")") ++ ")",
           Transpiler.mk toks 5 [] 0))
  /\ tokens_of 20 "1 + 2 * 3"
     = Some [ Token.mk "NUMBER" "1" 1; Token.mk "PLUS" "+" 1;
              Token.mk "NUMBER" "2" 1; Token.mk "MULT" "*" 1;
              Token.mk "NUMBER" "3" 1 ]
  /\ (let toks := [ Token.mk "NUMBER" "1" 1; Token.mk "PLUS" "+" 1;
                    Token.mk "NUMBER" "2" 1; Token.mk "MULT" "*" 1;
                    Token.mk "NUMBER" "3" 1 ] in
      Transpiler.transpile_expression 20 (Transpiler.init toks)
      = Ok ("(1 + (2 * 3))", Transpiler.mk toks 5 [] 0))
  /\ compile_lakbay 40 "class A { int x = 1 + 2 * 3; }"
     = Some (program [ nl ++ "class A {"; "public:";
                       "    int x = (1 + (2 * 3));"; "};" ]).
Proof.
  split; [| split; [| split]].
  - intros. reflexivity.
  - vm_compute. reflexivity.
  - vm_compute. reflexivity.
  - vm_compute. reflexivity.
Qed.

(** ** String literals *)

(** C3 does not hold on the code.  The lexer decodes the escape
    backslash-n of a string literal to the newline character, and
    [transpile_primary] emits the decoded value between two double quotes
    as it is: the newline character itself ends up inside the emitted
    literal. *)
Theorem string_literal_emitted_raw :
  (forall n s v l,
     nth_error (Transpiler.tokens s) (Transpiler.pos s)
     = Some (Token.mk "STRING" v l) ->
     Transpiler.transpile_primary (S n) s
     = Ok (dq ++ v ++ dq,
           Transpiler.mk (Transpiler.tokens s) (Transpiler.pos s + 1)
             (Transpiler.output s) (Transpiler.indent s)))
  /\ tokens_of 40 escape_src
     = Some [ Token.mk "KEYWORD" "class" 1; Token.mk "IDENTIFIER" "A" 1;
              Token.mk "LBRACE" "{" 1; Token.mk "KEYWORD" "func" 1;
              Token.mk "IDENTIFIER" "f" 1; Token.mk "LPAREN" "(" 1;
              Token.mk "RPAREN" ")" 1; Token.mk "LBRACE" "{" 1;
              Token.mk "KEYWORD" "print" 1; Token.mk "LPAREN" "(" 1;
              Token.mk "STRING" ("a" ++ nl ++ "b") 1;
              Token.mk "RPAREN" ")" 1; Token.mk "SEMI" ";" 1;
              Token.mk "RBRACE" "}" 1; Token.mk "RBRACE" "}" 1 ]
  /\ compile_lakbay 40 escape_src
     = Some (program [ nl ++ "class A {"; "public:"; "    void f() {";
                       "        cout << " ++ dq ++ "a" ++ nl ++ "b" ++ dq
                       ++ " << endl;";
                       "    }"; "};" ]).
Proof.
  split; [| split].
  - intros n s v l E. simpl.
    unfold bind at 1. unfold Transpiler.current, gets. rewrite E.
    reflexivity.
  - vm_compute. reflexivity.
  - vm_compute. reflexivity.
Qed.

(** ** A statement that starts with an unhandled keyword *)

Module Stuck.
Import Transpiler Exec.

Lemma statement_no_progress n s tok :
  nth_error (tokens s) (pos s) = Some tok ->
  unhandled_keyword tok = true ->
  transpile_statement (S n) s = Ok (tt, s).
Proof.
  intros E U. simpl. unfold bind, current, gets. rewrite E.
  unfold unhandled_keyword in U. apply andb_prop in U. destruct U as [K V].
  rewrite K. simpl in V.
  repeat match type of V with
         | context [(?a =? ?b)%string] =>
             destruct (a =? b)%string; simpl in V; try discriminate
         end.
  reflexivity.
Qed.

(** The loop of [transpile_block] on such a state runs without end: the
    statement returns without moving the cursor and the loop condition
    still holds. *)
Lemma block_never_returns n : forall s tok,
  nth_error (tokens s) (pos s) = Some tok ->
  unhandled_keyword tok = true ->
  transpile_block n s = Timeout.
Proof.
  induction n as [| n IH]; intros s tok E U; [reflexivity |].
  simpl. unfold bind at 1. unfold cur_is, gets. rewrite E.
  assert (K : (Token.type tok =? "KEYWORD") = true).
  { unfold unhandled_keyword in U. now apply andb_prop in U. }
  apply String.eqb_eq in K. rewrite K. simpl.
  unfold bind. destruct n as [| n]; [reflexivity |].
  rewrite (statement_no_progress n s tok E U).
  now apply (IH s tok).
Qed.

Lemma method_diverges n out ind :
  transpile_method n "A" (mk this_statement_toks 3 out ind) = Timeout.
Proof.
  unfold transpile_method. exec.
  destruct n as [| n]; [reflexivity |].
  exec_call. exec.
  apply bind_timeout.
  eapply block_never_returns; [vm_compute; reflexivity | reflexivity].
Qed.

Lemma body_diverges n out ind :
  class_body_loop n "A" (mk this_statement_toks 3 out ind) = Timeout.
Proof.
  destruct n as [| n]; [reflexivity |].
  cbn [class_body_loop]. exec.
  apply bind_timeout, method_diverges.
Qed.

Lemma class_diverges n out ind :
  transpile_class n (mk this_statement_toks 0 out ind) = Timeout.
Proof.
  unfold transpile_class. exec.
  apply bind_timeout, body_diverges.
Qed.

Lemma loop_diverges n out ind :
  transpile_loop n (mk this_statement_toks 0 out ind) = Timeout.
Proof.
  destruct n as [| n]; [reflexivity |].
  cbn [transpile_loop]. exec.
  apply bind_timeout, class_diverges.
Qed.

Lemma transpile_diverges n :
  transpile n (init this_statement_toks) = Timeout.
Proof.
  unfold transpile. exec_call.
  apply bind_timeout, loop_diverges.
Qed.

End Stuck.

(** C1 does not hold on the code.  When a statement starts with a keyword
    that [transpile_statement] has no branch for ([this], [true], [new] and
    the like), the statement returns without moving the cursor, and the loop
    of [transpile_block] never returns, whatever the fuel.  So on the source
    [class A { func f() { this.x = 1; } }] the call of [compile_lakbay]
    never returns. *)
Theorem statement_keyword_never_returns :
  (forall n s tok,
     nth_error (Transpiler.tokens s) (Transpiler.pos s) = Some tok ->
     unhandled_keyword tok = true ->
     Transpiler.transpile_statement (S n) s = Ok (tt, s)
     /\ Transpiler.transpile_block n s = Timeout)
  /\ (forall fuel, compile_lakbay fuel this_statement_src = None).
Proof.
  split.
  { intros n s tok E U. split.
    - now apply (Stuck.statement_no_progress n s tok).
    - now apply (Stuck.block_never_returns n s tok). }
  intros fuel. unfold compile_lakbay.
  assert (H : Lexer.tokenize 100
                (Lexer.init (list_ascii_of_string this_statement_src))
              = Ok (this_statement_toks,
                    Lexer.mk (list_ascii_of_string this_statement_src)
                      36 1 this_statement_toks))
    by (vm_compute; reflexivity).
  destruct (Nat.le_ge_cases fuel 100) as [L | L].
  - destruct (LexerFuel.tokenize_fuel fuel 100 L
                (Lexer.init (list_ascii_of_string this_statement_src)))
      as [E | E].
    + now rewrite E.
    + rewrite <- E, H. now rewrite Stuck.transpile_diverges.
  - rewrite (refines_ok _ _ _ _ (LexerFuel.tokenize_fuel 100 fuel L) H)
      by discriminate.
    now rewrite Stuck.transpile_diverges.
Qed.

(** ** The lexer returns on every input *)

Module LexerTotal.
Import Lexer LexerSpec.

Lemma cur_in_bounds s :
  pos s < length (code s) -> exists c, nth_error (code s) (pos s) = Some c.
Proof.
  intros H. destruct (nth_error (code s) (pos s)) eqn:E; eauto.
  apply nth_error_None in E. lia.
Qed.

Ltac lexer_unfold :=
  unfold bind, in_bounds, before_last, has_next, peek2, cur, step, newline,
    emit, gets, modify, ret in *; simpl in *.

Lemma comment_loop_total n : forall s,
  length (code s) - pos s < n ->
  exists p, comment_loop n s = Ok (tt, set_pos s p)
            /\ pos s <= p /\ p <= Nat.max (pos s) (length (code s)).
Proof.
  induction n as [| n IH]; intros s Hn; [lia |].
  simpl. lexer_unfold.
  destruct (pos s <? length (code s))%nat eqn:B.
  - apply Nat.ltb_lt in B. destruct (cur_in_bounds s B) as [c ->].
    destruct (negb (c =? LF)%char).
    + destruct (IH (set_pos s (pos s + 1))) as (p & E & L1 & L2); [simpl; lia |].
      simpl in *. exists p. split; [exact E | lia].
    + exists (pos s). destruct s; simpl. split; [reflexivity | lia].
  - exists (pos s). destruct s; simpl. split; [reflexivity | lia].
Qed.

Lemma number_loop_total n : forall s w,
  length (code s) - pos s < n ->
  exists p w', number_loop n w s = Ok (w', set_pos s p)
            /\ pos s <= p /\ p <= Nat.max (pos s) (length (code s)).
Proof.
  induction n as [| n IH]; intros s w Hn; [lia |].
  simpl. lexer_unfold.
  destruct (pos s <? length (code s))%nat eqn:B.
  - apply Nat.ltb_lt in B. destruct (cur_in_bounds s B) as [c ->].
    destruct (isdigit c || (c =? ".")%char).
    + destruct (IH (set_pos s (pos s + 1)) (w ++ chr c)) as (p & w' & E & L1 & L2); [simpl; lia |].
      simpl in *. exists p, w'. split; [exact E | lia].
    + exists (pos s), w. destruct s; simpl. split; [reflexivity | lia].
  - exists (pos s), w. destruct s; simpl. split; [reflexivity | lia].
Qed.

Lemma ident_loop_total n : forall s w,
  length (code s) - pos s < n ->
  exists p w', ident_loop n w s = Ok (w', set_pos s p)
            /\ pos s <= p /\ p <= Nat.max (pos s) (length (code s)).
Proof.
  induction n as [| n IH]; intros s w Hn; [lia |].
  simpl. lexer_unfold.
  destruct (pos s <? length (code s))%nat eqn:B.
  - apply Nat.ltb_lt in B. destruct (cur_in_bounds s B) as [c ->].
    destruct (isalnum c || (c =? "_")%char).
    + destruct (IH (set_pos s (pos s + 1)) (w ++ chr c)) as (p & w' & E & L1 & L2); [simpl; lia |].
      simpl in *. exists p, w'. split; [exact E | lia].
    + exists (pos s), w. destruct s; simpl. split; [reflexivity | lia].
  - exists (pos s), w. destruct s; simpl. split; [reflexivity | lia].
Qed.

Lemma string_loop_total n : forall s w,
  length (code s) - pos s < n ->
  exists p w', string_loop n w s = Ok (w', set_pos s p)
            /\ pos s <= p /\ p <= Nat.max (pos s) (length (code s)).
Proof.
  induction n as [| n IH]; intros s w Hn; [lia |].
  simpl. lexer_unfold.
  destruct (pos s <? length (code s))%nat eqn:B.
  - apply Nat.ltb_lt in B. destruct (cur_in_bounds s B) as [c Hc]. rewrite Hc.
    destruct (negb (c =? DQUOTE)%char).
    + destruct ((c =? BACKSLASH)%char && (pos s + 1 <? length (code s))%nat) eqn:Esc.
      * apply andb_prop in Esc. destruct Esc as [_ Esc]. apply Nat.ltb_lt in Esc.
        destruct (cur_in_bounds (set_pos s (pos s + 1)) Esc) as [e He].
        simpl in He. rewrite He.
        destruct (IH (set_pos s (pos s + 1 + 1)) (w ++ chr (unescape e))) as (p & w' & E & L1 & L2); [simpl; lia |].
        simpl in *. exists p, w'. split; [exact E | lia].
      * destruct (IH (set_pos s (pos s + 1)) (w ++ chr c)) as (p & w' & E & L1 & L2); [simpl; lia |].
        simpl in *. exists p, w'. split; [exact E | lia].
    + exists (pos s), w. destruct s; simpl. split; [reflexivity | lia].
  - exists (pos s), w. destruct s; simpl. split; [reflexivity | lia].
Qed.

Lemma skipn_nth_error {A} (l : list A) p c :
  nth_error l p = Some c -> skipn p l = c :: skipn (S p) l.
Proof.
  revert l. induction p as [| p IH]; intros [| x l] H; simpl in *;
    try discriminate.
  - now injection H as ->.
  - now apply IH.
Qed.

Lemma slice_head code p c :
  nth_error code p = Some c ->
  exists rest, slice code p (p + 2) = String c rest.
Proof.
  intros H. unfold slice. replace (p + 2 - p) with 2 by lia.
  rewrite (skipn_nth_error _ _ _ H). simpl. eauto.
Qed.

Lemma isalpha_isalnum c : isalpha c || (c =? "_")%char = true ->
  isalnum c || (c =? "_")%char = true.
Proof.
  unfold isalnum. intros H. destruct (isalpha c); simpl in *; auto.
  rewrite H. apply orb_true_r.
Qed.

Lemma tokenize_body_total n s :
  pos s < length (code s) ->
  length (code s) - pos s < n ->
  exists s', tokenize_body n s = Ok (tt, s')
    /\ code s' = code s
    /\ pos s < pos s' /\ pos s' <= length (code s) + 1
    /\ line s <= line s'
    /\ exists new, tokens s' = (tokens s ++ new)%list
                   /\ Forall (fun t => Token.line t = line s) new.
Proof.
  intros B Hn. unfold tokenize_body.
  destruct (cur_in_bounds s B) as [c Hc].
  destruct n as [| n]; [lia |].
  unfold bind at 1. unfold cur at 1. rewrite Hc.
  destruct (isspace c).
  { lexer_unfold. destruct (c =? LF)%char; simpl; eexists; (split; [reflexivity |]); simpl;
      repeat split; try lia; exists []; rewrite app_nil_r; auto. }
  unfold bind at 1, before_last at 1, gets at 1.
  unfold bind at 1, peek2 at 1, gets at 1.
  destruct ((pos s <? length (code s) - 1)%nat && (slice (code s) (pos s) (pos s + 2) =? "//")) eqn:Cm.
  { apply andb_prop in Cm. destruct Cm as [_ Cm]. apply String.eqb_eq in Cm.
    destruct (slice_head _ _ _ Hc) as [rest Hs]. rewrite Hs in Cm. injection Cm as -> _.
    simpl. lexer_unfold. rewrite (proj2 (Nat.ltb_lt _ _) B), Hc. simpl.
    destruct (comment_loop_total n (set_pos s (pos s + 1))) as (p & E & L1 & L2); [simpl; lia |].
    simpl in *. unfold set_pos in E; simpl in E. rewrite E.
    eexists; split; [reflexivity |]. simpl. repeat split; try lia.
    exists []; rewrite app_nil_r; auto. }
  destruct (isdigit c) eqn:Dg.
  { simpl. lexer_unfold. rewrite (proj2 (Nat.ltb_lt _ _) B), Hc, Dg. simpl.
    destruct (number_loop_total n (set_pos s (pos s + 1)) ("" ++ chr c)) as (p & w & E & L1 & L2); [simpl; lia |].
    simpl in *. unfold set_pos in E; simpl in E. rewrite E.
    eexists; split; [reflexivity |]. simpl. repeat split; try lia.
    eexists; split; [reflexivity |]. repeat constructor. }
  destruct (isalpha c || (c =? "_")%char) eqn:Al.
  { simpl. lexer_unfold. rewrite (proj2 (Nat.ltb_lt _ _) B), Hc, (isalpha_isalnum _ Al). simpl.
    destruct (ident_loop_total n (set_pos s (pos s + 1)) ("" ++ chr c)) as (p & w & E & L1 & L2); [simpl; lia |].
    simpl in *. unfold set_pos in E; simpl in E. rewrite E.
    eexists; split; [reflexivity |]. simpl. repeat split; try lia.
    eexists; split; [reflexivity |]. repeat constructor. }
  destruct (c =? DQUOTE)%char.
  { unfold bind at 1, step at 1, modify at 1. unfold bind at 1.
    destruct (string_loop_total (S n) (mk (code s) (pos s + 1) (line s) (tokens s)) "") as (p & w & E & L1 & L2); [simpl; lia |].
    simpl in L1, L2. cbn [set_pos code line tokens pos] in E. rewrite E.
    lexer_unfold. eexists; split; [reflexivity |]. simpl. repeat split; try lia.
    eexists; split; [reflexivity |]. repeat constructor. }
  destruct (lookup (slice (code s) (pos s) (pos s + 2)) operators) as [ty |].
  { lexer_unfold. eexists; split; [reflexivity |]. simpl. repeat split; try lia.
    eexists; split; [reflexivity |]. repeat constructor. }
  destruct (lookup (chr c) single_chars) as [ty |].
  { lexer_unfold. eexists; split; [reflexivity |]. simpl. repeat split; try lia.
    eexists; split; [reflexivity |]. repeat constructor. }
  lexer_unfold. eexists; split; [reflexivity |]. simpl. repeat split; try lia.
  exists []; rewrite app_nil_r; auto.
Qed.

Lemma line_ordered_app a new l :
  line_ordered a ->
  Forall (fun tok => Token.line tok <= l) a ->
  Forall (fun tok => Token.line tok = l) new ->
  line_ordered (a ++ new).
Proof.
  intros Ha Hle Hnew i j ti tj Hij Hi Hj.
  rewrite Forall_forall in Hle, Hnew.
  destruct (Nat.lt_ge_cases j (length a)) as [Lj | Lj].
  - rewrite nth_error_app1 in Hi, Hj by lia.
    exact (Ha i j ti tj Hij Hi Hj).
  - rewrite (nth_error_app2 _ _ Lj) in Hj.
    apply nth_error_In in Hj. rewrite (Hnew _ Hj).
    destruct (Nat.lt_ge_cases i (length a)) as [Li | Li].
    + rewrite nth_error_app1 in Hi by lia.
      apply nth_error_In in Hi. auto.
    + rewrite (nth_error_app2 _ _ Li) in Hi.
      apply nth_error_In in Hi. rewrite (Hnew _ Hi). lia.
Qed.

Lemma lines_ok_step s s' new :
  lines_ok s -> line s <= line s' ->
  tokens s' = (tokens s ++ new)%list ->
  Forall (fun tok => Token.line tok = line s) new ->
  lines_ok s'.
Proof.
  intros (Ho & Hb & H1) Hl Ht Hn. unfold lines_ok. rewrite Ht.
  split; [| split; [| lia]].
  - apply line_ordered_app with (l := line s); auto.
    eapply Forall_impl; [| exact Hb]. simpl. lia.
  - apply Forall_app. split.
    + eapply Forall_impl; [| exact Hb]. simpl. lia.
    + eapply Forall_impl; [| exact Hn]. simpl. lia.
Qed.

Lemma tokenize_loop_total n : forall s,
  pos s <= length (code s) + 1 ->
  length (code s) + 2 - pos s <= n ->
  lines_ok s ->
  exists s', tokenize_loop n s = Ok (tt, s')
    /\ code s' = code s /\ lines_ok s'.
Proof.
  induction n as [| n IH]; intros s Hp Hn Hi; [lia |].
  simpl. unfold bind at 1, in_bounds at 1, gets at 1.
  destruct (pos s <? length (code s))%nat eqn:B.
  - apply Nat.ltb_lt in B.
    destruct (tokenize_body_total n s B ltac:(lia))
      as (s1 & E & C1 & P1 & P2 & L1 & new & T1 & F1).
    unfold bind. rewrite E.
    destruct (IH s1) as (s' & E' & C' & I'); try (rewrite C1; lia).
    + eapply lines_ok_step; eauto.
    + exists s'. rewrite E'. repeat split; auto; try congruence; apply I'.
  - exists s. repeat split; auto; apply Hi.
Qed.

Lemma tokenize_returns code k :
  exists toks s',
    tokenize (length code + 2 + k) (init code) = Ok (toks, s')
    /\ line_ordered toks
    /\ Forall (fun tok => 1 <= Token.line tok) toks.
Proof.
  destruct (tokenize_loop_total (length code + 2 + k) (init code))
    as (s' & E & _ & Ho & Hb & _); simpl; try lia.
  { repeat split; auto. intros i j ti tj _ Hi. destruct i; discriminate. }
  exists (tokens s'), s'. unfold tokenize, bind. rewrite E. simpl.
  repeat split; auto.
  eapply Forall_impl; [| exact Hb]. simpl. lia.
Qed.

End LexerTotal.

(** C8. On every input text [tokenize] returns, as soon as the fuel exceeds
    the length of the text by two: it raises no exception, whatever the
    text (an unterminated string, a number with several dots and characters
    that no rule matches included), and the tokens it returns are in source
    order: their lines start at 1 and never decrease. *)
Theorem tokenize_total code k :
  exists toks s',
    Lexer.tokenize (length code + 2 + k) (Lexer.init code) = Ok (toks, s')
    /\ LexerSpec.line_ordered toks
    /\ Forall (fun tok => 1 <= Token.line tok) toks.
Proof. exact (LexerTotal.tokenize_returns code k). Qed.

(** ** A character that no rule matches *)

Module LexerInsert.
Import Lexer LexerSpec InsertSpec.

Lemma grows_ret A (a : A) : grows (ret a).
Proof. intros s. simpl. auto. Qed.
Lemma grows_timeout A : grows (@timeout t A).
Proof. intros s. exact I. Qed.
Lemma grows_gets A (f : t -> A) : grows (gets f).
Proof. intros s. simpl. auto. Qed.
Lemma grows_cur : grows cur.
Proof. intros s. unfold cur. destruct (nth_error _ _); simpl; auto. Qed.
Lemma grows_step k : grows (step k).
Proof. intros s. simpl. split; auto. lia. Qed.
Lemma grows_newline : grows newline.
Proof. intros s. simpl. auto. Qed.
Lemma grows_emit ty v : grows (emit ty v).
Proof. intros s. simpl. auto. Qed.
Lemma grows_bind A B (m : M t A) (k : A -> M t B) :
grows m -> (forall a, grows (k a)) -> grows (bind m k).
Proof.
intros Hm Hk s. unfold bind. specialize (Hm s).
destruct (m s) as [[a s1] | |]; auto.
specialize (Hk a s1). destruct (k a s1) as [[b s2] | |]; auto.
destruct Hm, Hk. split; [congruence | lia].
Qed.

Ltac grows_step :=
first
  [ apply grows_ret | apply grows_timeout | apply grows_cur
  | apply grows_step | apply grows_newline | apply grows_emit
  | apply grows_gets
  | match goal with
    | H : forall x, grows (?f ?n x) |- grows (?f ?n _) => apply H
    | H : grows ?a |- grows ?a => exact H
    end
  | apply grows_bind; [ | intros ? ]
  | match goal with
    | |- grows (if ?b then _ else _) => destruct b
    | |- grows (match ?x with _ => _ end) => destruct x
    end ].
Ltac grows_tac := repeat grows_step.

Lemma comment_loop_grows n : grows (comment_loop n).
Proof. induction n; simpl; grows_tac. Qed.
Lemma number_loop_grows n : forall w, grows (number_loop n w).
Proof. induction n; intros; simpl; grows_tac. Qed.
Lemma ident_loop_grows n : forall w, grows (ident_loop n w).
Proof. induction n; intros; simpl; grows_tac. Qed.
Lemma string_loop_grows n : forall w, grows (string_loop n w).
Proof. induction n; intros; simpl; grows_tac. Qed.
Lemma tokenize_body_grows n : grows (tokenize_body n).
Proof.
pose proof (comment_loop_grows n). pose proof (number_loop_grows n).
pose proof (ident_loop_grows n). pose proof (string_loop_grows n).
unfold tokenize_body, in_bounds, before_last, has_next, peek2. grows_tac.
Qed.
Lemma tokenize_loop_grows n : grows (tokenize_loop n).
Proof.
induction n; simpl; [apply grows_timeout |].
pose proof (tokenize_body_grows n). unfold in_bounds. grows_tac.
Qed.
Lemma turns_grows f k : grows (turns f k).
Proof.
induction k; simpl; [apply grows_ret |].
pose proof (tokenize_body_grows f). unfold in_bounds. grows_tac.
Qed.

Section Insert.
Variables (pre post : list ascii) (c : ascii).
Hypothesis Hc : unrecognized c = true.
Hypothesis Hj : joins pre c post = false.

Local Abbreviation shifted := (InsertSpec.shifted pre post c).
Local Abbreviation lockstep := (InsertSpec.lockstep pre post c).
Local Abbreviation aligned := (InsertSpec.aligned pre post c).

Lemma shifted_nth s1 s2 k :
  shifted s1 s2 ->
  nth_error (code s2) (pos s2 + k) = nth_error (code s1) (pos s1 + k).
Proof.
  intros (C1 & C2 & P & L & _). rewrite C1, C2, P.
  rewrite !nth_error_app2 by lia.
  replace (pos s1 + 1 + k - length pre) with (S (pos s1 + k - length pre))
    by lia.
  reflexivity.
Qed.

Lemma shifted_skipn s1 s2 :
  shifted s1 s2 -> skipn (pos s2) (code s2) = skipn (pos s1) (code s1).
Proof.
  intros (C1 & C2 & P & L & _). rewrite C1, C2, P.
  rewrite !skipn_app.
  rewrite (@skipn_all2 _ (pos s1 + 1) pre) by lia.
  rewrite (@skipn_all2 _ (pos s1) pre) by lia. simpl.
  replace (pos s1 + 1 - length pre) with (S (pos s1 - length pre)) by lia.
  reflexivity.
Qed.

Lemma shifted_length s1 s2 :
  shifted s1 s2 -> length (code s2) = length (code s1) + 1.
Proof.
  intros (C1 & C2 & _). rewrite C1, C2, !length_app. simpl. lia.
Qed.

Lemma lockstep_ret A (a : A) : lockstep (ret a) (ret a).
Proof. intros s1 s2 H. simpl. auto. Qed.

Lemma lockstep_timeout A : lockstep (@timeout t A) timeout.
Proof. intros s1 s2 H. exact I. Qed.

Lemma lockstep_bind A B (m1 m2 : M t A) (k1 k2 : A -> M t B) :
  lockstep m1 m2 -> (forall a, lockstep (k1 a) (k2 a)) ->
  lockstep (bind m1 k1) (bind m2 k2).
Proof.
  intros Hm Hk s1 s2 H. unfold bind. specialize (Hm s1 s2 H).
  destruct (m1 s1) as [[a1 s1'] | e1 |], (m2 s2) as [[a2 s2'] | e2 |];
    try contradiction; auto.
  destruct Hm as [<- Hm]. apply Hk, Hm.
Qed.

Lemma lockstep_in_bounds : lockstep in_bounds in_bounds.
Proof.
  intros s1 s2 H. simpl. split; auto.
  rewrite (shifted_length _ _ H). destruct H as (_ & _ & -> & _).
  destruct (Nat.ltb_spec (pos s1) (length (code s1)));
    destruct (Nat.ltb_spec (pos s1 + 1) (length (code s1) + 1)); auto; lia.
Qed.

Lemma lockstep_before_last : lockstep before_last before_last.
Proof.
  intros s1 s2 H. simpl. split; auto.
  rewrite (shifted_length _ _ H). destruct H as (_ & _ & -> & _).
  destruct (Nat.ltb_spec (pos s1) (length (code s1) - 1));
    destruct (Nat.ltb_spec (pos s1 + 1) (length (code s1) + 1 - 1));
    auto; lia.
Qed.

Lemma lockstep_has_next : lockstep has_next has_next.
Proof.
  intros s1 s2 H. simpl. split; auto.
  rewrite (shifted_length _ _ H). destruct H as (_ & _ & -> & _).
  destruct (Nat.ltb_spec (pos s1 + 1) (length (code s1)));
    destruct (Nat.ltb_spec (pos s1 + 1 + 1) (length (code s1) + 1));
    auto; lia.
Qed.

Lemma lockstep_peek2 : lockstep peek2 peek2.
Proof.
  intros s1 s2 H. simpl. split; auto. unfold slice.
  rewrite (shifted_skipn _ _ H).
  now replace (pos s2 + 2 - pos s2) with (pos s1 + 2 - pos s1) by lia.
Qed.

Lemma lockstep_cur : lockstep cur cur.
Proof.
  intros s1 s2 H. unfold cur.
  pose proof (shifted_nth _ _ 0 H) as E. rewrite !Nat.add_0_r in E. rewrite E.
  destruct (nth_error (code s1) (pos s1)); auto.
Qed.

Lemma lockstep_step k : lockstep (step k) (step k).
Proof.
  intros s1 s2 (C1 & C2 & P & L & Ln & T). simpl. split; auto.
  repeat split; simpl; auto; lia.
Qed.

Lemma lockstep_newline : lockstep newline newline.
Proof.
  intros s1 s2 (C1 & C2 & P & L & Ln & T). simpl. split; auto.
  repeat split; simpl; auto; lia.
Qed.

Lemma lockstep_emit ty v : lockstep (emit ty v) (emit ty v).
Proof.
  intros s1 s2 (C1 & C2 & P & L & Ln & T). simpl. split; auto.
  repeat split; simpl; auto; congruence.
Qed.

Lemma lockstep_tokens : lockstep (gets tokens) (gets tokens).
Proof.
  intros s1 s2 H. simpl. split; auto.
  destruct H as (_ & _ & _ & _ & _ & T). now rewrite T.
Qed.

Ltac lock_step :=
  first
    [ apply lockstep_ret | apply lockstep_timeout | apply lockstep_cur
    | apply lockstep_in_bounds | apply lockstep_before_last
    | apply lockstep_has_next | apply lockstep_peek2
    | apply lockstep_step | apply lockstep_newline | apply lockstep_emit
    | apply lockstep_tokens
    | match goal with
      | H : forall x, lockstep (?f ?n x) (?f ?n x) |- lockstep (?f ?n _) (?f ?n _) =>
          apply H
      | H : lockstep ?a ?b |- lockstep ?a ?b => exact H
      end
    | apply lockstep_bind; [ | intros ? ]
    | match goal with
      | |- lockstep (if ?b then _ else _) (if ?b then _ else _) => destruct b
      | |- lockstep (match ?x with _ => _ end) (match ?x with _ => _ end) =>
          destruct x
      end ].
Ltac lock_tac := repeat lock_step.

Lemma comment_loop_lockstep n : lockstep (comment_loop n) (comment_loop n).
Proof. induction n; simpl; lock_tac. Qed.
Lemma number_loop_lockstep n :
  forall w, lockstep (number_loop n w) (number_loop n w).
Proof. induction n; intros; simpl; lock_tac. Qed.
Lemma ident_loop_lockstep n :
  forall w, lockstep (ident_loop n w) (ident_loop n w).
Proof. induction n; intros; simpl; lock_tac. Qed.
Lemma string_loop_lockstep n :
  forall w, lockstep (string_loop n w) (string_loop n w).
Proof. induction n; intros; simpl; lock_tac. Qed.
Lemma tokenize_body_lockstep n :
  lockstep (tokenize_body n) (tokenize_body n).
Proof.
  pose proof (comment_loop_lockstep n). pose proof (number_loop_lockstep n).
  pose proof (ident_loop_lockstep n). pose proof (string_loop_lockstep n).
  unfold tokenize_body. lock_tac.
Qed.
Lemma tokenize_loop_lockstep n :
  lockstep (tokenize_loop n) (tokenize_loop n).
Proof.
  induction n; simpl; [apply lockstep_timeout |].
  pose proof (tokenize_body_lockstep n). lock_tac.
Qed.
Lemma tokenize_lockstep n : lockstep (tokenize n) (tokenize n).
Proof.
  pose proof (tokenize_loop_lockstep n). unfold tokenize. lock_tac.
Qed.

Lemma aligned_step s1 s2 k :
  aligned s1 s2 -> pos s1 + k <= length pre ->
  aligned (set_pos s1 (pos s1 + k)) (set_pos s2 (pos s2 + k)).
Proof.
  intros (C1 & C2 & P & L & Ln & T) H. repeat split; simpl; auto; lia.
Qed.

(** What the two runs read while the cursor is inside [pre]. *)
Lemma aligned_inside s1 s2 k :
  aligned s1 s2 -> pos s1 + k < length pre ->
  exists x, nth_error pre (pos s1 + k) = Some x
            /\ nth_error (code s1) (pos s1 + k) = Some x
            /\ nth_error (code s2) (pos s2 + k) = Some x.
Proof.
  intros (C1 & C2 & P & L & _) H.
  destruct (nth_error pre (pos s1 + k)) as [x |] eqn:E.
  - exists x. rewrite C1, C2, P, !nth_error_app1 by lia. auto.
  - apply nth_error_None in E. lia.
Qed.

(** What the second run reads at the inserted position. *)
Lemma aligned_at s1 s2 k :
  aligned s1 s2 -> pos s1 + k = length pre ->
  nth_error (code s2) (pos s2 + k) = Some c.
Proof.
  intros (C1 & C2 & P & L & _) H.
  rewrite C2, P, nth_error_app2 by lia.
  now replace (pos s1 + k - length pre) with 0 by lia.
Qed.

Lemma aligned_length s1 s2 :
  aligned s1 s2 ->
  length (code s1) = length pre + length post
  /\ length (code s2) = length pre + length post + 1.
Proof.
  intros (C1 & C2 & _). rewrite C1, C2, !length_app. simpl. lia.
Qed.

(** The inserted character stops every scanning loop but the comment
    loop, and starts no token. *)
Lemma c_not k : unrecognized k = false -> c <> k.
Proof. intros H E. subst k. congruence. Qed.

Lemma c_eqb k : unrecognized k = false -> (c =? k)%char = false.
Proof. intros H. apply Ascii.eqb_neq. now apply c_not. Qed.

Lemma c_facts :
  isspace c = false /\ isdigit c = false
  /\ isalpha c || (c =? "_")%char = false
  /\ (c =? DQUOTE)%char = false /\ lookup (chr c) single_chars = None.
Proof.
  unfold unrecognized in Hc.
  repeat (apply andb_prop in Hc; destruct Hc as [Hc ?]).
  repeat match goal with
         | H : negb _ = true |- _ => apply negb_true_iff in H
         end.
  repeat split; auto.
  destruct (lookup (chr c) single_chars); auto; discriminate.
Qed.

Lemma c_isspace : isspace c = false.
Proof. apply c_facts. Qed.

Lemma c_isdigit : isdigit c = false.
Proof. apply c_facts. Qed.

Lemma c_starts_no_ident : isalpha c || (c =? "_")%char = false.
Proof. apply c_facts. Qed.

Lemma c_single : lookup (chr c) single_chars = None.
Proof. apply c_facts. Qed.

Lemma c_stops_number : isdigit c || (c =? ".")%char = false.
Proof. rewrite c_isdigit, c_eqb; reflexivity. Qed.

(** What [joins] excludes, one neighbour at a time. *)
Lemma c_joins_facts :
  (isalnum c = true ->
   forall x, last_char pre = Some x ->
             isalnum x || (x =? "_")%char = false)
  /\ (forall x, last_char pre = Some x ->
                (c =? "&")%char || (c =? "|")%char = true ->
                (x =? c)%char = false)
  /\ (forall y rest, post = y :: rest ->
                     (c =? "&")%char || (c =? "|")%char = true ->
                     (y =? c)%char = false).
Proof.
  unfold joins in Hj. apply orb_false_elim in Hj. destruct Hj as [J1 J2].
  repeat split.
  - intros A x L. rewrite A, L in J1. exact J1.
  - intros x L P. rewrite P, L in J2. cbn [andb] in J2.
    now apply orb_false_elim in J2.
  - intros y rest E P. rewrite P, E in J2. cbn [andb] in J2.
    now apply orb_false_elim in J2.
Qed.

(** After a character of a word, the inserted character ends the word. *)
Lemma c_stops_ident x :
  last_char pre = Some x ->
  isalnum x || (x =? "_")%char = true ->
  isalnum c || (c =? "_")%char = false.
Proof.
  intros L W. rewrite (c_eqb "_") by reflexivity.
  destruct (isalnum c) eqn:A; [| reflexivity].
  rewrite (proj1 c_joins_facts A x L) in W. discriminate.
Qed.

(** The inserted character is the first half of no operator. *)
Lemma c_operators_first_of q :
  q = post ->
  lookup (String c match q with
                   | y :: _ => chr y
                   | [] => ""
                   end) operators = None.
Proof.
  intros E. destruct c_joins_facts as (_ & _ & J).
  destruct q as [| y rest].
  - simpl. rewrite !(c_eqb "="), (c_eqb "!"), (c_eqb "<"), (c_eqb ">"),
      (c_eqb "+"), (c_eqb "-") by reflexivity.
    now destruct (c =? "&")%char, (c =? "|")%char.
  - specialize (J y rest (eq_sym E)). simpl.
    rewrite !(c_eqb "="), (c_eqb "!"), (c_eqb "<"), (c_eqb ">"),
      (c_eqb "+"), (c_eqb "-") by reflexivity.
    destruct (c =? "&")%char eqn:Ea.
    + specialize (J eq_refl). apply Ascii.eqb_eq in Ea.
      rewrite Ea in J |- *. cbn [Ascii.eqb Bool.eqb]. rewrite J. reflexivity.
    + destruct (c =? "|")%char eqn:Eb; [| reflexivity].
      specialize (J eq_refl). apply Ascii.eqb_eq in Eb. rewrite Eb in J.
      rewrite J. reflexivity.
Qed.

Lemma c_operators_first :
  lookup (String c match post with
                   | y :: _ => chr y
                   | [] => ""
                   end) operators = None.
Proof. exact (c_operators_first_of post eq_refl). Qed.

(** Nor is it the second half of one that the last character of [pre]
    starts. *)
Lemma c_operators_second x :
  last_char pre = Some x -> lookup (String x (chr c)) operators = None.
Proof.
  intros L. destruct c_joins_facts as (_ & J & _). specialize (J x L).
  simpl.
  rewrite !(c_eqb "="), (c_eqb "+"), (c_eqb "-") by reflexivity.
  destruct (c =? "&")%char eqn:Ea.
  - specialize (J eq_refl). apply Ascii.eqb_eq in Ea.
    rewrite Ea in J |- *. cbn [Ascii.eqb Bool.eqb]. rewrite J.
    repeat match goal with
           | |- context [(x =? ?k)%char] => destruct (x =? k)%char
           end; reflexivity.
  - destruct (c =? "|")%char eqn:Eb.
    + specialize (J eq_refl). apply Ascii.eqb_eq in Eb. rewrite Eb in J.
      rewrite J.
      repeat match goal with
             | |- context [(x =? ?k)%char] => destruct (x =? k)%char
             end; reflexivity.
    + repeat match goal with
             | |- context [(x =? ?k)%char] => destruct (x =? k)%char
             end; reflexivity.
Qed.

Lemma last_char_at p x :
  p + 1 = length pre -> nth_error pre p = Some x -> last_char pre = Some x.
Proof.
  intros E N. unfold last_char. now replace (length pre - 1) with p by lia.
Qed.

Lemma c_no_comment_first rest : (String c rest =? "//") = false.
Proof. simpl. now rewrite c_eqb by reflexivity. Qed.

Lemma c_no_comment_second x : (String x (chr c) =? "//") = false.
Proof.
  simpl. rewrite c_eqb by reflexivity. now destruct (x =? "/")%char.
Qed.

Lemma cur_eval {A} s x (k : ascii -> M t A) :
  nth_error (code s) (pos s) = Some x -> bind cur k s = k x s.
Proof. intros H. unfold bind, cur. now rewrite H. Qed.

Lemma in_bounds_eval {A} s (k : bool -> M t A) :
  bind in_bounds k s = k (pos s <? length (code s))%nat s.
Proof. reflexivity. Qed.

Lemma step_eval {A} s j (k : unit -> M t A) :
  bind (step j) k s = k tt (set_pos s (pos s + j)).
Proof. reflexivity. Qed.

Lemma ltb_true a b : a < b -> (a <? b)%nat = true.
Proof. apply Nat.ltb_lt. Qed.

Lemma pos_plus_0 s : pos s = pos s + 0.
Proof. lia. Qed.

(** The first run, at the boundary, reads what follows it or nothing. *)
Lemma first_at_boundary s1 s2 :
  aligned s1 s2 -> pos s1 = length pre ->
  (pos s1 <? length (code s1))%nat = false
  \/ exists y, (pos s1 <? length (code s1))%nat = true
               /\ nth_error (code s1) (pos s1) = Some y.
Proof.
  intros H E.
  destruct (Nat.ltb_spec (pos s1) (length (code s1))) as [L | L]; auto.
  right. destruct (nth_error (code s1) (pos s1)) as [y |] eqn:N; eauto.
  apply nth_error_None in N. lia.
Qed.

Lemma second_in_bounds s1 s2 :
  aligned s1 s2 -> (pos s2 <? length (code s2))%nat = true.
Proof.
  intros H. destruct (aligned_length _ _ H) as [_ L].
  apply ltb_true. destruct H as (_ & _ & P & Le & _). lia.
Qed.

Lemma first_in_bounds s1 s2 :
  aligned s1 s2 -> pos s1 < length pre ->
  (pos s1 <? length (code s1))%nat = true.
Proof.
  intros H Lt. destruct (aligned_length _ _ H) as [L _].
  apply ltb_true. lia.
Qed.

Lemma number_loop_aligned n : forall w s1 s2 w' s1',
  aligned s1 s2 ->
  number_loop n w s1 = Ok (w', s1') ->
  pos s1' <= length pre ->
  exists s2', number_loop n w s2 = Ok (w', s2') /\ aligned s1' s2'.
Proof.
  induction n as [| n IH]; intros w s1 s2 w' s1' A H Le; [discriminate |].
  simpl in H |- *. rewrite in_bounds_eval in H |- *.
  rewrite (second_in_bounds _ _ A).
  assert (Ap := A). destruct Ap as (_ & _ & P & L & _).
  destruct (Nat.eq_dec (pos s1) (length pre)) as [E | E].
  - rewrite (cur_eval s2 c)
      by (rewrite (pos_plus_0 s2); apply (aligned_at s1); auto; lia).
    rewrite c_stops_number.
    destruct (first_at_boundary _ _ A E) as [B | (y & B & N)]; rewrite B in H.
    + injection H as <- <-. exists s2. split; [reflexivity | exact A].
    + rewrite (cur_eval s1 y _ N) in H.
      destruct (isdigit y || (y =? ".")%char).
      * rewrite step_eval in H.
        pose proof (number_loop_grows n (w ++ chr y)
                      (set_pos s1 (pos s1 + 1))) as G.
        rewrite H in G. simpl in G. lia.
      * injection H as <- <-. exists s2. split; [reflexivity | exact A].
  - assert (Lt : pos s1 + 0 < length pre) by lia.
    destruct (aligned_inside _ _ 0 A Lt) as (x & _ & N1 & N2).
    rewrite !Nat.add_0_r in N1, N2.
    rewrite (first_in_bounds _ _ A) in H by lia.
    rewrite (cur_eval s1 x _ N1) in H. rewrite (cur_eval s2 x _ N2).
    destruct (isdigit x || (x =? ".")%char).
    + rewrite step_eval in H |- *.
      eapply IH; eauto. apply aligned_step; auto. lia.
    + injection H as <- <-. exists s2. split; [reflexivity | exact A].
Qed.

Lemma ident_loop_aligned n : forall w s1 s2 w' s1',
  aligned s1 s2 ->
  (pos s1 = length pre -> isalnum c || (c =? "_")%char = false) ->
  ident_loop n w s1 = Ok (w', s1') ->
  pos s1' <= length pre ->
  exists s2', ident_loop n w s2 = Ok (w', s2') /\ aligned s1' s2'.
Proof.
  induction n as [| n IH]; intros w s1 s2 w' s1' A St H Le; [discriminate |].
  simpl in H |- *. rewrite in_bounds_eval in H |- *.
  rewrite (second_in_bounds _ _ A).
  assert (Ap := A). destruct Ap as (_ & _ & P & L & _).
  destruct (Nat.eq_dec (pos s1) (length pre)) as [E | E].
  - rewrite (cur_eval s2 c)
      by (rewrite (pos_plus_0 s2); apply (aligned_at s1); auto; lia).
    rewrite (St E).
    destruct (first_at_boundary _ _ A E) as [B | (y & B & N)]; rewrite B in H.
    + injection H as <- <-. exists s2. split; [reflexivity | exact A].
    + rewrite (cur_eval s1 y _ N) in H.
      destruct (isalnum y || (y =? "_")%char).
      * rewrite step_eval in H.
        pose proof (ident_loop_grows n (w ++ chr y)
                      (set_pos s1 (pos s1 + 1))) as G.
        rewrite H in G. simpl in G. lia.
      * injection H as <- <-. exists s2. split; [reflexivity | exact A].
  - assert (Lt : pos s1 + 0 < length pre) by lia.
    destruct (aligned_inside _ _ 0 A Lt) as (x & N0 & N1 & N2).
    rewrite !Nat.add_0_r in N0, N1, N2.
    rewrite (first_in_bounds _ _ A) in H by lia.
    rewrite (cur_eval s1 x _ N1) in H. rewrite (cur_eval s2 x _ N2).
    destruct (isalnum x || (x =? "_")%char) eqn:W.
    + rewrite step_eval in H |- *.
      apply (IH _ (set_pos s1 (pos s1 + 1)) _ _ _
               (aligned_step _ _ 1 A ltac:(lia))); auto.
      cbn [pos set_pos]. intros E1.
      exact (c_stops_ident x (last_char_at _ _ E1 N0) W).
    + injection H as <- <-. exists s2. split; [reflexivity | exact A].
Qed.

Lemma aligned_shifted s1 s2 :
  aligned s1 s2 -> pos s1 = length pre ->
  shifted s1 (set_pos s2 (pos s2 + 1)).
Proof.
  intros (C1 & C2 & P & L & Ln & T) E. repeat split; simpl; auto; lia.
Qed.

Lemma comment_loop_unfold n :
  comment_loop (S n) =
  (b <- in_bounds ;;
   if b then
     x <- cur ;;
     if negb (x =? LF)%char then step 1 ;;; comment_loop n else ret tt
   else ret tt).
Proof. reflexivity. Qed.

Lemma comment_loop_aligned n : forall s1 s2 s1',
  aligned s1 s2 ->
  comment_loop n s1 = Ok (tt, s1') ->
  pos s1' <= length pre ->
  exists s2', comment_loop (S n) s2 = Ok (tt, s2')
              /\ (aligned s1' s2' \/ shifted s1' s2').
Proof.
  induction n as [| n IH]; intros s1 s2 s1' A H Le; [discriminate |].
  assert (H0 := H).
  rewrite comment_loop_unfold in H. rewrite (comment_loop_unfold (S n)).
  rewrite in_bounds_eval in H |- *.
  rewrite (second_in_bounds _ _ A).
  assert (Ap := A). destruct Ap as (_ & _ & P & L & _).
  destruct (Nat.eq_dec (pos s1) (length pre)) as [E | E].
  - rewrite (cur_eval s2 c)
      by (rewrite (pos_plus_0 s2); apply (aligned_at s1); auto; lia).
    rewrite c_eqb by reflexivity. cbn [negb]. rewrite step_eval.
    assert (S1 : s1' = s1).
    { destruct (first_at_boundary _ _ A E) as [B | (y & B & N)];
        rewrite B in H.
      - now injection H as <-.
      - rewrite (cur_eval s1 y _ N) in H.
        destruct (negb (y =? LF)%char).
        + rewrite step_eval in H.
          pose proof (comment_loop_grows n (set_pos s1 (pos s1 + 1))) as G.
          rewrite H in G. simpl in G. lia.
        + now injection H as <-. }
    subst s1'.
    pose proof (comment_loop_lockstep (S n) s1 _ (aligned_shifted _ _ A E))
      as K.
    rewrite H0 in K.
    destruct (comment_loop (S n) (set_pos s2 (pos s2 + 1)))
      as [[[] s2'] | |]; try contradiction.
    exists s2'. split; [reflexivity | right; apply K].
  - assert (Lt : pos s1 + 0 < length pre) by lia.
    destruct (aligned_inside _ _ 0 A Lt) as (x & _ & N1 & N2).
    rewrite !Nat.add_0_r in N1, N2.
    rewrite (first_in_bounds _ _ A) in H by lia.
    rewrite (cur_eval s1 x _ N1) in H. rewrite (cur_eval s2 x _ N2).
    destruct (negb (x =? LF)%char).
    + rewrite step_eval in H |- *.
      eapply IH; eauto. apply aligned_step; auto. lia.
    + injection H as <-. exists s2. split; [reflexivity | left; exact A].
Qed.

Lemma has_next_eval {A} s (k : bool -> M t A) :
  bind has_next k s = k (pos s + 1 <? length (code s))%nat s.
Proof. reflexivity. Qed.

Lemma string_loop_aligned n : forall w s1 s2 w' s1',
  aligned s1 s2 ->
  string_loop n w s1 = Ok (w', s1') ->
  pos s1' < length pre ->
  exists s2', string_loop n w s2 = Ok (w', s2') /\ aligned s1' s2'.
Proof.
  induction n as [| n IH]; intros w s1 s2 w' s1' A H Le; [discriminate |].
  pose proof (string_loop_grows (S n) w s1) as G0. rewrite H in G0.
  cbn [string_loop] in H |- *. rewrite in_bounds_eval in H |- *.
  rewrite (second_in_bounds _ _ A).
  assert (Ap := A). destruct Ap as (_ & _ & P & L & _).
  assert (Lt : pos s1 + 0 < length pre) by lia.
  destruct (aligned_inside _ _ 0 A Lt) as (x & _ & N1 & N2).
  rewrite !Nat.add_0_r in N1, N2.
  rewrite (first_in_bounds _ _ A) in H by lia.
  rewrite (cur_eval s1 x _ N1) in H. rewrite (cur_eval s2 x _ N2).
  destruct (negb (x =? DQUOTE)%char).
  - rewrite has_next_eval in H |- *.
    destruct (aligned_length _ _ A) as [L1 L2].
    rewrite (ltb_true (pos s2 + 1) (length (code s2))) by lia.
    destruct (x =? BACKSLASH)%char; cbn [andb] in H |- *.
    + destruct (Nat.eq_dec (pos s1 + 1) (length pre)) as [E | E].
      * exfalso.
        destruct (Nat.ltb_spec (pos s1 + 1) (length (code s1))) as [B | B].
        -- rewrite step_eval in H.
           destruct (LexerTotal.cur_in_bounds (set_pos s1 (pos s1 + 1)) B)
             as [e M].
           rewrite (cur_eval (set_pos s1 (pos s1 + 1)) e _ M) in H.
           rewrite step_eval in H.
           pose proof (string_loop_grows n (w ++ chr (unescape e))
                      (set_pos (set_pos s1 (pos s1 + 1))
                         (pos (set_pos s1 (pos s1 + 1)) + 1))) as G.
           rewrite H in G. simpl in G. lia.
        -- rewrite step_eval in H.
           pose proof (string_loop_grows n (w ++ chr x)
                      (set_pos s1 (pos s1 + 1))) as G.
           rewrite H in G. simpl in G. lia.
      * rewrite (ltb_true (pos s1 + 1) (length (code s1))) in H by lia.
        rewrite step_eval in H |- *.
        assert (Lt1 : pos s1 + 1 < length pre) by lia.
        destruct (aligned_inside _ _ 1 A Lt1) as (e & _ & M1 & M2).
        rewrite (cur_eval (set_pos s1 (pos s1 + 1)) e _ M1) in H.
        rewrite (cur_eval (set_pos s2 (pos s2 + 1)) e _ M2).
        rewrite step_eval in H |- *.
        eapply IH; eauto.
        apply (aligned_step _ _ 1); [apply aligned_step; auto; lia |].
        simpl. lia.
    + assert (Hs : string_loop n (w ++ chr x) (set_pos s1 (pos s1 + 1))
                   = Ok (w', s1')).
      { destruct (pos s1 + 1 <? length (code s1))%nat; exact H. }
      pose proof (string_loop_grows n (w ++ chr x)
                      (set_pos s1 (pos s1 + 1))) as G.
      rewrite Hs in G. simpl in G.
      eapply IH; eauto. apply aligned_step; auto. lia.
  - injection H as <- <-. exists s2. split; [reflexivity | exact A].
Qed.

Lemma slice_nth code p :
  slice code p (p + 2) =
  match nth_error code p with
  | Some x =>
      match nth_error code (p + 1) with
      | Some y => String x (chr y)
      | None => chr x
      end
  | None => ""
  end.
Proof.
  unfold slice. replace (p + 2 - p) with 2 by lia.
  destruct (nth_error code p) as [x |] eqn:E1.
  - rewrite (LexerTotal.skipn_nth_error _ _ _ E1).
    replace (p + 1) with (S p) by lia.
    destruct (nth_error code (S p)) as [y |] eqn:E2.
    + now rewrite (LexerTotal.skipn_nth_error _ _ _ E2).
    + apply nth_error_None in E2. now rewrite skipn_all2.
  - apply nth_error_None in E1. now rewrite skipn_all2.
Qed.

Lemma before_last_eval {A} s (k : bool -> M t A) :
  bind before_last k s = k (pos s <? length (code s) - 1)%nat s.
Proof. reflexivity. Qed.

Lemma peek2_eval {A} s (k : string -> M t A) :
  bind peek2 k s = k (slice (code s) (pos s) (pos s + 2)) s.
Proof. reflexivity. Qed.

(** The two characters that the runs see at a cursor inside [pre]. *)
Lemma two_char_cases s1 s2 x :
  aligned s1 s2 -> pos s1 < length pre ->
  nth_error (code s1) (pos s1) = Some x ->
  (pos s2 <? length (code s2) - 1)%nat = true
  /\ ((pos s1 + 1 < length pre
       /\ (pos s1 <? length (code s1) - 1)%nat = true
       /\ slice (code s2) (pos s2) (pos s2 + 2)
          = slice (code s1) (pos s1) (pos s1 + 2))
      \/ (pos s1 + 1 = length pre
          /\ slice (code s2) (pos s2) (pos s2 + 2) = String x (chr c))).
Proof.
  intros A Lt N1.
  destruct (aligned_length _ _ A) as [L1 L2].
  assert (Ap := A). destruct Ap as (_ & _ & P & _).
  split; [apply ltb_true; lia |].
  assert (Lt0 : pos s1 + 0 < length pre) by lia.
  destruct (aligned_inside _ _ 0 A Lt0) as (x0 & _ & N1' & N2).
  rewrite !Nat.add_0_r in N1', N2.
  assert (x0 = x) by congruence. subst x0.
  destruct (Nat.eq_dec (pos s1 + 1) (length pre)) as [E | E].
  - right. split; auto.
    rewrite slice_nth, N2, (aligned_at _ _ 1 A E). reflexivity.
  - left. split; [lia |]. split; [apply ltb_true; lia |].
    assert (Lt1 : pos s1 + 1 < length pre) by lia.
    destruct (aligned_inside _ _ 1 A Lt1) as (y & _ & M1 & M2).
    now rewrite !slice_nth, N1, N2, M1, M2.
Qed.

Lemma comment_two n s s' :
  slice (code s) (pos s) (pos s + 2) = "//" ->
  comment_loop n s = Ok (tt, s') ->
  pos s + 2 <= pos s'.
Proof.
  intros T H. rewrite slice_nth in T.
  destruct (nth_error (code s) (pos s)) as [x |] eqn:E1; [| discriminate].
  destruct (nth_error (code s) (pos s + 1)) as [y |] eqn:E2;
    [| discriminate].
  injection T as -> ->.
  assert (B1 : pos s < length (code s))
    by (apply nth_error_Some; congruence).
  assert (B2 : pos s + 1 < length (code s))
    by (apply nth_error_Some; congruence).
  destruct n as [| [| n]]; try discriminate.
  - rewrite comment_loop_unfold, in_bounds_eval, (ltb_true _ _ B1) in H.
    rewrite (cur_eval s _ _ E1) in H. discriminate.
  - rewrite comment_loop_unfold, in_bounds_eval, (ltb_true _ _ B1) in H.
    rewrite (cur_eval s _ _ E1) in H. cbn [negb Ascii.eqb] in H.
    change (comment_loop (S n) (set_pos s (pos s + 1)) = Ok (tt, s')) in H.
    rewrite comment_loop_unfold, in_bounds_eval in H.
    cbn [set_pos pos code] in H. rewrite (ltb_true _ _ B2) in H.
    rewrite (cur_eval (set_pos s (pos s + 1)) _ _ E2) in H.
    change (comment_loop n (set_pos s (pos s + 1 + 1)) = Ok (tt, s')) in H.
    pose proof (comment_loop_grows n (set_pos s (pos s + 1 + 1))) as G.
    rewrite H in G. simpl in G. lia.
Qed.

Lemma aligned_emitted s1 s2 ty v :
  aligned s1 s2 -> aligned (emitted s1 ty v) (emitted s2 ty v).
Proof.
  intros (C1 & C2 & P & L & Ln & T).
  repeat split; simpl; auto; congruence.
Qed.

Lemma aligned_newline s1 s2 :
  aligned s1 s2 ->
  aligned (mk (code s1) (pos s1) (line s1 + 1) (tokens s1))
          (mk (code s2) (pos s2) (line s2 + 1) (tokens s2)).
Proof.
  intros (C1 & C2 & P & L & Ln & T).
  repeat split; simpl; auto; congruence.
Qed.

Lemma tokenize_body_aligned n s1 s2 s1' :
  aligned s1 s2 -> pos s1 < length pre ->
  tokenize_body n s1 = Ok (tt, s1') ->
  pos s1' <= length pre ->
  exists s2', tokenize_body (S n) s2 = Ok (tt, s2')
              /\ (aligned s1' s2' \/ shifted s1' s2').
Proof.
  intros A Lt H Le.
  assert (Lt0 : pos s1 + 0 < length pre) by lia.
  destruct (aligned_inside _ _ 0 A Lt0) as (x & N0 & N1 & N2).
  rewrite !Nat.add_0_r in N0, N1, N2.
  unfold tokenize_body in H |- *.
  rewrite (cur_eval s1 x _ N1) in H. rewrite (cur_eval s2 x _ N2).
  destruct (isspace x).
  { destruct (x =? LF)%char.
    - injection H as <-. eexists. split; [reflexivity | left].
      apply (aligned_step _ _ 1 (aligned_newline _ _ A)). simpl. lia.
    - injection H as <-. eexists. split; [reflexivity | left].
      apply (aligned_step _ _ 1 A). lia. }
  rewrite before_last_eval, peek2_eval in H |- *.
  destruct (two_char_cases _ _ x A Lt N1) as [M2 TC]. rewrite M2.
  cbn [andb].
  (* the comment test *)
  destruct ((pos s1 <? length (code s1) - 1)%nat
            && (slice (code s1) (pos s1) (pos s1 + 2) =? "//")) eqn:Cm.
  { apply andb_prop in Cm. destruct Cm as [_ Cm].
    apply String.eqb_eq in Cm.
    destruct TC as [(Lt1 & M1 & TW) | (E & TW)].
    - rewrite TW, Cm. cbn [String.eqb Ascii.eqb Bool.eqb].
      destruct (comment_loop_aligned _ _ _ _ A H Le) as (s2' & E2 & R).
      exists s2'. split; auto.
    - pose proof (comment_two _ _ _ Cm H). lia. }
  assert (Cm2 : (slice (code s2) (pos s2) (pos s2 + 2) =? "//") = false).
  { destruct TC as [(Lt1 & M1 & TW) | (E & TW)].
    - rewrite TW. rewrite M1 in Cm. exact Cm.
    - rewrite TW. apply c_no_comment_second. }
  rewrite Cm2.
  (* numbers *)
  destruct (isdigit x).
  { apply bind_inv in H. destruct H as (w & s1'' & NL & Em).
    injection Em as <-.
    destruct (number_loop_aligned _ _ _ _ _ _ A NL Le) as (s2'' & E2 & R).
    rewrite (bind_ok _ _ _ _ _
               (refines_ok _ _ _ _
                  (LexerFuel.number_loop_fuel n (S n) (Nat.le_succ_diag_r n) "")
                  E2 ltac:(discriminate))).
    eexists. split; [reflexivity | left]. now apply aligned_emitted. }
  (* identifiers *)
  destruct (isalpha x || (x =? "_")%char).
  { apply bind_inv in H. destruct H as (w & s1'' & NL & Em).
    injection Em as <-.
    destruct (ident_loop_aligned _ _ _ _ _ _ A ltac:(lia) NL Le)
      as (s2'' & E2 & R).
    rewrite (bind_ok _ _ _ _ _
               (refines_ok _ _ _ _
                  (LexerFuel.ident_loop_fuel n (S n) (Nat.le_succ_diag_r n) "")
                  E2 ltac:(discriminate))).
    eexists. split; [reflexivity | left]. now apply aligned_emitted. }
  (* strings *)
  destruct (x =? DQUOTE)%char.
  { rewrite step_eval in H |- *.
    apply bind_inv in H. destruct H as (w & s1'' & NL & Em).
    injection Em as <-. simpl in Le.
    pose proof (string_loop_grows n "" (set_pos s1 (pos s1 + 1))) as G.
    rewrite NL in G. simpl in G.
    assert (A1 : aligned (set_pos s1 (pos s1 + 1)) (set_pos s2 (pos s2 + 1)))
      by (apply aligned_step; auto; lia).
    destruct (string_loop_aligned _ _ _ _ _ _ A1 NL ltac:(lia))
      as (s2'' & E2 & R).
    rewrite (bind_ok _ _ _ _ _
               (refines_ok _ _ _ _
                  (LexerFuel.string_loop_fuel n (S n) (Nat.le_succ_diag_r n) "")
                  E2 ltac:(discriminate))).
    eexists. split; [reflexivity | left].
    apply (aligned_emitted (set_pos s1'' (pos s1'' + 1))
             (set_pos s2'' (pos s2'' + 1))).
    apply aligned_step; auto; lia. }
  (* operators *)
  destruct (lookup (slice (code s1) (pos s1) (pos s1 + 2)) operators)
    as [ty |] eqn:Op.
  { injection H as <-. simpl in Le.
    destruct TC as [(Lt1 & M1 & TW) | (E & TW)]; [| lia].
    rewrite TW, Op. eexists. split; [reflexivity | left].
    apply (aligned_step (emitted s1 ty _) (emitted s2 ty _) 2).
    - now apply aligned_emitted.
    - simpl. lia. }
  assert (Op2 : lookup (slice (code s2) (pos s2) (pos s2 + 2)) operators
                = None).
  { destruct TC as [(Lt1 & M1 & TW) | (E & TW)].
    - now rewrite TW.
    - rewrite TW. apply c_operators_second.
      exact (last_char_at _ _ E N0). }
  rewrite Op2.
  destruct (lookup (chr x) single_chars) as [ty |].
  - injection H as <-. eexists. split; [reflexivity | left].
    apply (aligned_step (emitted s1 ty _) (emitted s2 ty _) 1).
    + now apply aligned_emitted.
    + simpl. lia.
  - injection H as <-. eexists. split; [reflexivity | left].
    apply (aligned_step _ _ 1 A). lia.
Qed.

Lemma tokenize_body_at_inserted n s1 s2 :
  aligned s1 s2 -> pos s1 = length pre ->
  tokenize_body n s2 = Ok (tt, set_pos s2 (pos s2 + 1)).
Proof.
  intros A E.
  assert (E0 : pos s1 + 0 = length pre) by lia.
  pose proof (aligned_at _ _ 0 A E0) as N. rewrite Nat.add_0_r in N.
  unfold tokenize_body. rewrite (cur_eval s2 c _ N), c_isspace.
  rewrite before_last_eval, peek2_eval, slice_nth, N.
  assert (T : match nth_error (code s2) (pos s2 + 1) with
              | Some y => String c (chr y)
              | None => chr c
              end
              = String c match post with
                         | y :: _ => chr y
                         | [] => ""
                         end).
  { destruct A as (_ & C2 & P & _). rewrite C2, P, E.
    rewrite nth_error_app2 by lia.
    replace (length pre + 1 - length pre) with 1 by lia.
    generalize post. now intros [| y q]. }
  rewrite T.
  rewrite c_no_comment_first, andb_false_r.
  rewrite c_isdigit, c_starts_no_ident, c_eqb by reflexivity.
  rewrite c_operators_first, c_single. reflexivity.
Qed.

Lemma tokenize_loop_unfold n :
  tokenize_loop (S n) =
  (b <- in_bounds ;;
   if b then tokenize_body n ;;; tokenize_loop n else ret tt).
Proof. reflexivity. Qed.

Lemma lexes_to_step f s s1 toks :
  pos s < length (code s) ->
  tokenize_body f s = Ok (tt, s1) ->
  lexes_to s1 toks -> lexes_to s toks.
Proof.
  intros B H (n & s' & L & T).
  exists (S (Nat.max f n)), s'. split; auto.
  rewrite tokenize_loop_unfold, in_bounds_eval, (ltb_true _ _ B).
  rewrite (bind_ok _ _ _ _ _
             (refines_ok _ _ _ _
                (LexerFuel.tokenize_body_fuel f (Nat.max f n)
                   (Nat.le_max_l f n))
                H ltac:(discriminate))).
  apply (refines_ok _ _ _ _
           (LexerFuel.tokenize_loop_fuel n (Nat.max f n)
              (Nat.le_max_r f n)) L).
  discriminate.
Qed.

Lemma lexes_to_unstep f s s1 toks :
  pos s < length (code s) ->
  tokenize_body f s = Ok (tt, s1) ->
  lexes_to s toks -> lexes_to s1 toks.
Proof.
  intros B H (n & s' & L & T).
  destruct n as [| n]; [discriminate |].
  rewrite tokenize_loop_unfold, in_bounds_eval, (ltb_true _ _ B) in L.
  apply bind_inv in L. destruct L as ([] & s1' & Hb & L).
  assert (s1' = s1).
  { pose proof (refines_ok _ _ _ _
                  (LexerFuel.tokenize_body_fuel f (Nat.max f n)
                     (Nat.le_max_l f n)) H ltac:(discriminate)) as X1.
    pose proof (refines_ok _ _ _ _
                  (LexerFuel.tokenize_body_fuel n (Nat.max f n)
                     (Nat.le_max_r f n)) Hb ltac:(discriminate)) as X2.
    congruence. }
  subst. exists n, s'. auto.
Qed.

Lemma lexes_to_shifted s1 s2 toks :
  shifted s1 s2 -> lexes_to s1 toks -> lexes_to s2 toks.
Proof.
  intros Sh (n & s' & L & T).
  pose proof (tokenize_loop_lockstep n s1 s2 Sh) as K. rewrite L in K.
  destruct (tokenize_loop n s2) as [[[] s2'] | |] eqn:L2;
    try contradiction.
  exists n, s2'. split; auto.
  destruct K as (_ & _ & _ & _ & _ & _ & Tk). congruence.
Qed.

Lemma lexes_to_unique s t1 t2 :
  lexes_to s t1 -> lexes_to s t2 -> t1 = t2.
Proof.
  intros (n1 & s1 & L1 & T1) (n2 & s2 & L2 & T2).
  pose proof (refines_ok _ _ _ _
                (LexerFuel.tokenize_loop_fuel n1 (Nat.max n1 n2)
                   (Nat.le_max_l _ _)) L1 ltac:(discriminate)) as X1.
  pose proof (refines_ok _ _ _ _
                (LexerFuel.tokenize_loop_fuel n2 (Nat.max n1 n2)
                   (Nat.le_max_r _ _)) L2 ltac:(discriminate)) as X2.
  congruence.
Qed.

Lemma turns_unfold f k :
  turns f (S k) =
  (b <- in_bounds ;;
   if b then tokenize_body f ;;; turns f k else ret tt).
Proof. reflexivity. Qed.

Lemma lexes_to_turns f k : forall s sb toks,
  turns f k s = Ok (tt, sb) ->
  (lexes_to s toks <-> lexes_to sb toks).
Proof.
  induction k as [| k IH]; intros s sb toks H.
  - injection H as <-. tauto.
  - rewrite turns_unfold, in_bounds_eval in H.
    destruct (Nat.ltb_spec (pos s) (length (code s))) as [B | B].
    + apply bind_inv in H. destruct H as ([] & s1 & Hb & H).
      rewrite <- (IH _ _ toks H). split.
      * now apply (lexes_to_unstep f).
      * now apply (lexes_to_step f).
    + injection H as <-. tauto.
Qed.

Lemma aligned_second_lexes s1 s2 toks :
  aligned s1 s2 -> pos s1 = length pre ->
  lexes_to s1 toks -> lexes_to s2 toks.
Proof.
  intros A E L.
  apply (lexes_to_step 0 s2 (set_pos s2 (pos s2 + 1))).
  - apply Nat.ltb_lt, (second_in_bounds _ _ A).
  - now apply (tokenize_body_at_inserted 0 s1).
  - apply (lexes_to_shifted s1); auto. now apply aligned_shifted.
Qed.

Lemma aligned_lexes f k : forall s1 s2 sb toks,
  aligned s1 s2 ->
  turns f k s1 = Ok (tt, sb) ->
  pos sb = length pre ->
  lexes_to sb toks -> lexes_to s2 toks.
Proof.
  induction k as [| k IH]; intros s1 s2 sb toks A H E L.
  - injection H as <-. now apply (aligned_second_lexes s1).
  - assert (H0 := H). rewrite turns_unfold, in_bounds_eval in H.
    destruct (Nat.ltb_spec (pos s1) (length (code s1))) as [B | B].
    + apply bind_inv in H. destruct H as ([] & s1' & Hb & H).
      destruct (Nat.eq_dec (pos s1) (length pre)) as [E1 | E1].
      * apply (aligned_second_lexes s1); auto.
        now apply (lexes_to_turns _ _ _ _ toks H0).
      * assert (Lt : pos s1 < length pre)
          by (destruct A as (_ & _ & _ & ? & _); lia).
        pose proof (turns_grows f k s1') as G. rewrite H in G.
        destruct (tokenize_body_aligned f s1 s2 s1' A Lt Hb ltac:(lia))
          as (s2' & Hb2 & [A' | Sh]).
        -- apply (lexes_to_step (S f) s2 s2'); auto.
           ++ apply Nat.ltb_lt, (second_in_bounds _ _ A).
           ++ now apply (IH s1' s2' sb).
        -- apply (lexes_to_step (S f) s2 s2'); auto.
           ++ apply Nat.ltb_lt, (second_in_bounds _ _ A).
           ++ apply (lexes_to_shifted s1'); auto.
              now apply (lexes_to_turns _ _ _ _ toks H).
    + injection H as <-. now apply (aligned_second_lexes s1).
Qed.

Lemma inserted_same_tokens fuel toks1 f1 :
  token_boundary (pre ++ post) (length pre) ->
  tokenize fuel (init (pre ++ post)) = Ok (toks1, f1) ->
  length (pre ++ c :: post) + 2 <= fuel ->
  exists f2, tokenize fuel (init (pre ++ c :: post)) = Ok (toks1, f2).
Proof.
  intros (f & k & sb & Ht & Ep) H1 Hf.
  assert (L1 : lexes_to (init (pre ++ post)) toks1).
  { unfold tokenize in H1. apply bind_inv in H1.
    destruct H1 as ([] & s' & L & G). injection G as <- <-.
    exists fuel, s'. auto. }
  assert (L2 : lexes_to (init (pre ++ c :: post)) toks1).
  { apply (aligned_lexes f k (init (pre ++ post)) _ sb); auto.
    - repeat split; simpl; auto. lia.
    - now apply (lexes_to_turns _ _ _ _ toks1 Ht). }
  destruct (LexerTotal.tokenize_returns (pre ++ c :: post)%list
              (fuel - (length (pre ++ c :: post) + 2)))
    as (toks2 & f2 & H2 & _).
  replace (length (pre ++ c :: post) + 2
           + (fuel - (length (pre ++ c :: post) + 2))) with fuel in H2
    by lia.
  exists f2. rewrite H2. do 2 f_equal.
  apply (lexes_to_unique (init (pre ++ c :: post))); auto.
  unfold tokenize in H2. apply bind_inv in H2.
  destruct H2 as ([] & s' & L & G). injection G as <- <-.
  exists fuel, s'. auto.
Qed.
End Insert.

End LexerInsert.

Lemma list_ascii_of_string_app (a b : string) :
  list_ascii_of_string (a ++ b)
  = (list_ascii_of_string a ++ list_ascii_of_string b)%list.
Proof. induction a as [| x a IH]; simpl; [| rewrite IH]; reflexivity. Qed.

Lemma length_list_ascii_of_string (a : string) :
  length (list_ascii_of_string a) = String.length a.
Proof. induction a as [| x a IH]; simpl; [| rewrite IH]; reflexivity. Qed.

(** C9. Take a text and a position in it where the main loop of the lexer
    starts a turn (a position between two tokens, outside comments and
    string literals), and insert there one character that starts no lexical
    rule and that stands next to no character it can make a token with: it
    is not [&] or [|] beside the same character, and it is not a character
    that [str.isalnum] accepts right after a letter, a digit or an
    underscore.  Then, fuel permitting, the lexer returns the same tokens
    for both texts, and [compile_lakbay] returns the same result for both:
    the character raises no error and leaves no trace in the output. *)
Theorem unrecognized_character_skipped (pre post : string) (c : ascii)
    (fuel : nat) :
  InsertSpec.unrecognized c = true ->
  InsertSpec.joins (list_ascii_of_string pre) c (list_ascii_of_string post)
  = false ->
  InsertSpec.token_boundary (list_ascii_of_string (pre ++ post))
    (String.length pre) ->
  String.length (pre ++ String c post) + 2 <= fuel ->
  (exists toks,
     tokens_of fuel (pre ++ post) = Some toks
     /\ tokens_of fuel (pre ++ String c post) = Some toks)
  /\ compile_lakbay fuel (pre ++ String c post)
     = compile_lakbay fuel (pre ++ post).
Proof.
  intros Hc Hj Hb Hf.
  rewrite list_ascii_of_string_app, <- length_list_ascii_of_string in Hb.
  rewrite <- length_list_ascii_of_string, list_ascii_of_string_app in Hf.
  simpl in Hf.
  set (p := list_ascii_of_string pre) in *.
  set (q := list_ascii_of_string post) in *.
  destruct (LexerTotal.tokenize_returns (p ++ q)%list
              (fuel - (length (p ++ q)%list + 2)))
    as (toks & f1 & H1 & _).
  replace (length (p ++ q)%list + 2 + (fuel - (length (p ++ q)%list + 2)))
    with fuel in H1
    by (rewrite length_app in *; simpl in Hf; lia).
  destruct (LexerInsert.inserted_same_tokens p q c Hc Hj fuel toks f1 Hb H1
              Hf)
    as (f2 & H2).
  assert (T1 : Lexer.tokenize fuel
                 (Lexer.init (list_ascii_of_string (pre ++ post)))
               = Ok (toks, f1))
    by (rewrite list_ascii_of_string_app; exact H1).
  assert (T2 : Lexer.tokenize fuel
                 (Lexer.init (list_ascii_of_string (pre ++ String c post)))
               = Ok (toks, f2))
    by (rewrite list_ascii_of_string_app; exact H2).
  split.
  - exists toks. unfold tokens_of. now rewrite T1, T2.
  - unfold compile_lakbay. now rewrite T1, T2.
Qed.

Lemma unrecognized_character_skipped_witness :
  compile_lakbay 40 ("class A { int x; " ++ String "@" "int y; }")
  = compile_lakbay 40 ("class A { int x; " ++ "int y; }").
Proof.
  refine (proj2 (unrecognized_character_skipped
                   "class A { int x; " "int y; }" "@" 40 _ _ _ _)).
  - reflexivity.
  - reflexivity.
  - exists 20, 11. eexists. split; [vm_compute; reflexivity | reflexivity].
  - simpl. lia.
Defined.

(** C9, as stated, fails.  The character [&] matches no rule when it
    stands alone, and the lexer skips it; a second [&] inserted beside it
    makes the operator [&&], and the translation changes with it.  The
    character with the code point 188 is skipped when it stands alone, and
    inserted after an identifier it becomes part of the identifier. *)
Lemma inserted_character_joins_neighbour :
  (InsertSpec.unrecognized "&" = true
   /\ InsertSpec.token_boundary (list_ascii_of_string ("a &" ++ " b"))
        (String.length "a &")
   /\ tokens_of 10 ("a &" ++ " b")
      = Some [ Token.mk "IDENTIFIER" "a" 1; Token.mk "IDENTIFIER" "b" 1 ]
   /\ tokens_of 10 ("a &" ++ String "&" " b")
      = Some [ Token.mk "IDENTIFIER" "a" 1; Token.mk "AND" "&&" 1;
               Token.mk "IDENTIFIER" "b" 1 ]
   /\ compile_lakbay 60 ("class A { func f() { return a &" ++ " b; } }")
      = Some "ERROR: Line 1: Expected SEMI, got IDENTIFIER"
   /\ compile_lakbay 60
        ("class A { func f() { return a &" ++ String "&" " b; } }")
      = Some (program [ nl ++ "class A {"; "public:"; "    void f() {";
                        "        return (a && b);"; "    }"; "};" ]))
  /\ (InsertSpec.unrecognized (ascii_of_nat 188) = true
      /\ InsertSpec.token_boundary (list_ascii_of_string ("x" ++ ";"))
           (String.length "x")
      /\ tokens_of 10 ("x" ++ ";")
         = Some [ Token.mk "IDENTIFIER" "x" 1; Token.mk "SEMI" ";" 1 ]
      /\ tokens_of 10 ("x" ++ String (ascii_of_nat 188) ";")
         = Some [ Token.mk "IDENTIFIER" ("x" ++ chr (ascii_of_nat 188)) 1;
                  Token.mk "SEMI" ";" 1 ]).
Proof.
  split.
  - split; [reflexivity |].
    split; [exists 10, 3; eexists; split;
            [vm_compute; reflexivity | reflexivity] |].
    repeat split; vm_compute; reflexivity.
  - split; [reflexivity |].
    split; [exists 10, 1; eexists; split;
            [vm_compute; reflexivity | reflexivity] |].
    repeat split; vm_compute; reflexivity.
Qed.

(** ** Members of a class *)

Module Members.
Import Transpiler TranspilerSpec TranspilerSound MethodSpec.

Lemma expect_ok s ty tok :
  nth_error (tokens s) (pos s) = Some tok ->
  Token.type tok = ty ->
  expect ty None s = Ok (tok, at_pos s (pos s + 1)).
Proof.
  intros E T. unfold expect, bind, current, gets. rewrite E, T.
  now rewrite String.eqb_refl.
Qed.

Lemma expect_keyword_ok s v tok :
  nth_error (tokens s) (pos s) = Some tok ->
  is_keyword v tok = true ->
  expect "KEYWORD" (Some v) s = Ok (tok, at_pos s (pos s + 1)).
Proof.
  intros E K. unfold is_keyword in K. apply andb_prop in K.
  destruct K as [K V].
  unfold expect, bind, current, gets. rewrite E, K, V. simpl.
  now rewrite andb_false_r.
Qed.

Lemma expect_wrong s ty v tok :
  nth_error (tokens s) (pos s) = Some tok ->
  (Token.type tok =? ty) = false ->
  expect ty v s = Raise (expect_type_error ty tok).
Proof.
  intros E T. unfold expect, bind, current, gets. now rewrite E, T.
Qed.

Lemma expect_inv s ty v tok s' :
  expect ty v s = Ok (tok, s') ->
  nth_error (tokens s) (pos s) = Some tok
  /\ Token.type tok = ty /\ s' = at_pos s (pos s + 1).
Proof.
  unfold expect, bind, current, gets. intros H.
  destruct (nth_error (tokens s) (pos s)) as [tok0 |]; [| discriminate].
  destruct (Token.type tok0 =? ty) eqn:T; simpl in H; [| discriminate].
  apply String.eqb_eq in T.
  destruct v as [v |].
  - destruct (truthy (Some v) && negb (Token.value tok0 =? v))%bool;
      [discriminate |].
    now injection H as <- <-.
  - now injection H as <- <-.
Qed.

Lemma cur_is_eval {A} p s (k : bool -> M t A) :
  bind (cur_is p) k s
  = k match nth_error (tokens s) (pos s) with
      | Some tok => p tok
      | None => false
      end s.
Proof. reflexivity. Qed.

Lemma write_eval {A} c s (k : unit -> M t A) :
  bind (write c) k s = k tt (written s c).
Proof. reflexivity. Qed.

Lemma quiet_ret A (a : A) : quiet (ret a).
Proof. intros s a' s' H. injection H as <- <-. auto. Qed.

Lemma quiet_timeout A : quiet (@timeout t A).
Proof. intros s a' s' H. discriminate. Qed.

Lemma quiet_bind A B (m : M t A) (k : A -> M t B) :
  quiet m -> (forall a, quiet (k a)) -> quiet (bind m k).
Proof.
  intros Hm Hk s b s' H. apply bind_inv in H.
  destruct H as (a & s1 & H1 & H2).
  destruct (Hm _ _ _ H1) as (T1 & O1 & I1).
  destruct (Hk _ _ _ _ H2) as (T2 & O2 & I2).
  repeat split; congruence.
Qed.

Lemma quiet_expect ty v : quiet (expect ty v).
Proof.
  intros s tok s' H. apply expect_inv in H. destruct H as (_ & _ & ->).
  auto.
Qed.

Lemma quiet_cur_is p : quiet (cur_is p).
Proof. intros s a s' H. injection H as <- <-. auto. Qed.

Lemma quiet_advance : quiet advance.
Proof. intros s a s' H. injection H as <- <-. auto. Qed.

Lemma params_loop_quiet n : forall ps, quiet (params_loop n ps).
Proof.
  induction n as [| n IH]; intros ps; [apply quiet_timeout |].
  simpl. 
  repeat first
    [ apply quiet_ret | apply quiet_expect | apply quiet_cur_is
    | apply quiet_advance | apply IH
    | apply quiet_bind; [| intros ?]
    | match goal with |- quiet (if ?b then _ else _) => destruct b end ].
Qed.

Lemma method_tail_sound toks n :
  sound toks
    (expect "LBRACE" None ;;;
     indent_add 1 ;;;
     transpile_block n ;;;
     indent_add (-1) ;;;
     write "}" ;;;
     expect "RBRACE" None ;;;
     ret tt).
Proof.
  destruct (stmt_sound_all toks n). sound_tac.
Qed.

Lemma constructor_accepted fuel c s s' name :
  nth_error (tokens s) (pos s + 1) = Some name ->
  Token.value name = c ->
  transpile_method fuel c s = Ok (tt, s') ->
  exists params sp brace rest,
    params_loop fuel [] (at_pos s (pos s + 3)) = Ok (params, sp)
    /\ nth_error (tokens s) (pos sp + 1) = Some brace
    /\ Token.type brace = "LBRACE"
    /\ output s'
       = (output s
          ++ (str_mul "    " (Z.to_nat (indent s))
              ++ c ++ "(" ++ join ", " params ++ ") {")%string
          :: rest)%list.
Proof.
  intros N V H. unfold transpile_method in H.
  apply bind_inv in H. destruct H as (kw & s1 & E1 & H).
  apply expect_inv in E1. destruct E1 as (_ & _ & ->).
  apply bind_inv in H. destruct H as (mn & s2 & E2 & H).
  apply expect_inv in E2. destruct E2 as (N2 & _ & ->).
  simpl in N2. rewrite N in N2. injection N2 as <-.
  rewrite V, String.eqb_refl in H. cbv zeta in H.
  apply bind_inv in H. destruct H as (lp & s3 & E3 & H).
  apply expect_inv in E3. destruct E3 as (_ & _ & ->).
  apply bind_inv in H. destruct H as (params & sp & EP & H).
  destruct (params_loop_quiet _ _ _ _ _ EP) as (Tp & Op & Ip).
  simpl in Tp, Op, Ip.
  apply bind_inv in H. destruct H as (rp & s5 & E5 & H).
  apply expect_inv in E5. destruct E5 as (_ & _ & ->).
  rewrite cur_is_eval in H. cbn [negb andb] in H.
  apply bind_inv in H. destruct H as (rt & s6 & E6 & H).
  injection E6 as <- <-.
  rewrite write_eval in H.
  assert (H0 := H).
  apply bind_inv in H. destruct H as (br & s7 & E7 & H).
  apply expect_inv in E7. destruct E7 as (N7 & T7 & ->).
  simpl in N7. rewrite Tp in N7.
  match type of H0 with
  | _ ?st = _ => pose proof (method_tail_sound (tokens s) fuel st Tp) as S
  end.
  rewrite H0 in S. destruct S as (_ & _ & l & Hl). simpl in Hl.
  exists params, sp, br, l. repeat split; auto.
  - rewrite <- EP. f_equal. unfold at_pos. simpl. f_equal. lia.
  - rewrite Hl, Op, Ip, <- app_assoc. reflexivity.
Qed.

Lemma at_pos_at_pos s p q : at_pos (at_pos s p) q = at_pos s q.
Proof. reflexivity. Qed.

Lemma method_after_params fuel c s name params sp :
  method_head s name -> params_end fuel s params sp ->
  transpile_method fuel c s =
  (c0 <- cur_is (is_type "COLON") ;;
   return_type <-
     (if negb (Token.value name =? c) && c0 then
        advance ;;;
        ty <- expect "KEYWORD" None ;;
        ret (convert_type (Token.value ty))
      else ret "void") ;;
   (if Token.value name =? c then
      write (c ++ "(" ++ join ", " params ++ ") {")
    else
      write (return_type ++ " " ++ Token.value name
             ++ "(" ++ join ", " params ++ ") {")) ;;;
   expect "LBRACE" None ;;;
   indent_add 1 ;;;
   transpile_block fuel ;;;
   indent_add (-1) ;;;
   write "}" ;;;
   expect "RBRACE" None ;;;
   ret tt) (at_pos sp (pos sp + 1)).
Proof.
  intros (kw & lp & N0 & K & N1 & T1 & N2 & T2) (EP & rp & NR & TR).
  unfold transpile_method.
  rewrite (bind_ok _ _ _ _ _ (expect_keyword_ok s "func" kw N0 K)).
  rewrite (bind_ok _ _ _ _ _
             (expect_ok (at_pos s (pos s + 1)) "IDENTIFIER" name N1 T1)).
  cbv zeta.
  assert (N2' : nth_error (tokens (at_pos (at_pos s (pos s + 1))
                                      (pos (at_pos s (pos s + 1)) + 1)))
                  (pos (at_pos (at_pos s (pos s + 1))
                          (pos (at_pos s (pos s + 1)) + 1))) = Some lp).
  { simpl. now replace (pos s + 1 + 1) with (pos s + 2) by lia. }
  rewrite (bind_ok _ _ _ _ _ (expect_ok _ "LPAREN" lp N2' T2)).
  simpl pos. rewrite !at_pos_at_pos.
  replace (pos s + 1 + 1 + 1) with (pos s + 3) by lia.
  rewrite (bind_ok _ _ _ _ _ EP).
  destruct (params_loop_quiet _ _ _ _ _ EP) as (Tp & _).
  assert (NR' : nth_error (tokens sp) (pos sp) = Some rp)
    by (rewrite Tp; exact NR).
  rewrite (bind_ok _ _ _ _ _ (expect_ok sp "RPAREN" rp NR' TR)).
  reflexivity.
Qed.

Lemma constructor_annotated fuel c s name params sp colon :
  method_head s name -> Token.value name = c ->
  params_end fuel s params sp ->
  nth_error (tokens s) (pos sp + 1) = Some colon ->
  Token.type colon = "COLON" ->
  transpile_method fuel c s = Raise (expect_type_error "LBRACE" colon).
Proof.
  intros Hh V Hp NC TC.
  rewrite (method_after_params fuel c s name params sp Hh Hp).
  destruct Hp as (EP & _).
  destruct (params_loop_quiet _ _ _ _ _ EP) as (Tp & _). simpl in Tp.
  rewrite cur_is_eval. rewrite V, String.eqb_refl. cbn [negb andb].
  unfold bind at 1. unfold ret at 1.
  rewrite write_eval.
  apply bind_raise. apply expect_wrong.
  - simpl. now rewrite Tp.
  - now rewrite TC.
Qed.

Lemma return_identifier fuel c s name params sp colon tok :
  method_head s name -> Token.value name <> c ->
  params_end fuel s params sp ->
  nth_error (tokens s) (pos sp + 1) = Some colon ->
  Token.type colon = "COLON" ->
  nth_error (tokens s) (pos sp + 2) = Some tok ->
  Token.type tok = "IDENTIFIER" ->
  transpile_method fuel c s = Raise (expect_type_error "KEYWORD" tok).
Proof.
  intros Hh V Hp NC TC NT TT.
  rewrite (method_after_params fuel c s name params sp Hh Hp).
  destruct Hp as (EP & _).
  destruct (params_loop_quiet _ _ _ _ _ EP) as (Tp & _). simpl in Tp.
  rewrite cur_is_eval. simpl tokens. simpl pos. rewrite Tp, NC.
  unfold is_type. rewrite TC. cbn [String.eqb Ascii.eqb Bool.eqb].
  apply String.eqb_neq in V. rewrite V. cbn [negb andb].
  apply bind_raise.
  unfold bind at 1. unfold advance, modify.
  apply bind_raise. apply expect_wrong.
  - simpl. rewrite Tp. now replace (pos sp + 1 + 1) with (pos sp + 2) by lia.
  - now rewrite TT.
Qed.

Lemma convert_type_id ty : convert_type ty = ty.
Proof.
  unfold convert_type, type_map. simpl.
  repeat match goal with
         | |- context [(ty =? ?k)%string] =>
             destruct (String.eqb_spec ty k); [now subst |]
         end.
  reflexivity.
Qed.

Lemma property_accepted fuel s ty name semi :
  nth_error (tokens s) (pos s) = Some ty -> Token.type ty = "KEYWORD" ->
  nth_error (tokens s) (pos s + 1) = Some name ->
  Token.type name = "IDENTIFIER" ->
  nth_error (tokens s) (pos s + 2) = Some semi -> Token.type semi = "SEMI" ->
  transpile_property fuel s
  = Ok (tt, at_pos (written s (Token.value ty ++ " " ++ Token.value name
                               ++ ";")) (pos s + 3)).
Proof.
  intros N0 T0 N1 T1 N2 T2. unfold transpile_property.
  rewrite (bind_ok _ _ _ _ _ (expect_ok s "KEYWORD" ty N0 T0)).
  rewrite (bind_ok _ _ _ _ _
             (expect_ok (at_pos s (pos s + 1)) "IDENTIFIER" name N1 T1)).
  rewrite cur_is_eval. simpl tokens. simpl pos.
  replace (pos s + 1 + 1) with (pos s + 2) by lia. rewrite N2.
  unfold is_type. rewrite T2. cbn [String.eqb Ascii.eqb Bool.eqb].
  rewrite write_eval, convert_type_id.
  assert (N2' : nth_error
                  (tokens (written (at_pos (at_pos s (pos s + 1)) (pos s + 2))
                     (Token.value ty ++ " " ++ Token.value name ++ ";")))
                  (pos (written (at_pos (at_pos s (pos s + 1)) (pos s + 2))
                     (Token.value ty ++ " " ++ Token.value name ++ ";")))
                = Some semi) by exact N2.
  rewrite (bind_ok _ _ _ _ _ (expect_ok _ "SEMI" semi N2' T2)).
  unfold ret, at_pos, written. simpl. do 3 f_equal. lia.
Qed.

Lemma identifier_type fuel s tok :
  nth_error (tokens s) (pos s) = Some tok ->
  Token.type tok = "IDENTIFIER" ->
  transpile_property fuel s = Raise (expect_type_error "KEYWORD" tok)
  /\ (forall n ps,
        params_loop (S n) ps s = Raise (expect_type_error "KEYWORD" tok))
  /\ (forall n c,
        class_body_loop (S n) c s
        = class_body_loop n c (at_pos s (pos s + 1))).
Proof.
  intros N T.
  assert (W : forall v, expect "KEYWORD" v s
                        = Raise (expect_type_error "KEYWORD" tok))
    by (intros v; apply expect_wrong; [exact N | now rewrite T]).
  split; [| split].
  - unfold transpile_property. now apply bind_raise.
  - intros n ps. simpl. rewrite cur_is_eval, N, T. simpl.
    now apply bind_raise.
  - intros n c. simpl. unfold bind at 1. unfold current, gets.
    rewrite N, T. reflexivity.
Qed.

End Members.

(** C5, as the code has it.  A method whose name is the name of the
    enclosing class and that [transpile_method] accepts is emitted as a
    constructor: the line written for it is the class name followed by the
    parameter list, with no return type, and the token after the closing
    parenthesis of its parameters is the opening brace.  A return-type
    annotation on such a method is not consumed: when the token after the
    closing parenthesis is a colon, [transpile_method] raises the parse error
    that expected the opening brace. *)
Theorem constructor_header :
  (forall fuel c s s' name,
     nth_error (Transpiler.tokens s) (Transpiler.pos s + 1) = Some name ->
     Token.value name = c ->
     Transpiler.transpile_method fuel c s = Ok (tt, s') ->
     exists params sp brace rest,
       Transpiler.params_loop fuel []
         (MethodSpec.at_pos s (Transpiler.pos s + 3)) = Ok (params, sp)
       /\ nth_error (Transpiler.tokens s) (Transpiler.pos sp + 1) = Some brace
       /\ Token.type brace = "LBRACE"
       /\ Transpiler.output s'
          = (Transpiler.output s
             ++ (str_mul "    " (Z.to_nat (Transpiler.indent s))
                 ++ c ++ "(" ++ join ", " params ++ ") {")%string
             :: rest)%list)
  /\ (forall fuel c s name params sp colon,
        MethodSpec.method_head s name ->
        Token.value name = c ->
        MethodSpec.params_end fuel s params sp ->
        nth_error (Transpiler.tokens s) (Transpiler.pos sp + 1) = Some colon ->
        Token.type colon = "COLON" ->
        Transpiler.transpile_method fuel c s
        = Raise (MethodSpec.expect_type_error "LBRACE" colon)).
Proof.
  split.
  - exact Members.constructor_accepted.
  - exact Members.constructor_annotated.
Qed.

Lemma constructor_header_witness :
  let toks := [ Token.mk "KEYWORD" "func" 1; Token.mk "IDENTIFIER" "A" 1;
                Token.mk "LPAREN" "(" 1; Token.mk "KEYWORD" "int" 1;
                Token.mk "IDENTIFIER" "a" 1; Token.mk "RPAREN" ")" 1;
                Token.mk "LBRACE" "{" 1; Token.mk "RBRACE" "}" 1 ] in
  Transpiler.transpile_method 10 "A" (Transpiler.mk toks 0 [] 1)
  = Ok (tt, Transpiler.mk toks 8 ["    A(int a) {"; "    }"] 1)
  /\ exists params sp brace rest,
       Transpiler.params_loop 10 []
         (MethodSpec.at_pos (Transpiler.mk toks 0 [] 1) 3) = Ok (params, sp)
       /\ nth_error toks (Transpiler.pos sp + 1) = Some brace
       /\ Token.type brace = "LBRACE"
       /\ ["    A(int a) {"; "    }"]
          = ([] ++ (str_mul "    " (Z.to_nat 1)
                    ++ "A" ++ "(" ++ join ", " params ++ ") {")%string
             :: rest)%list.
Proof.
  intros toks.
  assert (H : Transpiler.transpile_method 10 "A" (Transpiler.mk toks 0 [] 1)
              = Ok (tt, Transpiler.mk toks 8 ["    A(int a) {"; "    }"] 1))
    by (vm_compute; reflexivity).
  split; [exact H |].
  exact (proj1 constructor_header 10 "A" (Transpiler.mk toks 0 [] 1)
           (Transpiler.mk toks 8 ["    A(int a) {"; "    }"] 1)
           (Token.mk "IDENTIFIER" "A" 1) eq_refl eq_refl H).
Defined.

(** C5, as stated, fails: a constructor with a return-type annotation is
    not emitted, the translation of its class ends with a parse error. *)
Lemma constructor_annotation_rejected :
  compile_lakbay 40 "class A { func A() : int { } }"
  = Some "ERROR: Line 1: Expected LBRACE, got COLON".
Proof. vm_compute. reflexivity. Qed.

(** C4, as the code has it.  A declared type is a keyword token, and
    [convert_type] maps every name to itself.  A property whose type is a
    keyword, primitive or not, is accepted and emitted with the type name
    unchanged.  Where the declared type is an identifier, such as the name
    of a user-defined class, [transpile_property] and the parameter loop
    raise the parse error that expected a keyword, the loop over a class
    body skips the identifier without calling either, and a return type is
    rejected with the same parse error. *)
Theorem declared_type_must_be_keyword :
  (forall ty, Transpiler.convert_type ty = ty)
  /\ (forall fuel s ty name semi,
        nth_error (Transpiler.tokens s) (Transpiler.pos s) = Some ty ->
        Token.type ty = "KEYWORD" ->
        nth_error (Transpiler.tokens s) (Transpiler.pos s + 1) = Some name ->
        Token.type name = "IDENTIFIER" ->
        nth_error (Transpiler.tokens s) (Transpiler.pos s + 2) = Some semi ->
        Token.type semi = "SEMI" ->
        Transpiler.transpile_property fuel s
        = Ok (tt, MethodSpec.at_pos
                    (MethodSpec.written s
                       (Token.value ty ++ " " ++ Token.value name ++ ";"))
                    (Transpiler.pos s + 3)))
  /\ (forall fuel s tok,
        nth_error (Transpiler.tokens s) (Transpiler.pos s) = Some tok ->
        Token.type tok = "IDENTIFIER" ->
        Transpiler.transpile_property fuel s
        = Raise (MethodSpec.expect_type_error "KEYWORD" tok)
        /\ (forall n ps,
              Transpiler.params_loop (S n) ps s
              = Raise (MethodSpec.expect_type_error "KEYWORD" tok))
        /\ (forall n c,
              Transpiler.class_body_loop (S n) c s
              = Transpiler.class_body_loop n c
                  (MethodSpec.at_pos s (Transpiler.pos s + 1))))
  /\ (forall fuel c s name params sp colon tok,
        MethodSpec.method_head s name ->
        Token.value name <> c ->
        MethodSpec.params_end fuel s params sp ->
        nth_error (Transpiler.tokens s) (Transpiler.pos sp + 1) = Some colon ->
        Token.type colon = "COLON" ->
        nth_error (Transpiler.tokens s) (Transpiler.pos sp + 2) = Some tok ->
        Token.type tok = "IDENTIFIER" ->
        Transpiler.transpile_method fuel c s
        = Raise (MethodSpec.expect_type_error "KEYWORD" tok)).
Proof.
  split; [| split; [| split]].
  - exact Members.convert_type_id.
  - exact Members.property_accepted.
  - exact Members.identifier_type.
  - exact Members.return_identifier.
Qed.

Lemma declared_type_must_be_keyword_witness :
  let toks := [ Token.mk "KEYWORD" "array" 1; Token.mk "IDENTIFIER" "xs" 1;
                Token.mk "SEMI" ";" 1 ] in
  Transpiler.transpile_property 5 (Transpiler.mk toks 0 [] 1)
  = Ok (tt, Transpiler.mk toks 3 ["    array xs;"] 1).
Proof.
  intros toks.
  exact (proj1 (proj2 declared_type_must_be_keyword) 5
           (Transpiler.mk toks 0 [] 1)
           (Token.mk "KEYWORD" "array" 1) (Token.mk "IDENTIFIER" "xs" 1)
           (Token.mk "SEMI" ";" 1)
           eq_refl eq_refl eq_refl eq_refl eq_refl eq_refl).
Defined.

(** C4, as stated, fails: a parameter and a return type whose type is the
    name of a class end the translation with a parse error, and a property
    of such a type is left out of the class without any error. *)
Lemma identifier_type_rejected :
  compile_lakbay 40 "class B { func f(A a) { } }"
  = Some "ERROR: Line 1: Expected KEYWORD, got IDENTIFIER"
  /\ compile_lakbay 40 "class B { func f() : A { } }"
     = Some "ERROR: Line 1: Expected KEYWORD, got IDENTIFIER"
  /\ compile_lakbay 40 "class B { A a; }"
     = Some (program [ nl ++ "class B {"; "public:"; "};" ]).
Proof. repeat split; vm_compute; reflexivity. Qed.

(** * Further properties *)

(** ** The state of the transpiler only grows *)

(** X1. A method of the class or of the statement grammar that returns has
    left the token sequence as it was, has not moved the cursor back and has
    only appended lines to the buffer: no line emitted before is changed or
    removed. *)
Theorem transpiler_state_only_grows fuel s s' :
  Transpiler.transpile_class fuel s = Ok (tt, s')
  \/ (exists c, Transpiler.transpile_method fuel c s = Ok (tt, s'))
  \/ Transpiler.transpile_property fuel s = Ok (tt, s')
  \/ Transpiler.transpile_block fuel s = Ok (tt, s')
  \/ Transpiler.transpile_statement fuel s = Ok (tt, s') ->
  TranspilerSpec.extends s s'.
Proof.
  assert (K : forall (m : M Transpiler.t unit),
            TranspilerSpec.sound (Transpiler.tokens s) m ->
            m s = Ok (tt, s') -> TranspilerSpec.extends s s').
  { intros m H E. specialize (H s eq_refl). now rewrite E in H. }
  intros [E | [[c E] | [E | [E | E]]]]; revert E; apply K.
  - apply TranspilerSound.transpile_class_sound.
  - apply TranspilerSound.transpile_method_sound.
  - apply TranspilerSound.transpile_property_sound.
  - apply (TranspilerSound.stmt_sound_all _ fuel).
  - apply (TranspilerSound.stmt_sound_all _ fuel).
Qed.

Lemma transpiler_state_only_grows_witness :
  let toks := [ Token.mk "KEYWORD" "class" 1; Token.mk "IDENTIFIER" "A" 1;
                Token.mk "LBRACE" "{" 1; Token.mk "KEYWORD" "int" 2;
                Token.mk "IDENTIFIER" "x" 2; Token.mk "SEMI" ";" 2;
                Token.mk "RBRACE" "}" 3 ] in
  TranspilerSpec.extends
    (Transpiler.mk toks 0 ["// before"] 0)
    (Transpiler.mk toks 7
       ["// before"; nl ++ "class A {"; "public:"; "    int x;"; "};"] 0).
Proof.
  intros toks.
  apply (transpiler_state_only_grows 10). left. vm_compute. reflexivity.
Defined.

(** ** Expressions move the cursor and nothing else *)

Module Cursor.
Import Transpiler MethodSpec CursorSpec.

Lemma at_pos_self s : s = at_pos s (pos s).
Proof. now destruct s. Qed.

Lemma adv_weaken k k' A (m : M t A) :
  advances k m -> k' <= k -> advances k' m.
Proof.
  intros H L s a s' E. destruct (H s a s' E). split; [auto | lia].
Qed.

Lemma adv_ret A (a : A) : advances 0 (ret a).
Proof.
  intros s b s' E. injection E as <- <-. split; [apply at_pos_self | lia].
Qed.

Lemma adv_raise k A e : advances k (@raise t A e).
Proof. intros s a s' E. discriminate. Qed.

Lemma adv_timeout k A : advances k (@timeout t A).
Proof. intros s a s' E. discriminate. Qed.

Lemma adv_gets A (f : t -> A) : advances 0 (gets f).
Proof.
  intros s b s' E. injection E as <- <-. split; [apply at_pos_self | lia].
Qed.

Lemma adv_get_type o : advances 0 (get_type o).
Proof. destruct o; [apply adv_ret | apply adv_raise]. Qed.

Lemma adv_advance : advances 1 advance.
Proof. intros s b s' E. injection E as <- <-. split; [reflexivity | simpl; lia]. Qed.

Lemma adv_bind k1 k2 k A B (m : M t A) (f : A -> M t B) :
  advances k1 m -> (forall a, advances k2 (f a)) -> k <= k1 + k2 ->
  advances k (bind m f).
Proof.
  intros Hm Hf L s b s' E.
  destruct (bind_inv _ _ _ _ E) as (a & s1 & E1 & E2).
  destruct (Hm _ _ _ E1) as [Q1 L1].
  destruct (Hf a _ _ _ E2) as [Q2 L2].
  split; [| lia].
  rewrite Q2. rewrite Q1 at 1. reflexivity.
Qed.

Lemma adv_expect ty v : advances 1 (expect ty v).
Proof.
  assert (Hadv : forall tok : Token.t, advances 1 (advance ;;; ret tok)).
  { intros tok. apply (adv_bind 1 0); [apply adv_advance | intros; apply adv_ret | lia]. }
  unfold expect.
  apply (adv_bind 0 1); [apply adv_gets | | lia].
  intros [tok |]; [| apply adv_raise].
  destruct (negb (Token.type tok =? ty)); [apply adv_raise |].
  destruct v as [v |]; [| apply Hadv].
  destruct (truthy (Some v) && negb (Token.value tok =? v))%bool;
    [apply adv_raise | apply Hadv].
Qed.

(** Proves a goal [advances k m], with [k] 0 or 1, along the shape of
    [m]. *)
Ltac adv_leaf :=
  first
    [ apply adv_raise
    | apply adv_timeout
    | eapply adv_weaken;
      [ first
          [ apply adv_ret
          | apply adv_advance
          | apply adv_expect
          | apply adv_get_type
          | apply adv_gets
          | match goal with
            | H : forall x, advances _ (?f ?n x) |- advances _ (?f ?n _) =>
                apply H
            | H : advances _ ?a |- advances _ ?a => exact H
            end ]
      | lia ] ].

Ltac adv_tac :=
  cbv zeta;
  lazymatch goal with
  | |- advances _ (if ?b then _ else _) => destruct b; adv_tac
  | |- advances _ (match ?x with _ => _ end) => destruct x; adv_tac
  | |- advances ?k (bind _ _) =>
      first
        [ solve [ apply (adv_bind k 0);
                  [ adv_tac | intros ?; adv_tac | lia ] ]
        | solve [ apply (adv_bind 0 k);
                  [ adv_tac | intros ?; adv_tac | lia ] ] ]
  | |- _ => solve [ adv_leaf ]
  end.

Lemma expr_advances_all n : expr_advances n.
Proof.
  induction n as [| n IH].
  - constructor; intros; apply adv_timeout.
  - destruct IH. constructor; intros; simpl; adv_tac.
Qed.

End Cursor.

(** X2. An expression that is accepted emits nothing by itself:
    [transpile_expression] returns its text and changes nothing of the state
    but the cursor, which it moves forward by one token at least. *)
Theorem expression_moves_cursor_only fuel s v s' :
  Transpiler.transpile_expression fuel s = Ok (v, s') ->
  s' = MethodSpec.at_pos s (Transpiler.pos s')
  /\ Transpiler.pos s < Transpiler.pos s'.
Proof.
  intros E.
  destruct (CursorSpec.ea_expression _ (Cursor.expr_advances_all fuel)
              _ _ _ E) as [Q L].
  split; [exact Q | lia].
Qed.

Lemma expression_moves_cursor_only_witness :
  let toks := [ Token.mk "IDENTIFIER" "f" 1; Token.mk "LPAREN" "(" 1;
                Token.mk "NUMBER" "1" 1; Token.mk "RPAREN" ")" 1;
                Token.mk "SEMI" ";" 1 ] in
  Transpiler.mk toks 4 ["int x;"] 2
  = MethodSpec.at_pos (Transpiler.mk toks 0 ["int x;"] 2) 4
  /\ 0 < 4.
Proof.
  intros toks.
  apply (expression_moves_cursor_only 40
           (Transpiler.mk toks 0 ["int x;"] 2) "f(1)"
           (Transpiler.mk toks 4 ["int x;"] 2)).
  vm_compute. reflexivity.
Defined.

(** ** Expressions always return *)

Module Termination.
Import Transpiler MethodSpec CursorSpec Cursor TerminationSpec.

Lemma returns_lo lo b A (m : M t A) : returns 0 b m -> returns lo b m.
Proof. intros H s L. apply H. lia. Qed.

Lemma returns_pos b A (m : M t A) :
  (1 <= b -> returns 1 b m) -> returns 1 b m.
Proof. intros H s L. apply H; lia. Qed.

Lemma returns_ret lo b A (a : A) : returns lo b (ret a).
Proof. intros s _. discriminate. Qed.

Lemma returns_raise lo b A e : returns lo b (@raise t A e).
Proof. intros s _. discriminate. Qed.

Lemma remaining_some s tok :
  nth_error (tokens s) (pos s) = Some tok -> 1 <= remaining s.
Proof.
  intros E. unfold remaining.
  assert (pos s < length (tokens s)) by (apply nth_error_Some; congruence).
  lia.
Qed.

Lemma returns_cur_is lo b p A (k : bool -> M t A) :
  returns 1 b (k true) -> returns lo b (k false) ->
  returns lo b (bind (cur_is p) k).
Proof.
  intros Ht Hf s L. unfold bind, cur_is, gets.
  destruct (nth_error (tokens s) (pos s)) as [tok |] eqn:E.
  - apply remaining_some in E.
    destruct (p tok); [apply Ht | apply Hf]; lia.
  - now apply Hf.
Qed.

Lemma returns_current lo b A (k : option Token.t -> M t A) :
  (forall tok, returns 1 b (k (Some tok))) -> returns lo b (k None) ->
  returns lo b (bind current k).
Proof.
  intros Hs Hn s L. unfold bind, current, gets.
  destruct (nth_error (tokens s) (pos s)) as [tok |] eqn:E.
  - apply remaining_some in E. apply Hs. lia.
  - now apply Hn.
Qed.

Lemma returns_get_type lo b o A (k : string -> M t A) :
  (forall ty, returns lo b (k ty)) -> returns lo b (bind (get_type o) k).
Proof.
  intros H s L. destruct o; unfold bind, get_type, ret, raise.
  - now apply H.
  - discriminate.
Qed.

Lemma returns_advance b A (k : unit -> M t A) :
  returns 0 (b - 1) (k tt) -> returns 1 b (bind advance k).
Proof.
  intros H s L. unfold bind, advance, modify. apply H.
  unfold remaining in *. simpl. lia.
Qed.

Lemma returns_expect lo b ty v A (k : Token.t -> M t A) :
  (forall tok, 1 <= b -> returns 0 (b - 1) (k tok)) ->
  returns lo b (bind (expect ty v) k).
Proof.
  intros H s L. unfold bind.
  destruct (expect ty v s) as [[tok s'] | e |] eqn:E; try discriminate.
  - apply Members.expect_inv in E. destruct E as (E & _ & ->).
    apply remaining_some in E. apply H; [lia |].
    unfold remaining in *. simpl. lia.
  - exfalso. revert E. unfold expect, bind, current, gets, raise.
    destruct (nth_error (tokens s) (pos s)); [| discriminate].
    destruct (negb _); [discriminate |].
    destruct v; [destruct (_ && _) |]; discriminate.
Qed.

Lemma returns_ret_bind lo b A B (a : A) (k : A -> M t B) :
  returns lo b (k a) -> returns lo b (bind (ret a) k).
Proof. intros H s L. unfold bind, ret. now apply H. Qed.

Lemma returns_call lo b d A B (m : M t A) (k : A -> M t B) :
  returns 0 b m -> advances d m ->
  (forall a, returns 0 (b - d) (k a)) ->
  returns lo b (bind m k).
Proof.
  intros Hm Ha Hk s L. unfold bind.
  destruct (m s) as [[a s'] | e |] eqn:E.
  - destruct (Ha _ _ _ E) as [Q P]. apply Hk.
    rewrite Q. unfold remaining in *. simpl. lia.
  - discriminate.
  - exfalso. apply (Hm s); [lia | exact E].
Qed.

Ltac returns_ih :=
  match goal with
  | H : forall b, _ -> returns 0 b ?m |- returns 0 _ ?m => apply H; lia
  | H : forall x b, _ -> returns 0 b (?f ?n x) |- returns 0 _ (?f ?n _) =>
      apply H; lia
  end.

Ltac advances_fact :=
  match goal with
  | H : advances _ ?m |- advances _ ?m => exact H
  | H : forall x, advances _ (?f ?n x) |- advances _ (?f ?n _) => apply H
  end.

(** Proves a goal [returns lo b m] along the shape of [m]: a guard tells
    that a token remains, [advance] and [expect] consume one, and a call
    is covered by the hypotheses on the lower fuel. *)
Ltac returns_tac :=
  cbv beta iota zeta;
  lazymatch goal with
  | |- returns _ _ (if ?c then _ else _) => destruct c; returns_tac
  | |- returns _ _ (match ?x with _ => _ end) => destruct x; returns_tac
  | |- returns _ _ (bind (cur_is _) _) =>
      apply returns_cur_is;
      [ apply returns_pos; intros ?; returns_tac | returns_tac ]
  | |- returns _ _ (bind current _) =>
      apply returns_current;
      [ intros ?; apply returns_pos; intros ?; returns_tac | returns_tac ]
  | |- returns _ _ (bind (get_type _) _) =>
      apply returns_get_type; intros ?; returns_tac
  | |- returns 1 _ (bind advance _) => apply returns_advance; returns_tac
  | |- returns _ _ (bind (expect _ _) _) =>
      apply returns_expect; intros ? ?; returns_tac
  | |- returns _ _ (bind (ret _) _) => apply returns_ret_bind; returns_tac
  | |- returns _ _ (bind _ _) =>
      eapply returns_call;
      [ returns_ih | advances_fact | intros ?; returns_tac ]
  | |- returns _ _ (ret _) => apply returns_ret
  | |- returns _ _ (raise _) => apply returns_raise
  | |- returns _ _ _ => apply returns_lo; returns_ih
  end.

Lemma expr_returns_all n : expr_returns n.
Proof.
  induction n as [| n IH].
  - constructor; intros; lia.
  - destruct IH. destruct (expr_advances_all n).
    constructor; intros; simpl.
    all: returns_tac.
Qed.

End Termination.

(** X3. The expression grammar never loops: in every state
    [transpile_expression] returns or raises, as soon as the fuel covers
    twelve calls for each token that remains and the ten levels from
    [transpile_expression] down to [transpile_primary]. *)
Theorem expression_always_returns fuel s :
  12 * (length (Transpiler.tokens s) - Transpiler.pos s) + 10 <= fuel ->
  Transpiler.transpile_expression fuel s <> Timeout.
Proof.
  intros H.
  apply (TerminationSpec.er_expression _ (Termination.expr_returns_all fuel)
           (length (Transpiler.tokens s) - Transpiler.pos s) H s).
  unfold TerminationSpec.remaining. lia.
Qed.

Lemma expression_always_returns_witness :
  Transpiler.transpile_expression 34
    (Transpiler.init [ Token.mk "LPAREN" "(" 1; Token.mk "LPAREN" "(" 1 ])
  <> Timeout.
Proof.
  apply expression_always_returns. simpl. lia.
Defined.

(** ** Statements that make no progress *)

Module Progress.
Import Transpiler TranspilerSpec TranspilerSound MethodSpec CursorSpec Cursor.

Lemma progresses_adv A (m : M t A) : advances 1 m -> progresses m.
Proof. intros H s a s' E. destruct (H _ _ _ E). lia. Qed.

Lemma progresses_bind A B (m : M t A) (k : A -> M t B) :
  progresses m -> (forall toks a, sound toks (k a)) ->
  progresses (bind m k).
Proof.
  intros Hm Hk s b s' E.
  destruct (bind_inv _ _ _ _ E) as (a & s1 & E1 & E2).
  specialize (Hm _ _ _ E1).
  specialize (Hk (tokens s1) a s1 eq_refl). rewrite E2 in Hk.
  destruct Hk as (_ & L & _). lia.
Qed.

Lemma progresses_timeout A : progresses (@timeout t A).
Proof. intros s a s' E. discriminate. Qed.

Ltac starts_with_expect :=
  apply progresses_bind;
  [ apply progresses_adv, adv_expect | intros toks ? ].

Lemma transpile_if_progresses n : progresses (transpile_if n).
Proof.
  destruct n as [| n]; [apply progresses_timeout |].
  simpl. starts_with_expect.
  destruct (expr_sound_all toks n), (stmt_sound_all toks n). sound_tac.
Qed.

Lemma transpile_while_progresses n : progresses (transpile_while n).
Proof.
  destruct n as [| n]; [apply progresses_timeout |].
  simpl. starts_with_expect.
  destruct (expr_sound_all toks n), (stmt_sound_all toks n). sound_tac.
Qed.

Lemma transpile_for_progresses n : progresses (transpile_for n).
Proof.
  destruct n as [| n]; [apply progresses_timeout |].
  simpl. starts_with_expect.
  destruct (expr_sound_all toks n), (stmt_sound_all toks n). sound_tac.
Qed.

Lemma transpile_print_progresses n : progresses (transpile_print n).
Proof.
  unfold transpile_print. starts_with_expect.
  destruct (expr_sound_all toks n). sound_tac.
Qed.

Lemma transpile_var_declaration_progresses n :
  progresses (transpile_var_declaration n).
Proof.
  unfold transpile_var_declaration. starts_with_expect.
  destruct (expr_sound_all toks n). sound_tac.
Qed.

Lemma statement_progresses n s tok u s' :
  transpile_statement n s = Ok (u, s') ->
  nth_error (tokens s) (pos s) = Some tok ->
  unhandled_keyword tok = false ->
  pos s < pos s'.
Proof.
  destruct n as [| n]; [discriminate |].
  intros E C U. simpl in E. unfold bind at 1, current, gets in E.
  rewrite C in E. unfold unhandled_keyword in U.
  destruct (Token.type tok =? "KEYWORD").
  - simpl in U. apply negb_false_iff in U.
    destruct (Token.value tok =? "return").
    { revert E. apply progresses_bind.
      - apply progresses_adv, adv_advance.
      - intros toks ?. destruct (expr_sound_all toks n). sound_tac. }
    destruct (Token.value tok =? "if");
      [exact (transpile_if_progresses _ _ _ _ E) |].
    destruct (Token.value tok =? "while");
      [exact (transpile_while_progresses _ _ _ _ E) |].
    destruct (Token.value tok =? "for");
      [exact (transpile_for_progresses _ _ _ _ E) |].
    destruct (Token.value tok =? "print");
      [exact (transpile_print_progresses _ _ _ _ E) |].
    match type of E with
    | (if ?c then _ else _) _ = _ => destruct c eqn:M
    end; [exact (transpile_var_declaration_progresses _ _ _ _ E) |].
    simpl in U. congruence.
  - revert E. apply progresses_bind.
    + apply progresses_adv. apply (expr_advances_all n).
    + intros toks ?. sound_tac.
Qed.

End Progress.

(** X4. A statement that returns has consumed a token, unless it starts
    with a keyword that [transpile_statement] has no branch for: such a
    keyword is the only start of a statement that returns with the cursor
    where it was. *)
Theorem statement_stalls_only_on_unhandled_keyword fuel s tok s' :
  Transpiler.transpile_statement fuel s = Ok (tt, s') ->
  nth_error (Transpiler.tokens s) (Transpiler.pos s) = Some tok ->
  (Transpiler.pos s < Transpiler.pos s' <-> unhandled_keyword tok = false).
Proof.
  intros E C. split.
  - intros L. destruct (unhandled_keyword tok) eqn:U; [| reflexivity].
    destruct fuel as [| n]; [discriminate |].
    rewrite (Stuck.statement_no_progress n s tok C U) in E.
    injection E as <-. lia.
  - exact (Progress.statement_progresses fuel s tok tt s' E C).
Qed.

Lemma statement_stalls_only_on_unhandled_keyword_witness :
  let toks := [ Token.mk "KEYWORD" "return" 1; Token.mk "NUMBER" "1" 1;
                Token.mk "SEMI" ";" 1 ] in
  0 < 3 <-> unhandled_keyword (Token.mk "KEYWORD" "return" 1) = false.
Proof.
  intros toks.
  apply (statement_stalls_only_on_unhandled_keyword 20
           (Transpiler.mk toks 0 [] 0) (Token.mk "KEYWORD" "return" 1)
           (Transpiler.mk toks 3 ["return 1;"] 0)).
  - vm_compute. reflexivity.
  - reflexivity.
Defined.

(** ** Indentation *)

Module Level.
Import Transpiler TranspilerSpec TranspilerSound MethodSpec CursorSpec Cursor.
Import IndentSpec.

Lemma sh_adv k A (m : M t A) : advances k m -> shifts 0 m.
Proof.
  intros H s a s' E. destruct (H _ _ _ E) as [-> _]. simpl. lia.
Qed.

Lemma sh_ret A (a : A) : shifts 0 (ret a).
Proof. intros s b s' E. injection E as <- <-. lia. Qed.

Lemma sh_raise d A e : shifts d (@raise t A e).
Proof. intros s a s' E. discriminate. Qed.

Lemma sh_timeout d A : shifts d (@timeout t A).
Proof. intros s a s' E. discriminate. Qed.

Lemma sh_append l : shifts 0 (append l).
Proof. intros s b s' E. injection E as <- <-. simpl. lia. Qed.

Lemma sh_write c : shifts 0 (write c).
Proof. intros s b s' E. injection E as <- <-. simpl. lia. Qed.

Lemma sh_indent_add d : shifts d (indent_add d).
Proof. intros s b s' E. injection E as <- <-. reflexivity. Qed.

Lemma sh_bind d1 d2 d A B (m : M t A) (k : A -> M t B) :
  shifts d1 m -> (forall a, shifts d2 (k a)) -> d = (d1 + d2)%Z ->
  shifts d (bind m k).
Proof.
  intros Hm Hk -> s b s' E.
  destruct (bind_inv _ _ _ _ E) as (a & s1 & E1 & E2).
  rewrite (Hk _ _ _ _ E2), (Hm _ _ _ E1). lia.
Qed.

Ltac sh_leaf :=
  first
    [ apply sh_raise
    | apply sh_timeout
    | apply sh_ret
    | apply sh_write
    | apply sh_append
    | apply sh_indent_add
    | match goal with
      | H : forall x, shifts _ (?f ?n x) |- shifts _ (?f ?n _) => apply H
      | H : shifts _ ?a |- shifts _ ?a => exact H
      end
    | eapply sh_adv;
      first [ apply adv_advance | apply adv_expect | apply adv_get_type
            | apply adv_gets
            | match goal with
              | H : forall x, advances _ (?f ?n x) |- advances _ (?f ?n _) =>
                  apply H
              | H : advances _ ?a |- advances _ ?a => exact H
              end ] ].

(** Proves a goal [shifts d m] along the shape of [m]; only [indent_add]
    changes the level. *)
Ltac sh_tac :=
  cbv zeta;
  lazymatch goal with
  | |- shifts _ (if ?b then _ else _) => destruct b; sh_tac
  | |- shifts _ (match ?x with _ => _ end) => destruct x; sh_tac
  | |- shifts ?d (bind (indent_add ?e) _) =>
      let d2 := eval compute in (d - e)%Z in
      apply (sh_bind e d2);
      [ apply sh_indent_add | intros ?; sh_tac | reflexivity ]
  | |- shifts ?d (bind _ _) =>
      apply (sh_bind 0 d); [ sh_tac | intros ?; sh_tac | reflexivity ]
  | |- _ => solve [ sh_leaf ]
  end.

Lemma transpile_print_level n : shifts 0 (transpile_print n).
Proof.
  destruct (expr_advances_all n). unfold transpile_print. sh_tac.
Qed.

Lemma transpile_var_declaration_level n :
  shifts 0 (transpile_var_declaration n).
Proof.
  destruct (expr_advances_all n). unfold transpile_var_declaration. sh_tac.
Qed.

Lemma stmt_level_all n : stmt_level n.
Proof.
  induction n as [| n IH].
  - constructor; intros; apply sh_timeout.
  - destruct IH. destruct (expr_advances_all n).
    assert (Hp := transpile_print_level n).
    assert (Hv := transpile_var_declaration_level n).
    constructor; intros; simpl; sh_tac.
Qed.

Lemma transpile_property_level n : shifts 0 (transpile_property n).
Proof.
  destruct (expr_advances_all n). unfold transpile_property. sh_tac.
Qed.

Lemma params_loop_advances n : forall ps, advances 0 (params_loop n ps).
Proof.
  induction n as [| n IH]; intros ps; [apply adv_timeout |].
  simpl. adv_tac.
Qed.

Lemma transpile_method_level n c : shifts 0 (transpile_method n c).
Proof.
  destruct (stmt_level_all n).
  assert (Hp := params_loop_advances n).
  unfold transpile_method. sh_tac.
Qed.

Lemma class_body_loop_level n : forall c, shifts 0 (class_body_loop n c).
Proof.
  induction n as [| n IH]; intros c; [apply sh_timeout |].
  assert (Hm := transpile_method_level n).
  assert (Hp := transpile_property_level n).
  simpl. sh_tac.
Qed.

Lemma transpile_class_level n : shifts 0 (transpile_class n).
Proof.
  assert (Hb := class_body_loop_level n).
  unfold transpile_class. sh_tac.
Qed.

End Level.

(** X5. The indentation level is balanced: a class, a method, a property,
    a block or a statement that returns leaves [self.indent] as it found
    it. *)
Theorem indentation_restored fuel s s' :
  Transpiler.transpile_class fuel s = Ok (tt, s')
  \/ (exists c, Transpiler.transpile_method fuel c s = Ok (tt, s'))
  \/ Transpiler.transpile_property fuel s = Ok (tt, s')
  \/ Transpiler.transpile_block fuel s = Ok (tt, s')
  \/ Transpiler.transpile_statement fuel s = Ok (tt, s') ->
  Transpiler.indent s' = Transpiler.indent s.
Proof.
  assert (K : forall (m : M Transpiler.t unit),
            IndentSpec.shifts 0 m -> m s = Ok (tt, s') ->
            Transpiler.indent s' = Transpiler.indent s).
  { intros m H E. rewrite (H _ _ _ E). lia. }
  intros [E | [[c E] | [E | [E | E]]]]; revert E; apply K.
  - apply Level.transpile_class_level.
  - apply Level.transpile_method_level.
  - apply Level.transpile_property_level.
  - apply (Level.stmt_level_all fuel).
  - apply (Level.stmt_level_all fuel).
Qed.

Lemma indentation_restored_witness :
  let toks := [ Token.mk "KEYWORD" "while" 1; Token.mk "LPAREN" "(" 1;
                Token.mk "IDENTIFIER" "a" 1; Token.mk "RPAREN" ")" 1;
                Token.mk "LBRACE" "{" 1; Token.mk "KEYWORD" "return" 2;
                Token.mk "SEMI" ";" 2; Token.mk "RBRACE" "}" 3 ] in
  Transpiler.indent
    (Transpiler.mk toks 8
       ["    while (a) {"; "        return;"; "    }"] 1)
  = Transpiler.indent (Transpiler.mk toks 0 [] 1).
Proof.
  intros toks.
  apply (indentation_restored 20). do 4 right. vm_compute. reflexivity.
Defined.

Module Frame.
Import Transpiler TranspilerSpec TranspilerSound MethodSpec CursorSpec Cursor.
Import IndentSpec Level.

(** [s'] differs from [s] by the cursor only. *)
Lemma adv_same {k A} {m : M t A} {s a s'} :
  advances k m -> m s = Ok (a, s') ->
  output s' = output s /\ indent s' = indent s.
Proof. intros H E. destruct (H _ _ _ E) as [-> _]. auto. Qed.

Lemma body_grows {A} {m : M t A} {s a s'} :
  (forall toks, sound toks m) -> shifts 0 m -> m s = Ok (a, s') ->
  indent s' = indent s /\ exists l, output s' = (output s ++ l)%list.
Proof.
  intros Hs Hl E. split.
  - rewrite (Hl _ _ _ E). lia.
  - specialize (Hs (tokens s) s eq_refl). rewrite E in Hs.
    now destruct Hs as (_ & _ & H).
Qed.

Ltac fwd E a s1 H :=
  apply bind_inv in E; destruct E as (a & s1 & H & E).

(** The part that the constructs with a body share: the body one level
    deeper, then the closing line at the level of the start. *)
Lemma framed_tail (body : M t unit) (close : string) {s u s'} :
  (forall toks, sound toks body) -> shifts 0 body ->
  (indent_add 1 ;;; body ;;; indent_add (-1) ;;; write close ;;;
   expect "RBRACE" None ;;; ret tt) s = Ok (u, s') ->
  indent s' = indent s
  /\ exists l,
       output s' = (output s ++ l ++ [(margin s ++ close)%string])%list.
Proof.
  intros Hs Hl E.
  fwd E a1 s1 E1. injection E1 as <- <-.
  fwd E a2 s2 E2. destruct (body_grows Hs Hl E2) as [I2 [l O2]].
  simpl in I2, O2.
  fwd E a3 s3 E3. injection E3 as <- <-.
  fwd E a4 s4 E4. injection E4 as <- <-.
  fwd E a5 s5 E5. destruct (adv_same (adv_expect _ _) E5) as [O5 I5].
  injection E as <- <-. simpl in O5, I5.
  split; [lia |].
  exists l. rewrite O5, O2. unfold margin.
  replace (indent s2 + -1)%Z with (indent s) by lia.
  now rewrite <- app_assoc.
Qed.

Lemma write_frame {b : bool} {x y : string} {s u s1} :
  (if b then write x else write y) s = Ok (u, s1) ->
  exists header,
    output s1 = (output s ++ [(margin s ++ header)%string])%list
    /\ indent s1 = indent s.
Proof.
  destruct b; intros E; injection E as <- <-; eexists; split; reflexivity.
Qed.

Lemma method_frame fuel c s u s' :
  transpile_method fuel c s = Ok (u, s') ->
  indent s' = indent s
  /\ exists header body,
       output s'
       = (output s ++ [(margin s ++ header)%string] ++ body
          ++ [(margin s ++ "}")%string])%list.
Proof.
  unfold transpile_method. intros E.
  fwd E a1 s1 E1. destruct (adv_same (adv_expect _ _) E1) as [O1 I1].
  fwd E name s2 E2. destruct (adv_same (adv_expect _ _) E2) as [O2 I2].
  fwd E a3 s3 E3. destruct (adv_same (adv_expect _ _) E3) as [O3 I3].
  fwd E ps s4 E4.
  destruct (adv_same (params_loop_advances _ _) E4) as [O4 I4].
  fwd E a5 s5 E5. destruct (adv_same (adv_expect _ _) E5) as [O5 I5].
  fwd E b6 s6 E6. destruct (adv_same (adv_gets _ _) E6) as [O6 I6].
  fwd E rt s7 E7.
  match type of E7 with
  | ?m _ = _ => assert (A7 : advances 0 m) by (clear; adv_tac)
  end.
  destruct (adv_same A7 E7) as [O7 I7].
  fwd E a8 s8 E8. destruct (write_frame E8) as (header & O8 & I8).
  fwd E a9 s9 E9. destruct (adv_same (adv_expect _ _) E9) as [O9 I9].
  destruct (framed_tail _ _
              (fun toks => ss_block _ _ (stmt_sound_all toks fuel))
              (sl_block _ (stmt_level_all fuel)) E) as [I [body O]].
  assert (I' : indent s7 = indent s) by congruence.
  assert (O' : output s7 = output s) by congruence.
  split; [congruence |].
  exists header, body. rewrite O, O9, O8, O'. unfold margin.
  rewrite I9, I8, I'. now rewrite <- !app_assoc.
Qed.

Lemma while_frame fuel s u s' :
  transpile_while fuel s = Ok (u, s') ->
  indent s' = indent s
  /\ exists condition body,
       output s'
       = (output s
          ++ [(margin s ++ "while (" ++ condition ++ ") {")%string] ++ body
          ++ [(margin s ++ "}")%string])%list.
Proof.
  destruct fuel as [| n]; [discriminate |]. simpl. intros E.
  fwd E a1 s1 E1. destruct (adv_same (adv_expect _ _) E1) as [O1 I1].
  fwd E a2 s2 E2. destruct (adv_same (adv_expect _ _) E2) as [O2 I2].
  fwd E cond s3 E3.
  destruct (adv_same (ea_expression _ (expr_advances_all n)) E3)
    as [O3 I3].
  fwd E a4 s4 E4. destruct (adv_same (adv_expect _ _) E4) as [O4 I4].
  fwd E a5 s5 E5. destruct (adv_same (adv_expect _ _) E5) as [O5 I5].
  fwd E a6 s6 E6. injection E6 as <- <-.
  destruct (framed_tail _ _
              (fun toks => ss_block _ _ (stmt_sound_all toks n))
              (sl_block _ (stmt_level_all n)) E) as [I [body O]].
  simpl in I, O.
  assert (I' : indent s5 = indent s) by congruence.
  assert (O' : output s5 = output s) by congruence.
  split; [congruence |].
  exists cond, body. rewrite O, O'. unfold margin, written. simpl.
  rewrite I'. now rewrite <- !app_assoc.
Qed.

Lemma class_frame fuel s u s' :
  transpile_class fuel s = Ok (u, s') ->
  indent s' = indent s
  /\ exists name heritage body,
       nth_error (tokens s) (pos s + 1) = Some name
       /\ output s'
          = (output s
             ++ [(margin s ++ nl ++ "class " ++ Token.value name
                  ++ heritage ++ " {")%string;
                 (margin s ++ "public:")%string]
             ++ body ++ [(margin s ++ "};")%string])%list.
Proof.
  unfold transpile_class. intros E.
  fwd E a1 s1 E1. destruct (adv_same (adv_expect _ _) E1) as [O1 I1].
  apply Members.expect_inv in E1. destruct E1 as (_ & _ & P1).
  fwd E name s2 E2. destruct (adv_same (adv_expect _ _) E2) as [O2 I2].
  apply Members.expect_inv in E2. destruct E2 as (N2 & _ & _).
  rewrite P1 in N2. simpl in N2.
  fwd E b3 s3 E3. destruct (adv_same (adv_gets _ _) E3) as [O3 I3].
  fwd E parent s4 E4.
  match type of E4 with
  | ?m _ = _ => assert (A4 : advances 0 m) by (clear; adv_tac)
  end.
  destruct (adv_same A4 E4) as [O4 I4].
  fwd E a5 s5 E5. destruct (adv_same (adv_expect _ _) E5) as [O5 I5].
  fwd E a6 s6 E6. injection E6 as <- <-.
  fwd E a7 s7 E7. injection E7 as <- <-.
  destruct (framed_tail _ _
              (fun toks => class_body_loop_sound toks fuel _)
              (class_body_loop_level fuel _) E) as [I [body O]].
  simpl in I, O.
  assert (I' : indent s5 = indent s) by congruence.
  assert (O' : output s5 = output s) by congruence.
  split; [congruence |].
  eexists name, _, body. split; [exact N2 |].
  rewrite O, O'. unfold margin. rewrite I'.
  rewrite <- !app_assoc. simpl. reflexivity.
Qed.

End Frame.

(** X6. The lines of a method, of a while loop and of a class are framed:
    the header line comes first, the lines of the body follow, and the
    closing line comes last with the margin of the header line. *)
Theorem block_constructs_framed :
  (forall fuel c s s',
     Transpiler.transpile_method fuel c s = Ok (tt, s') ->
     exists header body,
       Transpiler.output s'
       = (Transpiler.output s ++ [(IndentSpec.margin s ++ header)%string]
          ++ body ++ [(IndentSpec.margin s ++ "}")%string])%list)
  /\ (forall fuel s s',
        Transpiler.transpile_while fuel s = Ok (tt, s') ->
        exists condition body,
          Transpiler.output s'
          = (Transpiler.output s
             ++ [(IndentSpec.margin s ++ "while (" ++ condition
                  ++ ") {")%string]
             ++ body ++ [(IndentSpec.margin s ++ "}")%string])%list)
  /\ (forall fuel s s',
        Transpiler.transpile_class fuel s = Ok (tt, s') ->
        exists name heritage body,
          nth_error (Transpiler.tokens s) (Transpiler.pos s + 1) = Some name
          /\ Transpiler.output s'
             = (Transpiler.output s
                ++ [(IndentSpec.margin s ++ nl ++ "class "
                     ++ Token.value name ++ heritage ++ " {")%string;
                    (IndentSpec.margin s ++ "public:")%string]
                ++ body ++ [(IndentSpec.margin s ++ "};")%string])%list).
Proof.
  split; [| split].
  - intros fuel c s s' E. exact (proj2 (Frame.method_frame _ _ _ _ _ E)).
  - intros fuel s s' E. exact (proj2 (Frame.while_frame _ _ _ _ E)).
  - intros fuel s s' E. exact (proj2 (Frame.class_frame _ _ _ _ E)).
Qed.

Lemma block_constructs_framed_witness :
  let toks := [ Token.mk "KEYWORD" "func" 1; Token.mk "IDENTIFIER" "f" 1;
                Token.mk "LPAREN" "(" 1; Token.mk "RPAREN" ")" 1;
                Token.mk "LBRACE" "{" 1; Token.mk "KEYWORD" "return" 2;
                Token.mk "SEMI" ";" 2; Token.mk "RBRACE" "}" 3 ] in
  exists header body,
    ["    void f() {"; "        return;"; "    }"]
    = ([] ++ [(IndentSpec.margin (Transpiler.mk toks 0 [] 1) ++ header)%string]
       ++ body
       ++ [(IndentSpec.margin (Transpiler.mk toks 0 [] 1) ++ "}")%string])%list.
Proof.
  intros toks.
  apply (proj1 block_constructs_framed 20 "A"
           (Transpiler.mk toks 0 [] 1)
           (Transpiler.mk toks 8
              ["    void f() {"; "        return;"; "    }"] 1)).
  vm_compute. reflexivity.
Defined.

(** ** Chains of operands *)

Lemma skipn_cons {A} (l : list A) p x rest :
  skipn p l = x :: rest ->
  nth_error l p = Some x /\ skipn (S p) l = rest /\ p < length l.
Proof.
  revert l. induction p as [| p IH]; intros [| y l] H; simpl in *;
    try discriminate.
  - injection H as -> ->. repeat split. lia.
  - destruct (IH l H) as (H1 & H2 & H3). repeat split; auto. lia.
Qed.

Module Chain.
Import Transpiler MethodSpec ChainSpec.

Lemma cur_is_false p s :
  match nth_error (tokens s) (pos s) with
  | Some tok => p tok = false
  | None => True
  end ->
  cur_is p s = Ok (false, s).
Proof.
  unfold cur_is, gets. destruct (nth_error (tokens s) (pos s)).
  - now intros ->.
  - reflexivity.
Qed.

Lemma cur_not_next tys s :
  next_not tys s -> cur_not tys (at_pos s (pos s + 1)).
Proof. exact (fun H => H). Qed.

Lemma cur_not_incl tys tys' s :
  (forall ty, mem ty tys' = false -> mem ty tys = false) ->
  cur_not tys' s -> cur_not tys s.
Proof.
  unfold cur_not. intros H. destruct (nth_error (tokens s) (pos s)); auto.
Qed.

Lemma mem_false_incl tys tys' ty :
  incl tys tys' -> mem ty tys' = false -> mem ty tys = false.
Proof.
  unfold mem. intros I H.
  destruct (existsb (String.eqb ty) tys) eqn:E; [| reflexivity].
  apply existsb_exists in E. destruct E as (x & Hin & Hx).
  rewrite <- H. symmetry. apply existsb_exists. exists x. auto.
Qed.

Lemma cur_not_sub tys tys' s :
  incl tys tys' -> cur_not tys' s -> cur_not tys s.
Proof.
  intros I. apply cur_not_incl. intros ty. now apply mem_false_incl.
Qed.

Lemma next_not_sub tys tys' s :
  incl tys tys' -> next_not tys' s -> next_not tys s.
Proof. intros I. apply (cur_not_sub tys tys' (at_pos s (pos s + 1)) I). Qed.

Ltac incl_tac :=
  let x := fresh in
  intros x; simpl; intuition (subst; auto 20).

Lemma primary_operand n s a :
  nth_error (tokens s) (pos s) = Some a ->
  operand a = true ->
  transpile_primary (S n) s = Ok (Token.value a, at_pos s (pos s + 1)).
Proof.
  intros E O. simpl. unfold bind at 1, current, gets. rewrite E.
  unfold operand in O. simpl in O.
  destruct (Token.type a =? "NUMBER") eqn:T1; [reflexivity |].
  simpl in O. rewrite orb_false_r in O.
  apply String.eqb_eq in O. rewrite O. reflexivity.
Qed.

Lemma postfix_loop_stop n e s :
  cur_not ["DOT"; "LPAREN"; "LBRACKET"; "ASSIGN"] s ->
  postfix_loop (S n) e s = Ok (e, s).
Proof.
  unfold cur_not. intros H. simpl. unfold bind at 1, current, gets.
  destruct (nth_error (tokens s) (pos s)) as [tok |]; [| reflexivity].
  simpl in H.
  repeat (apply orb_false_elim in H; destruct H as [-> H]).
  reflexivity.
Qed.

Lemma unary_operand n s a :
  nth_error (tokens s) (pos s) = Some a ->
  operand a = true ->
  next_not ["DOT"; "LPAREN"; "LBRACKET"; "ASSIGN"] s ->
  transpile_unary (S (S (S n))) s
  = Ok (Token.value a, at_pos s (pos s + 1)).
Proof.
  intros E O N.
  assert (P : transpile_postfix (S (S n)) s
              = Ok (Token.value a, at_pos s (pos s + 1))).
  { change (transpile_postfix (S (S n)))
      with (expr <- transpile_primary (S n) ;; postfix_loop (S n) expr).
    rewrite (bind_ok _ _ _ _ _ (primary_operand n s a E O)).
    now apply postfix_loop_stop. }
  change (transpile_unary (S (S (S n))))
    with (b <- cur_is (fun tok => mem (Token.type tok) ["MINUS"; "NOT"]) ;;
          if b then
            token <- current ;;
            ty <- get_type token ;;
            let op := if ty =? "MINUS" then "-" else "!" in
            advance ;;;
            operand <- transpile_unary (S (S n)) ;;
            ret (op ++ operand)
          else transpile_postfix (S (S n))).
  assert (C : cur_not ["MINUS"; "NOT"] s).
  { unfold cur_not. rewrite E. unfold operand in O. simpl in O. simpl.
    destruct (Token.type a =? "NUMBER") eqn:T1.
    - apply String.eqb_eq in T1. now rewrite T1.
    - simpl in O. rewrite orb_false_r in O. apply String.eqb_eq in O.
      now rewrite O. }
  rewrite (bind_ok _ _ _ _ _ (cur_is_false _ s C)). exact P.
Qed.

Lemma factor_loop_stop n l s :
  cur_not ["MULT"; "DIV"] s -> factor_loop (S n) l s = Ok (l, s).
Proof.
  intros H. simpl. now rewrite (bind_ok _ _ _ _ _ (cur_is_false _ s H)).
Qed.

Lemma term_loop_stop n l s :
  cur_not ["PLUS"; "MINUS"] s -> term_loop (S n) l s = Ok (l, s).
Proof.
  intros H. simpl. now rewrite (bind_ok _ _ _ _ _ (cur_is_false _ s H)).
Qed.

Lemma comparison_loop_stop n l s :
  cur_not ["LT"; "GT"; "LEQ"; "GEQ"] s ->
  comparison_loop (S n) l s = Ok (l, s).
Proof.
  intros H. simpl. now rewrite (bind_ok _ _ _ _ _ (cur_is_false _ s H)).
Qed.

Lemma equality_loop_stop n l s :
  cur_not ["EQ"; "NEQ"] s -> equality_loop (S n) l s = Ok (l, s).
Proof.
  intros H. simpl. now rewrite (bind_ok _ _ _ _ _ (cur_is_false _ s H)).
Qed.

Lemma logical_and_loop_stop n l s :
  cur_not ["AND"] s -> logical_and_loop (S n) l s = Ok (l, s).
Proof.
  intros H.
  assert (C : match nth_error (tokens s) (pos s) with
              | Some tok => is_type "AND" tok = false
              | None => True
              end).
  { unfold cur_not, is_type in *.
    destruct (nth_error (tokens s) (pos s)); auto.
    simpl in H. now rewrite orb_false_r in H. }
  simpl. now rewrite (bind_ok _ _ _ _ _ (cur_is_false _ s C)).
Qed.

Lemma logical_or_loop_stop n l s :
  cur_not ["OR"] s -> logical_or_loop (S n) l s = Ok (l, s).
Proof.
  intros H.
  assert (C : match nth_error (tokens s) (pos s) with
              | Some tok => is_type "OR" tok = false
              | None => True
              end).
  { unfold cur_not, is_type in *.
    destruct (nth_error (tokens s) (pos s)); auto.
    simpl in H. now rewrite orb_false_r in H. }
  simpl. now rewrite (bind_ok _ _ _ _ _ (cur_is_false _ s C)).
Qed.

Lemma factor_operand n s a :
  nth_error (tokens s) (pos s) = Some a ->
  operand a = true ->
  next_not ["DOT"; "LPAREN"; "LBRACKET"; "ASSIGN"; "MULT"; "DIV"] s ->
  transpile_factor (S (S (S (S n)))) s
  = Ok (Token.value a, at_pos s (pos s + 1)).
Proof.
  intros E O N.
  assert (N1 : next_not ["DOT"; "LPAREN"; "LBRACKET"; "ASSIGN"] s)
    by (revert N; apply next_not_sub; incl_tac).
  assert (N2 : next_not ["MULT"; "DIV"] s)
    by (revert N; apply next_not_sub; incl_tac).
  change (transpile_factor (S (S (S (S n)))))
    with (left <- transpile_unary (S (S (S n))) ;;
          factor_loop (S (S (S n))) left).
  rewrite (bind_ok _ _ _ _ _ (unary_operand n s a E O N1)).
  now apply factor_loop_stop.
Qed.

Lemma expression_operand n s a :
  nth_error (tokens s) (pos s) = Some a ->
  operand a = true ->
  next_not continuations s ->
  transpile_expression (11 + n) s
  = Ok (Token.value a, at_pos s (pos s + 1)).
Proof.
  intros E O N.
  assert (C : forall tys, incl tys continuations ->
                cur_not tys (at_pos s (pos s + 1))).
  { intros tys I. apply cur_not_next. revert N. now apply next_not_sub. }
  assert (F : transpile_factor (5 + n) s
              = Ok (Token.value a, at_pos s (pos s + 1))).
  { apply (factor_operand (S n)); auto.
    revert N. apply next_not_sub. incl_tac. }
  assert (T : transpile_term (6 + n) s
              = Ok (Token.value a, at_pos s (pos s + 1))).
  { change (transpile_term (6 + n))
      with (left <- transpile_factor (5 + n) ;; term_loop (5 + n) left).
    rewrite (bind_ok _ _ _ _ _ F). apply term_loop_stop, C. incl_tac. }
  assert (Cm : transpile_comparison (7 + n) s
               = Ok (Token.value a, at_pos s (pos s + 1))).
  { change (transpile_comparison (7 + n))
      with (left <- transpile_term (6 + n) ;; comparison_loop (6 + n) left).
    rewrite (bind_ok _ _ _ _ _ T). apply comparison_loop_stop, C.
    incl_tac. }
  assert (Eq : transpile_equality (8 + n) s
               = Ok (Token.value a, at_pos s (pos s + 1))).
  { change (transpile_equality (8 + n))
      with (left <- transpile_comparison (7 + n) ;;
            equality_loop (7 + n) left).
    rewrite (bind_ok _ _ _ _ _ Cm). apply equality_loop_stop, C.
    incl_tac. }
  assert (An : transpile_logical_and (9 + n) s
               = Ok (Token.value a, at_pos s (pos s + 1))).
  { change (transpile_logical_and (9 + n))
      with (left <- transpile_equality (8 + n) ;;
            logical_and_loop (8 + n) left).
    rewrite (bind_ok _ _ _ _ _ Eq). apply logical_and_loop_stop, C.
    incl_tac. }
  change (transpile_expression (11 + n))
    with (left <- transpile_logical_and (9 + n) ;;
          logical_or_loop (9 + n) left).
  rewrite (bind_ok _ _ _ _ _ An). apply logical_or_loop_stop, C. incl_tac.
Qed.

Lemma at_cursor (s : t) x rest :
  skipn (pos s) (tokens s) = x :: rest ->
  nth_error (tokens s) (pos s) = Some x
  /\ skipn (pos (at_pos s (pos s + 1))) (tokens (at_pos s (pos s + 1)))
     = rest.
Proof.
  intros H. destruct (skipn_cons _ _ _ _ H) as (H1 & H2 & _).
  split; [exact H1 |]. simpl. now rewrite Nat.add_1_r.
Qed.

Lemma next_of_skipn (s : t) x rest tys :
  skipn (pos s) (tokens s) = x :: rest ->
  match rest with
  | [] => True
  | tok :: _ => mem (Token.type tok) tys = false
  end ->
  next_not tys s.
Proof.
  intros H R. destruct (at_cursor s x rest H) as [_ H2]. simpl in H2.
  unfold next_not. destruct rest as [| y rest].
  - destruct (nth_error (tokens s) (pos s + 1)) eqn:E; [| exact I].
    rewrite <- (Nat.add_0_r (pos s + 1)), <- nth_error_skipn, H2 in E.
    discriminate.
  - destruct (skipn_cons _ _ _ _ H2) as (-> & _). exact R.
Qed.

Lemma cur_is_true p (s : t) tok :
  nth_error (tokens s) (pos s) = Some tok -> p tok = true ->
  cur_is p s = Ok (true, s).
Proof. unfold cur_is, gets. now intros -> ->. Qed.

Lemma current_some (s : t) tok :
  nth_error (tokens s) (pos s) = Some tok -> current s = Ok (Some tok, s).
Proof. unfold current, gets. now intros ->. Qed.

Lemma ends_not tys x tail :
  ends_expression (x :: tail) = true -> incl tys continuations ->
  mem (Token.type x) tys = false.
Proof.
  unfold ends_expression. intros H I. apply negb_true_iff in H.
  revert H. now apply mem_false_incl.
Qed.

Lemma term_loop_chain rest : forall n s left tail,
  skipn (pos s) (tokens s) = (sum_tokens rest ++ tail)%list ->
  forallb summand rest = true ->
  ends_expression tail = true ->
  term_loop (5 + length rest + n) left s
  = Ok (fold_left
          (fun left p =>
             "(" ++ left ++ " "
             ++ (if Token.type (fst p) =? "PLUS" then "+" else "-")
             ++ " " ++ Token.value (snd p) ++ ")")
          rest left,
        at_pos s (pos s + 2 * length rest)).
Proof.
  induction rest as [| [op a] rest IH]; intros n s left tail Sk Hr Ht.
  - simpl in Sk. simpl. rewrite Nat.add_0_r, <- Cursor.at_pos_self.
    apply (term_loop_stop (4 + n)). unfold cur_not.
    destruct tail as [| x tail].
    + destruct (nth_error (tokens s) (pos s)) eqn:E; [| exact I].
      rewrite <- (Nat.add_0_r (pos s)), <- nth_error_skipn, Sk in E.
      discriminate.
    + destruct (skipn_cons _ _ _ _ Sk) as (-> & _).
      apply (ends_not _ _ _ Ht). incl_tac.
  - simpl in Sk, Hr. apply andb_prop in Hr. destruct Hr as [Hs Hr].
    unfold summand in Hs. apply andb_prop in Hs. destruct Hs as [Hop Ha].
    simpl in Hop, Ha.
    destruct (at_cursor _ _ _ Sk) as [Eop Sk1].
    destruct (at_cursor _ _ _ Sk1) as [Ea Sk2].
    assert (N : next_not
                  ["DOT"; "LPAREN"; "LBRACKET"; "ASSIGN"; "MULT"; "DIV"]
                  (at_pos s (pos s + 1))).
    { apply (next_of_skipn _ _ _ _ Sk1).
      destruct rest as [| [op' a'] rest];
        cbn [sum_tokens flat_map app fst snd].
      - destruct tail as [| x tail]; [exact I |].
        apply (ends_not _ _ _ Ht). incl_tac.
      - simpl in Hr. apply andb_prop in Hr. destruct Hr as [Hs' _].
        unfold summand in Hs'. apply andb_prop in Hs'.
        destruct Hs' as [Hop' _]. simpl in Hop'.
        apply orb_prop in Hop'. rewrite orb_false_r in Hop'.
        destruct Hop' as [Q | Q]; apply String.eqb_eq in Q; now rewrite Q. }
    change (term_loop (5 + length ((op, a) :: rest) + n) left)
      with (b <- cur_is (fun tok =>
                   mem (Token.type tok) ["PLUS"; "MINUS"]) ;;
            if b then
              token <- current ;;
              ty <- get_type token ;;
              let op := if ty =? "PLUS" then "+" else "-" in
              advance ;;;
              right <- transpile_factor (4 + (1 + length rest + n)) ;;
              term_loop (5 + length rest + n)
                ("(" ++ left ++ " " ++ op ++ " " ++ right ++ ")")
            else ret left).
    rewrite (bind_ok _ _ _ _ _ (cur_is_true _ s op Eop Hop)).
    rewrite (bind_ok _ _ _ _ _ (current_some s op Eop)).
    unfold get_type. unfold bind at 1, ret at 1. cbv zeta.
    unfold bind at 1, advance at 1, modify at 1.
    rewrite (bind_ok _ _ _ _ _
               (factor_operand (1 + length rest + n) _ a Ea Ha N)).
    rewrite (IH n _ _ tail Sk2 Hr Ht). simpl.
    f_equal. f_equal. unfold at_pos. simpl. f_equal. lia.
Qed.

Lemma cur_not_end (s : t) tail tys :
  skipn (pos s) (tokens s) = tail ->
  ends_expression tail = true -> incl tys continuations ->
  cur_not tys s.
Proof.
  intros Sk Ht Hi. unfold cur_not. destruct tail as [| x tail].
  - destruct (nth_error (tokens s) (pos s)) eqn:E; [| exact I].
    rewrite <- (Nat.add_0_r (pos s)), <- nth_error_skipn, Sk in E.
    discriminate.
  - destruct (skipn_cons _ _ _ _ Sk) as (-> & _).
    now apply (ends_not _ _ _ Ht).
Qed.

Lemma expression_sum first rest n s tail :
  skipn (pos s) (tokens s) = (first :: sum_tokens rest ++ tail)%list ->
  operand first = true ->
  forallb summand rest = true ->
  ends_expression tail = true ->
  transpile_expression (11 + length rest + n) s
  = Ok (sum_text first rest, at_pos s (pos s + 1 + 2 * length rest)).
Proof.
  intros Sk Hf Hr Ht.
  destruct (at_cursor _ _ _ Sk) as [E Sk1].
  set (s' := at_pos s (pos s + 1 + 2 * length rest)).
  assert (Sk' : skipn (pos s') (tokens s') = tail).
  { unfold s'. cbn [pos tokens at_pos] in *.
    replace (pos s + 1 + 2 * length rest)
      with (2 * length rest + (pos s + 1)) by lia.
    rewrite <- skipn_skipn, Sk1.
    clear. induction rest as [| [op a] rest IH]; [reflexivity |].
    simpl length. replace (2 * S (length rest)) with (S (S (2 * length rest)))
      by lia.
    exact IH. }
  assert (C : forall tys, incl tys continuations -> cur_not tys s')
    by (intros tys; now apply (cur_not_end s' tail)).
  assert (N : next_not
                ["DOT"; "LPAREN"; "LBRACKET"; "ASSIGN"; "MULT"; "DIV"] s).
  { apply (next_of_skipn _ _ _ _ Sk).
    destruct rest as [| [op' a'] rest];
      cbn [sum_tokens flat_map app fst snd].
    - destruct tail as [| x tail]; [exact I |].
      apply (ends_not _ _ _ Ht). incl_tac.
    - simpl in Hr. apply andb_prop in Hr. destruct Hr as [Hs' _].
      unfold summand in Hs'. apply andb_prop in Hs'.
      destruct Hs' as [Hop' _]. simpl in Hop'.
      apply orb_prop in Hop'. rewrite orb_false_r in Hop'.
      destruct Hop' as [Q | Q]; apply String.eqb_eq in Q; now rewrite Q. }
  assert (T : transpile_term (6 + length rest + n) s
              = Ok (sum_text first rest, s')).
  { change (transpile_term (6 + length rest + n))
      with (left <- transpile_factor (4 + (1 + length rest + n)) ;;
            term_loop (5 + length rest + n) left).
    rewrite (bind_ok _ _ _ _ _
               (factor_operand (1 + length rest + n) s first E Hf N)).
    rewrite (term_loop_chain rest n _ _ tail Sk1 Hr Ht).
    reflexivity. }
  assert (Cm : transpile_comparison (7 + length rest + n) s
               = Ok (sum_text first rest, s')).
  { change (transpile_comparison (7 + length rest + n))
      with (left <- transpile_term (6 + length rest + n) ;;
            comparison_loop (6 + length rest + n) left).
    rewrite (bind_ok _ _ _ _ _ T).
    apply (comparison_loop_stop (5 + length rest + n)), C. incl_tac. }
  assert (Eq : transpile_equality (8 + length rest + n) s
               = Ok (sum_text first rest, s')).
  { change (transpile_equality (8 + length rest + n))
      with (left <- transpile_comparison (7 + length rest + n) ;;
            equality_loop (7 + length rest + n) left).
    rewrite (bind_ok _ _ _ _ _ Cm).
    apply (equality_loop_stop (6 + length rest + n)), C. incl_tac. }
  assert (An : transpile_logical_and (9 + length rest + n) s
               = Ok (sum_text first rest, s')).
  { change (transpile_logical_and (9 + length rest + n))
      with (left <- transpile_equality (8 + length rest + n) ;;
            logical_and_loop (8 + length rest + n) left).
    rewrite (bind_ok _ _ _ _ _ Eq).
    apply (logical_and_loop_stop (7 + length rest + n)), C. incl_tac. }
  change (transpile_expression (11 + length rest + n))
    with (left <- transpile_logical_and (9 + length rest + n) ;;
          logical_or_loop (9 + length rest + n) left).
  rewrite (bind_ok _ _ _ _ _ An).
  apply (logical_or_loop_stop (8 + length rest + n)), C. incl_tac.
Qed.
End Chain.

(** X7. Sums group from the left, whatever their length: for an operand
    followed by any number of [+] or [-] and operand pairs, where no token
    that continues an expression follows, [transpile_expression] returns the
    operands parenthesised from the left, as in [(((a - b) + c) - d)], and
    stops after the last operand. *)
Theorem sums_group_from_the_left first rest tail n s :
  skipn (Transpiler.pos s) (Transpiler.tokens s)
  = (first :: ChainSpec.sum_tokens rest ++ tail)%list ->
  ChainSpec.operand first = true ->
  forallb ChainSpec.summand rest = true ->
  ChainSpec.ends_expression tail = true ->
  Transpiler.transpile_expression (11 + length rest + n) s
  = Ok (ChainSpec.sum_text first rest,
        MethodSpec.at_pos s (Transpiler.pos s + 1 + 2 * length rest)).
Proof. exact (Chain.expression_sum first rest n s tail). Qed.

Lemma sums_group_from_the_left_witness :
  let toks := [ Token.mk "NUMBER" "1" 1; Token.mk "MINUS" "-" 1;
                Token.mk "IDENTIFIER" "b" 1; Token.mk "PLUS" "+" 1;
                Token.mk "NUMBER" "3" 1; Token.mk "MINUS" "-" 1;
                Token.mk "NUMBER" "4" 1; Token.mk "SEMI" ";" 1 ] in
  Transpiler.transpile_expression 14 (Transpiler.init toks)
  = Ok ("(((1 - b) + 3) - 4)", Transpiler.mk toks 7 [] 0).
Proof.
  intros toks.
  exact (sums_group_from_the_left
           (Token.mk "NUMBER" "1" 1)
           [ (Token.mk "MINUS" "-" 1, Token.mk "IDENTIFIER" "b" 1);
             (Token.mk "PLUS" "+" 1, Token.mk "NUMBER" "3" 1);
             (Token.mk "MINUS" "-" 1, Token.mk "NUMBER" "4" 1) ]
           [Token.mk "SEMI" ";" 1] 0 (Transpiler.init toks)
           eq_refl eq_refl eq_refl eq_refl).
Defined.

Module Print.
Import Transpiler MethodSpec ChainSpec Chain.

Lemma operand_not ty a :
  operand a = true -> mem ty ["NUMBER"; "IDENTIFIER"] = false ->
  (Token.type a =? ty) = false.
Proof.
  unfold operand. intros O H.
  destruct (Token.type a =? ty) eqn:E; [| reflexivity].
  apply String.eqb_eq in E. subst ty. congruence.
Qed.

Lemma operand_ends a tail : operand a = true ->
  ends_expression (a :: tail) = true.
Proof.
  unfold operand, ends_expression. intros O. apply negb_true_iff.
  simpl in O. apply orb_prop in O. rewrite orb_false_r in O.
  destruct O as [Q | Q]; apply String.eqb_eq in Q; now rewrite Q.
Qed.

(** What follows an argument and its comma: an operand or the closing
    parenthesis. *)
Lemma args_head items rp tail :
  forallb argument items = true -> Token.type rp = "RPAREN" ->
  exists x l,
    (arg_tokens items ++ rp :: tail)%list = x :: l
    /\ mem (Token.type x) ["NUMBER"; "IDENTIFIER"; "RPAREN"] = true.
Proof.
  intros Hi Hrp. destruct items as [| [a oc] items].
  - exists rp, tail. split; [reflexivity | now rewrite Hrp].
  - cbn [forallb] in Hi. apply andb_prop in Hi. destruct Hi as [Ha _].
    unfold argument in Ha. apply andb_prop in Ha. destruct Ha as [Ha _].
    cbn [fst] in Ha. eexists a, _. split; [reflexivity |].
    unfold operand in Ha. simpl in Ha. apply orb_prop in Ha.
    rewrite orb_false_r in Ha.
    destruct Ha as [Q | Q]; apply String.eqb_eq in Q; now rewrite Q.
Qed.

Lemma head_not ty x :
  mem (Token.type x) ["NUMBER"; "IDENTIFIER"; "RPAREN"] = true ->
  mem ty ["NUMBER"; "IDENTIFIER"; "RPAREN"] = false ->
  (Token.type x =? ty) = false.
Proof.
  intros O H. destruct (Token.type x =? ty) eqn:E; [| reflexivity].
  apply String.eqb_eq in E. subst ty. congruence.
Qed.

Lemma head_ends x :
  mem (Token.type x) ["NUMBER"; "IDENTIFIER"; "RPAREN"] = true ->
  mem (Token.type x) continuations = false.
Proof.
  intros O. simpl in O.
  repeat (apply orb_prop in O; destruct O as [O | O]);
    try discriminate; apply String.eqb_eq in O; now rewrite O.
Qed.

Lemma args_loop_items items : forall n s acc rp tail,
  skipn (pos s) (tokens s) = (arg_tokens items ++ rp :: tail)%list ->
  forallb argument items = true ->
  Token.type rp = "RPAREN" ->
  args_loop (12 + length items + n) acc s
  = Ok ((acc ++ map (fun p => Token.value (fst p)) items)%list,
        at_pos s (pos s + length (arg_tokens items))).
Proof.
  induction items as [| [a oc] items IH]; intros n s acc rp tail Sk Hi Hrp.
  - cbn [arg_tokens flat_map app] in Sk.
    destruct (at_cursor _ _ _ Sk) as [E _].
    assert (C : match nth_error (tokens s) (pos s) with
                | Some tok => negb (Token.type tok =? "RPAREN") = false
                | None => True
                end) by now rewrite E, Hrp.
    simpl. rewrite (bind_ok _ _ _ _ _ (cur_is_false _ s C)).
    now rewrite app_nil_r, Nat.add_0_r, <- Cursor.at_pos_self.
  - cbn [arg_tokens flat_map app fst snd] in Sk.
    fold (arg_tokens items) in Sk.
    cbn [forallb] in Hi. apply andb_prop in Hi. destruct Hi as [Ha Hi].
    unfold argument in Ha. cbn [fst snd] in Ha.
    apply andb_prop in Ha. destruct Ha as [Ha Hc].
    destruct (at_cursor _ _ _ Sk) as [E Sk1].
    destruct (args_head items rp tail Hi Hrp) as (x & l & Hx & Tx).
    change (args_loop (12 + length ((a, oc) :: items) + n) acc)
      with (b <- cur_is (fun tok => negb (Token.type tok =? "RPAREN")) ;;
            if b then
              arg <- transpile_expression (11 + (1 + length items + n)) ;;
              c <- cur_is (is_type "COMMA") ;;
              (if c then advance else ret tt) ;;;
              args_loop (12 + length items + n) (acc ++ [arg])%list
            else ret acc).
    assert (R : negb (Token.type a =? "RPAREN") = true)
      by (rewrite (operand_not _ _ Ha); reflexivity).
    rewrite (bind_ok _ _ _ _ _
               (cur_is_true (fun tok => negb (Token.type tok =? "RPAREN"))
                  s a E R)).
    assert (N : next_not continuations s).
    { apply (next_of_skipn _ _ _ _ Sk). destruct oc as [comma |].
      - apply String.eqb_eq in Hc. simpl. now rewrite Hc.
      - cbn [app]. rewrite Hx. now apply head_ends. }
    rewrite (bind_ok _ _ _ _ _ (expression_operand _ s a E Ha N)).
    destruct oc as [comma |].
    + cbn [app] in Sk1. destruct (at_cursor _ _ _ Sk1) as [E1 Sk2].
      rewrite (bind_ok _ _ _ _ _ (cur_is_true _ _ comma E1 Hc)).
      unfold bind at 1, advance at 1, modify at 1.
      rewrite (IH n _ _ rp tail Sk2 Hi Hrp).
      cbn [map fst]. rewrite <- app_assoc. cbn [app].
      f_equal. f_equal. unfold at_pos. cbn [pos tokens output indent].
      f_equal. cbn [arg_tokens flat_map app fst snd length].
      fold (arg_tokens items). lia.
    + cbn [app] in Sk1.
      assert (C : match nth_error (tokens (at_pos s (pos s + 1)))
                          (pos (at_pos s (pos s + 1))) with
                  | Some tok => is_type "COMMA" tok = false
                  | None => True
                  end).
      { rewrite Hx in Sk1. destruct (at_cursor _ _ _ Sk1) as [-> _].
        apply (head_not _ _ Tx). reflexivity. }
      rewrite (bind_ok _ _ _ _ _ (cur_is_false _ _ C)).
      unfold bind at 1, ret at 1.
      rewrite (IH n _ _ rp tail Sk1 Hi Hrp).
      cbn [map fst]. rewrite <- app_assoc. cbn [app].
      f_equal. f_equal. unfold at_pos. cbn [pos tokens output indent].
      f_equal. cbn [arg_tokens flat_map app fst snd length].
      fold (arg_tokens items). lia.
Qed.

Lemma print_items kw lp rp semi items tail n s :
  skipn (pos s) (tokens s)
  = (kw :: lp :: arg_tokens items ++ rp :: semi :: tail)%list ->
  is_keyword "print" kw = true ->
  Token.type lp = "LPAREN" ->
  forallb argument items = true ->
  Token.type rp = "RPAREN" ->
  Token.type semi = "SEMI" ->
  transpile_print (12 + length items + n) s
  = Ok (tt,
        written (at_pos s (pos s + 4 + length (arg_tokens items)))
          (fold_left (fun acc arg => acc ++ " << " ++ arg)
             (map (fun p => Token.value (fst p)) items) "cout"
           ++ " << endl;")).
Proof.
  intros Sk Hkw Hlp Hi Hrp Hsemi.
  destruct (at_cursor _ _ _ Sk) as [E0 Sk1].
  destruct (at_cursor _ _ _ Sk1) as [E1 Sk2].
  unfold transpile_print.
  rewrite (bind_ok _ _ _ _ _ (Members.expect_keyword_ok s "print" kw E0 Hkw)).
  rewrite (bind_ok _ _ _ _ _ (Members.expect_ok _ "LPAREN" lp E1 Hlp)).
  rewrite (bind_ok _ _ _ _ _
             (args_loop_items items n _ [] rp (semi :: tail) Sk2 Hi Hrp)).
  match goal with
  | |- bind _ _ ?st = _ =>
      assert (Sk3 : skipn (pos st) (tokens st) = rp :: semi :: tail)
  end.
  { cbn [pos tokens at_pos] in *.
    rewrite Nat.add_comm, <- skipn_skipn, Sk2, skipn_app, skipn_all.
    now rewrite Nat.sub_diag. }
  destruct (at_cursor _ _ _ Sk3) as [E3 Sk4].
  destruct (at_cursor _ _ _ Sk4) as [E4 _].
  rewrite (bind_ok _ _ _ _ _ (Members.expect_ok _ "RPAREN" rp E3 Hrp)).
  rewrite (bind_ok _ _ _ _ _ (Members.expect_ok _ "SEMI" semi E4 Hsemi)).
  cbn [app]. unfold write, bind, gets, append, modify, written, at_pos.
  cbn [pos tokens output indent]. do 3 f_equal. lia.
Qed.

End Print.

(** X8. The commas of a print statement are optional: for the keyword
    [print], an opening parenthesis, operands that are each followed by a
    comma or by nothing, a closing parenthesis and a semicolon,
    [transpile_print] writes the line [cout << a << b ... << endl;] with the
    operands in order, whether a comma separates two of them or not. *)
Theorem print_commas_optional kw lp rp semi items tail n s :
  skipn (Transpiler.pos s) (Transpiler.tokens s)
  = (kw :: lp :: ChainSpec.arg_tokens items ++ rp :: semi :: tail)%list ->
  Transpiler.is_keyword "print" kw = true ->
  Token.type lp = "LPAREN" ->
  forallb ChainSpec.argument items = true ->
  Token.type rp = "RPAREN" ->
  Token.type semi = "SEMI" ->
  Transpiler.transpile_print (12 + length items + n) s
  = Ok (tt,
        MethodSpec.written
          (MethodSpec.at_pos s
             (Transpiler.pos s + 4 + length (ChainSpec.arg_tokens items)))
          (fold_left (fun acc arg => acc ++ " << " ++ arg)
             (map (fun p => Token.value (fst p)) items) "cout"
           ++ " << endl;")).
Proof. exact (Print.print_items kw lp rp semi items tail n s). Qed.

Lemma print_commas_optional_witness :
  let toks := [ Token.mk "KEYWORD" "print" 1; Token.mk "LPAREN" "(" 1;
                Token.mk "IDENTIFIER" "a" 1; Token.mk "NUMBER" "2" 1;
                Token.mk "COMMA" "," 1; Token.mk "IDENTIFIER" "c" 1;
                Token.mk "RPAREN" ")" 1; Token.mk "SEMI" ";" 1 ] in
  Transpiler.transpile_print 15 (Transpiler.mk toks 0 [] 1)
  = Ok (tt, Transpiler.mk toks 8 ["    cout << a << 2 << c << endl;"] 1).
Proof.
  intros toks.
  exact (print_commas_optional
           (Token.mk "KEYWORD" "print" 1) (Token.mk "LPAREN" "(" 1)
           (Token.mk "RPAREN" ")" 1) (Token.mk "SEMI" ";" 1)
           [ (Token.mk "IDENTIFIER" "a" 1, None);
             (Token.mk "NUMBER" "2" 1, Some (Token.mk "COMMA" "," 1));
             (Token.mk "IDENTIFIER" "c" 1, None) ]
           [] 0 (Transpiler.mk toks 0 [] 1)
           eq_refl eq_refl eq_refl eq_refl eq_refl eq_refl).
Defined.

Module AtEnd.
Import Transpiler.

Lemma expression_at_end n s :
  nth_error (tokens s) (pos s) = None ->
  transpile_expression (10 + n) s = Raise (no_attribute "type").
Proof.
  intros E.
  assert (P : transpile_primary (1 + n) s = Raise (no_attribute "type")).
  { simpl. unfold bind, current, gets. now rewrite E. }
  assert (U : transpile_unary (3 + n) s = Raise (no_attribute "type")).
  { change (transpile_unary (3 + n))
      with (b <- cur_is (fun tok =>
                   mem (Token.type tok) ["MINUS"; "NOT"]) ;;
            if b then
              token <- current ;;
              ty <- get_type token ;;
              let op := if ty =? "MINUS" then "-" else "!" in
              advance ;;;
              operand <- transpile_unary (2 + n) ;;
              ret (op ++ operand)
            else
              (expr <- transpile_primary (1 + n) ;;
               postfix_loop (1 + n) expr)).
    unfold bind at 1, cur_is, gets. rewrite E.
    now apply bind_raise. }
  change (transpile_expression (10 + n))
    with (left <-
            (left <-
               (left <-
                  (left <-
                     (left <-
                        (left <- transpile_unary (3 + n) ;;
                         factor_loop (3 + n) left) ;;
                      term_loop (4 + n) left) ;;
                   comparison_loop (5 + n) left) ;;
                equality_loop (6 + n) left) ;;
             logical_and_loop (7 + n) left) ;;
          logical_or_loop (8 + n) left).
  now do 6 apply bind_raise.
Qed.

End AtEnd.

(** X9. An expression cut off by the end of the input is not a parse
    error with a line: at the end of the tokens [transpile_expression] raises
    the [AttributeError] of [token.type] on [None], and the text of that
    error carries no line. *)
Theorem expression_at_end_of_input n s :
  length (Transpiler.tokens s) <= Transpiler.pos s ->
  Transpiler.transpile_expression (10 + n) s
  = Raise (AttributeError "'NoneType' object has no attribute 'type'")
  /\ str_exn (AttributeError "'NoneType' object has no attribute 'type'")
     = "'NoneType' object has no attribute 'type'".
Proof.
  intros H. split; [| reflexivity].
  apply AtEnd.expression_at_end. now apply nth_error_None.
Qed.

Lemma expression_at_end_of_input_witness :
  compile_lakbay 40 "class A { int x ="
  = Some "ERROR: 'NoneType' object has no attribute 'type'"
  /\ Transpiler.transpile_expression 10
       (Transpiler.mk [Token.mk "ASSIGN" "=" 1] 1 [] 0)
     = Raise (AttributeError "'NoneType' object has no attribute 'type'").
Proof.
  split; [vm_compute; reflexivity |].
  apply (expression_at_end_of_input 0
           (Transpiler.mk [Token.mk "ASSIGN" "=" 1] 1 [] 0)).
  simpl. lia.
Defined.

(** ** The tokens of the lexer *)

Module LexerTokens.
Import Lexer TokenSpec.

Lemma all_chars_app p w c :
  all_chars p w = true -> p c = true -> all_chars p (w ++ chr c) = true.
Proof.
  unfold all_chars. induction w as [| x w IH]; simpl; intros H Hc.
  - now rewrite Hc.
  - apply andb_prop in H. destruct H as [-> H]. simpl. auto.
Qed.

Lemma number_loop_collects n :
  collects (fun c => isdigit c || (c =? ".")%char) (number_loop n).
Proof.
  induction n as [| n IH]; intros c w s w' s' E Hw; [discriminate |].
  simpl in E. unfold bind, in_bounds, gets, cur in E.
  destruct (pos s <? length (code s))%nat.
  - destruct (nth_error (code s) (pos s)) as [x |]; [| discriminate].
    destruct (isdigit x || (x =? ".")%char) eqn:P.
    + simpl in E.
      exact (IH _ _ _ _ _ E (all_chars_app _ _ _ Hw P)).
    + injection E as <- <-. eauto.
  - injection E as <- <-. eauto.
Qed.

Lemma ident_loop_collects n :
  collects (fun c => isalnum c || (c =? "_")%char) (ident_loop n).
Proof.
  induction n as [| n IH]; intros c w s w' s' E Hw; [discriminate |].
  simpl in E. unfold bind, in_bounds, gets, cur in E.
  destruct (pos s <? length (code s))%nat.
  - destruct (nth_error (code s) (pos s)) as [x |]; [| discriminate].
    destruct (isalnum x || (x =? "_")%char) eqn:P.
    + simpl in E.
      exact (IH _ _ _ _ _ E (all_chars_app _ _ _ Hw P)).
    + injection E as <- <-. eauto.
  - injection E as <- <-. eauto.
Qed.

Lemma comment_loop_silent n : silent (comment_loop n).
Proof.
  induction n as [| n IH]; intros s a s' E; [discriminate |].
  simpl in E. unfold bind, in_bounds, gets, cur in E.
  destruct (pos s <? length (code s))%nat.
  - destruct (nth_error (code s) (pos s)) as [x |]; [| discriminate].
    destruct (negb (x =? LF)%char).
    + simpl in E. apply IH in E. exact E.
    + injection E as <- <-. auto.
  - injection E as <- <-. auto.
Qed.

Lemma string_loop_silent n : forall w, silent (string_loop n w).
Proof.
  induction n as [| n IH]; intros w s a s' E; [discriminate |].
  simpl in E. unfold bind, in_bounds, has_next, gets, cur in E.
  destruct (pos s <? length (code s))%nat.
  - destruct (nth_error (code s) (pos s)) as [x |]; [| discriminate].
    destruct (negb (x =? DQUOTE)%char).
    + destruct ((x =? BACKSLASH)%char && (pos s + 1 <? length (code s))%nat).
      * simpl in E.
        destruct (nth_error (code s) (pos s + 1)) as [e |]; [| discriminate].
        simpl in E. apply IH in E. exact E.
      * simpl in E. apply IH in E. exact E.
    + injection E as <- <-. auto.
  - injection E as <- <-. auto.
Qed.

Lemma operators_punctuation v ty l :
  lookup v operators = Some ty -> well_formed (Token.mk ty v l) = true.
Proof.
  intros H. unfold well_formed, punctuation. simpl Token.type.
  simpl Token.value. rewrite H.
  simpl in H.
  repeat match type of H with
         | (if ?b then _ else _) = _ => destruct b
         end; try discriminate; injection H as <-; reflexivity.
Qed.

Lemma single_chars_punctuation c ty l :
  lookup (chr c) operators = None ->
  lookup (chr c) single_chars = Some ty ->
  well_formed (Token.mk ty (chr c) l) = true.
Proof.
  intros N H. unfold well_formed, punctuation. simpl Token.type.
  simpl Token.value. rewrite N, H.
  simpl in H.
  repeat match type of H with
         | (if ?b then _ else _) = _ => destruct b
         end; try discriminate; injection H as <-; reflexivity.
Qed.

Lemma chr_not_operator c : lookup (chr c) operators = None.
Proof.
  unfold chr. simpl.
  repeat match goal with
         | |- context [(?a =? ?b)%char] => destruct (a =? b)%char
         end; reflexivity.
Qed.

Lemma word_token w l :
  word_text w = true ->
  well_formed
    (Token.mk (if mem w keywords then "KEYWORD" else "IDENTIFIER") w l)
  = true.
Proof.
  intros W. unfold well_formed.
  destruct (mem w keywords) eqn:K;
    cbn [Token.type Token.value]; rewrite W, K; reflexivity.
Qed.

Lemma tokenize_body_tokens n s u s' :
  tokenize_body n s = Ok (u, s') ->
  exists new, tokens s' = (tokens s ++ new)%list
              /\ Forall (fun tok => well_formed tok = true) new.
Proof.
  unfold tokenize_body. intros E.
  unfold bind at 1, cur at 1 in E.
  destruct (nth_error (code s) (pos s)) as [c |] eqn:Hc; [| discriminate].
  assert (B : (pos s <? length (code s))%nat = true).
  { apply Nat.ltb_lt. apply nth_error_Some. congruence. }
  destruct (isspace c).
  { exists []. rewrite app_nil_r. split; [| constructor].
    unfold bind, newline, step, modify, ret in E.
    destruct (c =? LF)%char; injection E as <- <-; reflexivity. }
  unfold bind at 1, before_last at 1, gets at 1 in E.
  unfold bind at 1, peek2 at 1, gets at 1 in E.
  destruct (_ && _).
  { exists []. rewrite app_nil_r. split; [| constructor].
    now apply comment_loop_silent in E. }
  destruct (isdigit c) eqn:Dg.
  { apply bind_inv in E. destruct E as (num & s1 & E1 & E2).
    destruct n as [| n]; [discriminate |].
    simpl in E1. unfold bind, in_bounds, gets, cur in E1.
    rewrite B, Hc, Dg in E1. simpl in E1.
    apply number_loop_collects in E1. specialize (E1 eq_refl).
    destruct E1 as (_ & T1 & r & -> & Hr). simpl in T1.
    injection E2 as <- <-. cbn [tokens line]. rewrite T1.
    eexists. split; [reflexivity |].
    constructor; [| constructor].
    unfold well_formed, number_text. simpl. now rewrite Dg. }
  destruct (isalpha c || (c =? "_")%char) eqn:Al.
  { apply bind_inv in E. destruct E as (ident & s1 & E1 & E2).
    destruct n as [| n]; [discriminate |].
    simpl in E1. unfold bind, in_bounds, gets, cur in E1.
    rewrite B, Hc, (LexerTotal.isalpha_isalnum _ Al) in E1. simpl in E1.
    apply ident_loop_collects in E1. specialize (E1 eq_refl).
    destruct E1 as (_ & T1 & r & Eid & Hr). simpl in T1.
    injection E2 as <- <-. cbn [tokens line]. rewrite T1.
    eexists. split; [reflexivity |].
    constructor; [| constructor].
    apply word_token. rewrite Eid. unfold word_text. now rewrite Al, Hr. }
  destruct (c =? DQUOTE)%char.
  { unfold bind at 1, step at 1, modify at 1 in E.
    apply bind_inv in E. destruct E as (str & s1 & E1 & E2).
    apply string_loop_silent in E1. destruct E1 as [_ T1]. simpl in T1.
    injection E2 as <- <-. cbn [tokens line]. rewrite T1.
    eexists. split; [reflexivity |].
    constructor; [| constructor]. reflexivity. }
  destruct (lookup (slice (code s) (pos s) (pos s + 2)) operators)
    as [ty |] eqn:Op.
  { injection E as <- <-. simpl.
    eexists. split; [reflexivity |].
    constructor; [| constructor]. now apply operators_punctuation. }
  destruct (lookup (chr c) single_chars) as [ty |] eqn:Sc.
  { injection E as <- <-. simpl.
    eexists. split; [reflexivity |].
    constructor; [| constructor].
    apply single_chars_punctuation; [apply chr_not_operator | exact Sc]. }
  injection E as <- <-. exists []. now rewrite app_nil_r.
Qed.

Lemma tokenize_loop_tokens n : forall s u s',
  tokenize_loop n s = Ok (u, s') ->
  Forall (fun tok => well_formed tok = true) (tokens s) ->
  Forall (fun tok => well_formed tok = true) (tokens s').
Proof.
  induction n as [| n IH]; intros s u s' E H; [discriminate |].
  simpl in E. unfold bind at 1, in_bounds at 1, gets at 1 in E.
  destruct (pos s <? length (code s))%nat.
  - apply bind_inv in E. destruct E as (u1 & s1 & E1 & E2).
    apply tokenize_body_tokens in E1. destruct E1 as (new & T & F).
    apply (IH _ _ _ E2). rewrite T. apply Forall_app. auto.
  - injection E as <- <-. exact H.
Qed.

End LexerTokens.

(** X10. The type of every token that [tokenize] returns fits its text:
    a [NUMBER] is a digit followed by digits and dots, a [KEYWORD] is one of
    the reserved words, an [IDENTIFIER] is a word that is not reserved, and
    any other token but a [STRING] is an operator or a punctuation mark of
    the lexer's tables with the type the table gives it. *)
Theorem tokens_well_formed fuel code toks s' :
  Lexer.tokenize fuel (Lexer.init code) = Ok (toks, s') ->
  Forall (fun tok => TokenSpec.well_formed tok = true) toks.
Proof.
  unfold Lexer.tokenize. intros E.
  apply bind_inv in E. destruct E as (u & s1 & E1 & E2).
  injection E2 as <- <-.
  apply (LexerTokens.tokenize_loop_tokens _ _ _ _ E1). constructor.
Qed.

Lemma tokens_well_formed_witness :
  Forall (fun tok => TokenSpec.well_formed tok = true)
    [ Token.mk "KEYWORD" "int" 1; Token.mk "IDENTIFIER" "x" 1;
      Token.mk "ASSIGN" "=" 1; Token.mk "NUMBER" "1.5" 1;
      Token.mk "LEQ" "<=" 1; Token.mk "STRING" "a b" 1;
      Token.mk "SEMI" ";" 1 ].
Proof.
  apply (tokens_well_formed 30
           (list_ascii_of_string ("int x = 1.5 <= " ++ dq ++ "a b" ++ dq ++ ";"))
           _
           (Lexer.mk
              (list_ascii_of_string
                 ("int x = 1.5 <= " ++ dq ++ "a b" ++ dq ++ ";"))
              21 1
              [ Token.mk "KEYWORD" "int" 1; Token.mk "IDENTIFIER" "x" 1;
                Token.mk "ASSIGN" "=" 1; Token.mk "NUMBER" "1.5" 1;
                Token.mk "LEQ" "<=" 1; Token.mk "STRING" "a b" 1;
                Token.mk "SEMI" ";" 1 ])).
  vm_compute. reflexivity.
Defined.

Module LexerLiteral.
Import Lexer LexerSpec LiteralSpec.

Lemma append_chr a c r : (a ++ chr c) ++ r = a ++ String c r.
Proof. induction a as [| x a IH]; simpl; [reflexivity | now rewrite IH]. Qed.

Lemma append_empty a : a ++ "" = a.
Proof. induction a as [| x a IH]; simpl; [reflexivity | now rewrite IH]. Qed.

Lemma string_loop_literal v : forall n acc s post,
  skipn (pos s) (code s)
  = (list_ascii_of_string (literal_of v) ++ DQUOTE :: post)%list ->
  String.length v < n ->
  string_loop n acc s
  = Ok (acc ++ v, set_pos s (pos s + String.length (literal_of v))).
Proof.
  induction v as [| c r IH]; intros n acc s post Sk Hn;
    (destruct n as [| n]; [simpl in Hn; lia |]).
  - simpl in Sk. destruct (skipn_cons _ _ _ _ Sk) as (Hc & _ & B).
    simpl. unfold bind, in_bounds, gets, cur, ret.
    rewrite (proj2 (Nat.ltb_lt _ _) B), Hc. simpl.
    rewrite append_empty, Nat.add_0_r. now destruct s.
  - simpl in Hn. simpl literal_of in *.
    destruct ((c =? DQUOTE)%char || (c =? BACKSLASH)%char) eqn:Q.
    + simpl in Sk. destruct (skipn_cons _ _ _ _ Sk) as (Hc & Sk1 & B).
      destruct (skipn_cons _ _ _ _ Sk1) as (Hc1 & Sk2 & B1).
      assert (U : unescape c = c).
      { apply orb_prop in Q. destruct Q as [Q | Q];
          apply Ascii.eqb_eq in Q; subst c; reflexivity. }
      simpl. unfold bind, in_bounds, has_next, gets, cur, step, modify.
      rewrite (proj2 (Nat.ltb_lt _ _) B), Hc. simpl.
      rewrite Nat.add_1_r, (proj2 (Nat.ltb_lt _ _) B1). simpl.
      rewrite Nat.add_1_r, Hc1, U.
      rewrite (IH n (acc ++ chr c) _ post); simpl.
      * rewrite append_chr. unfold set_pos. simpl.
        do 3 f_equal. lia.
      * rewrite Nat.add_1_r. exact Sk2.
      * lia.
    + simpl in Sk. destruct (skipn_cons _ _ _ _ Sk) as (Hc & Sk1 & B).
      apply orb_false_elim in Q. destruct Q as [Q1 Q2].
      simpl. unfold bind, in_bounds, has_next, gets, cur, step, modify.
      rewrite (proj2 (Nat.ltb_lt _ _) B), Hc, Q1, Q2. simpl.
      rewrite (IH n (acc ++ chr c) _ post); simpl.
      * rewrite append_chr. unfold set_pos. simpl.
        do 3 f_equal. lia.
      * rewrite Nat.add_1_r. exact Sk1.
      * lia.
Qed.

Lemma tokenize_body_string n s :
  nth_error (code s) (pos s) = Some DQUOTE ->
  tokenize_body n s
  = (step 1 ;;; str <- string_loop n "" ;; step 1 ;;; emit "STRING" str) s.
Proof.
  intros Hc. unfold tokenize_body. unfold bind at 1, cur at 1. rewrite Hc.
  cbv beta iota. replace (isspace DQUOTE) with false by reflexivity.
  cbv beta iota.
  unfold bind at 1, before_last at 1, gets at 1. cbv beta iota.
  unfold bind at 1, peek2 at 1, gets at 1. cbv beta iota.
  destruct (LexerTotal.slice_head _ _ _ Hc) as [rest ->].
  replace (String DQUOTE rest =? "//") with false by reflexivity.
  rewrite andb_false_r. reflexivity.
Qed.

Lemma literal_tokens v k :
  tokenize (String.length v + 2 + k)
    (init (DQUOTE :: list_ascii_of_string (literal_of v) ++ [DQUOTE]))
  = Ok ([Token.mk "STRING" v 1],
        mk (DQUOTE :: list_ascii_of_string (literal_of v) ++ [DQUOTE])
           (String.length (literal_of v) + 2) 1
           [Token.mk "STRING" v 1]).
Proof.
  set (code := (DQUOTE :: list_ascii_of_string (literal_of v) ++ [DQUOTE])%list).
  assert (Len : length code = String.length (literal_of v) + 2).
  { unfold code. simpl. rewrite length_app, <- length_list_ascii_of_string.
    simpl. lia. }
  unfold tokenize.
  replace (String.length v + 2 + k) with (S (S (String.length v + k))) by lia.
  assert (Eb : tokenize_body (S (String.length v + k)) (init code)
               = Ok (tt, mk code (String.length (literal_of v) + 2) 1
                           [Token.mk "STRING" v 1])).
  { rewrite tokenize_body_string by reflexivity.
    unfold bind at 1, step at 1, modify at 1.
    rewrite (bind_ok _ _ _ _ _
               (string_loop_literal v (S (String.length v + k)) ""
                  (mk code 1 1 []) [] eq_refl ltac:(lia))).
    unfold bind, step, emit, modify, set_pos. simpl.
    do 3 f_equal. lia. }
  assert (El : tokenize_loop (S (S (String.length v + k))) (init code)
               = Ok (tt, mk code (String.length (literal_of v) + 2) 1
                           [Token.mk "STRING" v 1])).
  { rewrite LexerInsert.tokenize_loop_unfold.
    unfold bind at 1, in_bounds at 1, gets at 1.
    replace (pos (init code) <? length (Lexer.code (init code)))%nat
      with true by (symmetry; apply Nat.ltb_lt; simpl; lia).
    rewrite (bind_ok _ _ _ _ _ Eb).
    rewrite LexerInsert.tokenize_loop_unfold.
    unfold bind, in_bounds, gets. cbn [pos Lexer.code].
    rewrite (proj2 (Nat.ltb_ge _ _)) by lia. reflexivity. }
  unfold bind. rewrite El. reflexivity.
Qed.

End LexerLiteral.

(** X11. Every text is the value of a string literal: the literal that
    holds the text with a backslash before each double quote and each
    backslash is read back as one [STRING] token whose value is the text. *)
Theorem string_literal_round_trip v k :
  tokens_of (String.length v + 2 + k) (dq ++ LiteralSpec.literal_of v ++ dq)
  = Some [Token.mk "STRING" v 1].
Proof.
  unfold tokens_of.
  replace (list_ascii_of_string (dq ++ LiteralSpec.literal_of v ++ dq))
    with (DQUOTE :: list_ascii_of_string (LiteralSpec.literal_of v)
          ++ [DQUOTE])%list.
  - now rewrite LexerLiteral.literal_tokens.
  - unfold dq, chr. simpl. now rewrite list_ascii_of_string_app.
Qed.

Module LexerBlank.
Import Lexer LexerSpec BlankSpec.

Lemma blank_comment_end rest :
  blank true (LF :: rest) = blank false (LF :: rest).
Proof. reflexivity. Qed.

Lemma comment_loop_blank n : forall s,
  blank true (skipn (pos s) (code s)) = true ->
  length (code s) - pos s < n ->
  exists p, comment_loop n s = Ok (tt, set_pos s p)
            /\ blank false (skipn p (code s)) = true
            /\ pos s <= p
            /\ (forall c, nth_error (code s) (pos s) = Some c ->
                          (c =? LF)%char = false -> pos s < p).
Proof.
  induction n as [| n IH]; intros s Hb Hn; [lia |].
  simpl. unfold bind, in_bounds, gets, cur, ret.
  destruct (nth_error (code s) (pos s)) as [c |] eqn:Hc.
  - assert (B : pos s < length (code s))
      by (apply nth_error_Some; congruence).
    rewrite (proj2 (Nat.ltb_lt _ _) B).
    rewrite (LexerTotal.skipn_nth_error _ _ _ Hc) in Hb.
    cbv beta. rewrite Hc.
    destruct (c =? LF)%char eqn:Q; simpl.
    + exists (pos s). split; [now destruct s |].
      rewrite (LexerTotal.skipn_nth_error _ _ _ Hc).
      apply Ascii.eqb_eq in Q. subst c.
      split; [exact Hb | split; [lia |]].
      intros c' H. injection H as <-. discriminate.
    + simpl in Hb. rewrite Q in Hb. simpl in Hb.
      destruct (IH (set_pos s (pos s + 1))) as (p & E & Hp & L & _).
      * simpl. now rewrite Nat.add_1_r.
      * simpl. lia.
      * simpl in L. exists p. split; [exact E |].
        split; [exact Hp | split; [lia |]]. intros; lia.
  - apply nth_error_None in Hc.
    rewrite (proj2 (Nat.ltb_ge _ _) Hc). simpl.
    exists (pos s). split; [now destruct s |].
    rewrite skipn_all2 by lia.
    split; [reflexivity | split; [lia | discriminate]].
Qed.

Lemma tokenize_loop_blank n : forall s,
  blank false (skipn (pos s) (code s)) = true ->
  length (code s) + 1 - pos s < n ->
  exists s', tokenize_loop n s = Ok (tt, s') /\ tokens s' = tokens s.
Proof.
  induction n as [| n IH]; intros s Hb Hn; [lia |].
  rewrite LexerInsert.tokenize_loop_unfold.
  unfold bind at 1, in_bounds at 1, gets at 1.
  destruct (nth_error (code s) (pos s)) as [c |] eqn:Hc.
  - assert (B : pos s < length (code s))
      by (apply nth_error_Some; congruence).
    rewrite (proj2 (Nat.ltb_lt _ _) B).
    pose proof (LexerTotal.skipn_nth_error _ _ _ Hc) as Sk.
    rewrite Sk in Hb. cbn [blank] in Hb.
    change (exists s', (tokenize_body n ;;; tokenize_loop n) s = Ok (tt, s')
                       /\ tokens s' = tokens s).
    destruct (isspace c) eqn:Sp.
    + assert (Eb : tokenize_body n s
                   = Ok (tt, mk (code s) (pos s + 1)
                               (if (c =? LF)%char then line s + 1
                                else line s) (tokens s))).
      { unfold tokenize_body, bind, cur. rewrite Hc, Sp.
        unfold newline, step, modify, ret.
        destruct (c =? LF)%char; reflexivity. }
      rewrite (bind_ok _ _ _ _ _ Eb).
      match goal with
      | |- exists s', tokenize_loop n ?st = _ /\ _ =>
          destruct (IH st) as (s' & E & T);
            [simpl; now rewrite Nat.add_1_r | simpl; lia |]
      end.
      exists s'. split; [exact E | exact T].
    + destruct (skipn (S (pos s)) (code s)) as [| c2 rest] eqn:Sk2;
        [discriminate |].
      apply andb_prop in Hb. destruct Hb as [Hb Hb3].
      apply andb_prop in Hb. destruct Hb as [Hb1 Hb2].
      apply Ascii.eqb_eq in Hb1, Hb2. subst c c2.
      assert (Hc2 : nth_error (code s) (S (pos s)) = Some "/"%char).
      { rewrite <- (Nat.add_0_r (S (pos s))), <- nth_error_skipn, Sk2.
        reflexivity. }
      assert (B2 : S (pos s) < length (code s))
        by (apply nth_error_Some; congruence).
      assert (Sl : slice (code s) (pos s) (pos s + 2) = "//").
      { unfold slice. replace (pos s + 2 - pos s) with 2 by lia.
        rewrite Sk. reflexivity. }
      assert (Eb : tokenize_body n s = comment_loop n s).
      { unfold tokenize_body. unfold bind at 1. unfold cur at 1.
        rewrite Hc, Sp.
        unfold bind at 1, before_last at 1, gets at 1.
        unfold bind at 1, peek2 at 1, gets at 1.
        assert (L : (pos s <? length (code s) - 1)%nat = true)
          by (apply Nat.ltb_lt; lia).
        rewrite Sl, L. reflexivity. }
      destruct (comment_loop_blank n s) as (p & E & Hp & _ & P).
      * rewrite Sk. exact Hb3.
      * lia.
      * specialize (P _ Hc eq_refl). rewrite <- Eb in E.
        rewrite (bind_ok _ _ _ _ _ E).
        destruct (IH (set_pos s p)) as (s' & E' & T);
          [exact Hp | simpl; lia |].
        exists s'. split; [exact E' | exact T].
  - apply nth_error_None in Hc.
    rewrite (proj2 (Nat.ltb_ge _ _) Hc).
    exists s. split; reflexivity.
Qed.

End LexerBlank.

(** X12. A source text of white space and [//] comments only has no
    token, and its translation is the program that holds the preamble and
    the entry point alone. *)
Theorem blank_source_empty_program src fuel :
  BlankSpec.blank false (list_ascii_of_string src) = true ->
  String.length src + 2 <= fuel ->
  tokens_of fuel src = Some []
  /\ compile_lakbay fuel src = Some (program []).
Proof.
  intros Hb Hf.
  destruct (LexerBlank.tokenize_loop_blank fuel
              (Lexer.init (list_ascii_of_string src))) as (s' & E & T).
  - exact Hb.
  - simpl. rewrite length_list_ascii_of_string. lia.
  - simpl in T.
    assert (L : Lexer.tokenize fuel (Lexer.init (list_ascii_of_string src))
                = Ok ([], s')).
    { unfold Lexer.tokenize, bind. rewrite E. unfold gets. now rewrite T. }
    unfold tokens_of, compile_lakbay. rewrite L. split; [reflexivity |].
    destruct fuel as [| n]; [lia |]. reflexivity.
Qed.

Lemma blank_source_empty_program_witness :
  tokens_of 40 ("// nothing" ++ nl ++ "  " ++ nl ++ "// here") = Some []
  /\ compile_lakbay 40 ("// nothing" ++ nl ++ "  " ++ nl ++ "// here")
     = Some (program []).
Proof.
  apply (blank_source_empty_program
           ("// nothing" ++ nl ++ "  " ++ nl ++ "// here") 40).
  - vm_compute. reflexivity.
  - vm_compute. lia.
Defined.

Module LexerLines.
Import Lexer LexerSpec InsertSpec LineSpec.

Lemma firstn_snoc {A} (l : list A) p c :
  nth_error l p = Some c -> firstn (p + 1) l = (firstn p l ++ [c])%list.
Proof.
  revert l. induction p as [| p IH]; intros [| x l] H; simpl in *;
    try discriminate.
  - now injection H as ->.
  - now rewrite (IH l H).
Qed.

Lemma line_at_step code p c :
  nth_error code p = Some c ->
  line_at code (p + 1)
  = line_at code p + (if (c =? LF)%char then 1 else 0).
Proof.
  intros H. unfold line_at. rewrite (firstn_snoc _ _ _ H), filter_app.
  rewrite length_app. simpl. destruct (c =? LF)%char; simpl; lia.
Qed.

Lemma line_at_next code p :
  line_at code p <= line_at code (p + 1).
Proof.
  destruct (nth_error code p) as [c |] eqn:E.
  - rewrite (line_at_step _ _ _ E). lia.
  - apply nth_error_None in E. unfold line_at.
    rewrite !firstn_all2 by lia. lia.
Qed.

Lemma line_at_mono code p q : p <= q -> line_at code p <= line_at code q.
Proof.
  induction 1 as [| q _ IH]; [lia |].
  pose proof (line_at_next code q) as H.
  replace (q + 1) with (S q) in H by lia. lia.
Qed.

Lemma not_newline (p : ascii -> bool) c :
  p LF = false -> p c = true -> (c =? LF)%char = false.
Proof.
  intros H1 H2. destruct (c =? LF)%char eqn:Q; [| reflexivity].
  apply Ascii.eqb_eq in Q. congruence.
Qed.

Lemma comment_loop_on_line n : on_line (comment_loop n).
Proof.
  induction n as [| n IH]; intros s a s' E; [discriminate |].
  simpl in E. unfold bind, in_bounds, gets, cur in E.
  destruct (pos s <? length (code s))%nat.
  - destruct (nth_error (code s) (pos s)) as [x |] eqn:Hx; [| discriminate].
    destruct (x =? LF)%char eqn:Q; simpl in E.
    + injection E as <- <-. auto.
    + apply IH in E. simpl in E. destruct E as (L & T & N).
      rewrite N, (line_at_step _ _ _ Hx), Q. repeat split; auto.
  - injection E as <- <-. auto.
Qed.

Lemma number_loop_on_line n : forall w, on_line (number_loop n w).
Proof.
  induction n as [| n IH]; intros w s a s' E; [discriminate |].
  simpl in E. unfold bind, in_bounds, gets, cur in E.
  destruct (pos s <? length (code s))%nat.
  - destruct (nth_error (code s) (pos s)) as [x |] eqn:Hx; [| discriminate].
    destruct (isdigit x || (x =? ".")%char) eqn:P; simpl in E.
    + apply IH in E. simpl in E. destruct E as (L & T & N).
      rewrite N, (line_at_step _ _ _ Hx).
      rewrite (not_newline (fun c => isdigit c || (c =? ".")%char) x
                 eq_refl P).
      repeat split; auto.
    + injection E as <- <-. auto.
  - injection E as <- <-. auto.
Qed.

Lemma ident_loop_on_line n : forall w, on_line (ident_loop n w).
Proof.
  induction n as [| n IH]; intros w s a s' E; [discriminate |].
  simpl in E. unfold bind, in_bounds, gets, cur in E.
  destruct (pos s <? length (code s))%nat.
  - destruct (nth_error (code s) (pos s)) as [x |] eqn:Hx; [| discriminate].
    destruct (isalnum x || (x =? "_")%char) eqn:P; simpl in E.
    + apply IH in E. simpl in E. destruct E as (L & T & N).
      rewrite N, (line_at_step _ _ _ Hx).
      rewrite (not_newline (fun c => isalnum c || (c =? "_")%char) x
                 eq_refl P).
      repeat split; auto.
    + injection E as <- <-. auto.
  - injection E as <- <-. auto.
Qed.

Lemma string_loop_line n : forall w s a s',
  string_loop n w s = Ok (a, s') -> line s' = line s /\ tokens s' = tokens s.
Proof. intros w s a s' E. exact (LexerTokens.string_loop_silent n w _ _ _ E). Qed.

Lemma operators_second c c2 ty :
  lookup (String c (String c2 "")) operators = Some ty ->
  (c2 =? LF)%char = false.
Proof.
  intros H. destruct (c2 =? LF)%char eqn:Q; [| reflexivity].
  apply Ascii.eqb_eq in Q. subst c2. simpl in H.
  repeat match type of H with
         | context [(c =? ?x)%char] => destruct (c =? x)%char
         end; discriminate.
Qed.

Lemma space_newline c : isspace c = false -> (c =? LF)%char = false.
Proof.
  intros H. destruct (c =? LF)%char eqn:Q; [| reflexivity].
  apply Ascii.eqb_eq in Q. subst c. discriminate.
Qed.

Lemma tokenize_body_line n s u s1 c :
  tokenize_body n s = Ok (u, s1) ->
  nth_error (code s) (pos s) = Some c ->
  line s1 = line s + (if (c =? LF)%char then 1 else 0)
  /\ (exists new, tokens s1 = (tokens s ++ new)%list
                  /\ Forall (fun tok => Token.line tok = line s) new)
  /\ ((c =? DQUOTE)%char = false ->
      line_at (code s) (pos s1)
      = line_at (code s) (pos s) + (if (c =? LF)%char then 1 else 0))
  /\ ((c =? DQUOTE)%char = true -> pos s < pos s1).
Proof.
  unfold tokenize_body. intros E Hc.
  unfold bind at 1, cur at 1 in E. rewrite Hc in E.
  assert (B : (pos s <? length (code s))%nat = true).
  { apply Nat.ltb_lt. apply nth_error_Some. congruence. }
  pose proof (line_at_step _ _ _ Hc) as St.
  destruct (isspace c) eqn:Sp.
  { assert (D : (c =? DQUOTE)%char = false).
    { destruct (c =? DQUOTE)%char eqn:Q; [| reflexivity].
      apply Ascii.eqb_eq in Q. subst c. discriminate. }
    unfold bind, newline, step, modify, ret in E.
    destruct (c =? LF)%char; injection E as <- <-; simpl;
      (split; [lia |]); (split; [exists []; now rewrite app_nil_r |]);
      (split; [intros _; exact St | congruence]). }
  rewrite (space_newline _ Sp) in *. rewrite !Nat.add_0_r in *.
  unfold bind at 1, before_last at 1, gets at 1 in E.
  unfold bind at 1, peek2 at 1, gets at 1 in E.
  destruct (_ && _) eqn:Cm.
  { apply andb_prop in Cm. destruct Cm as [_ Cm].
    apply String.eqb_eq in Cm.
    destruct (LexerTotal.slice_head _ _ _ Hc) as [rest Hs].
    rewrite Hs in Cm. injection Cm as -> _.
    apply comment_loop_on_line in E. destruct E as (L & T & N).
    split; [exact L |]. split; [exists []; now rewrite app_nil_r |].
    split; [intros _; exact N | discriminate]. }
  destruct (isdigit c) eqn:Dg.
  { apply bind_inv in E. destruct E as (num & s2 & E1 & E2).
    apply number_loop_on_line in E1. destruct E1 as (L & T & N).
    injection E2 as <- <-. cbn [line tokens pos code].
    split; [exact L |]. rewrite T, L.
    split; [eexists; split; [reflexivity | repeat constructor] |].
    split; [intros _; exact N |].
    intros Q. apply Ascii.eqb_eq in Q. subst c. discriminate. }
  destruct (isalpha c || (c =? "_")%char) eqn:Al.
  { apply bind_inv in E. destruct E as (ident & s2 & E1 & E2).
    apply ident_loop_on_line in E1. destruct E1 as (L & T & N).
    injection E2 as <- <-. cbn [line tokens pos code].
    split; [exact L |]. rewrite T, L.
    split; [eexists; split; [reflexivity | repeat constructor] |].
    split; [intros _; exact N |].
    intros Q. apply Ascii.eqb_eq in Q. subst c. discriminate. }
  destruct (c =? DQUOTE)%char eqn:Dq.
  { unfold bind at 1, step at 1, modify at 1 in E.
    apply bind_inv in E. destruct E as (str & s2 & E1 & E2).
    pose proof (LexerInsert.string_loop_grows n ""
                  (mk (code s) (pos s + 1) (line s) (tokens s))) as G.
    rewrite E1 in G. simpl in G.
    apply string_loop_line in E1. destruct E1 as (L & T). simpl in L, T.
    injection E2 as <- <-. cbn [line tokens pos code].
    split; [exact L |]. rewrite T, L.
    split; [eexists; split; [reflexivity | repeat constructor] |].
    split; [discriminate | intros _; lia]. }
  destruct (lookup (slice (code s) (pos s) (pos s + 2)) operators)
    as [ty |] eqn:Op.
  { injection E as <- <-. cbn [line tokens pos code].
    split; [reflexivity |].
    split; [eexists; split; [reflexivity | repeat constructor] |].
    split; [| discriminate]. intros _.
    pose proof (LexerTotal.skipn_nth_error _ _ _ Hc) as Sk.
    unfold slice in Op. replace (pos s + 2 - pos s) with 2 in Op by lia.
    rewrite Sk in Op.
    destruct (skipn (S (pos s)) (code s)) as [| c2 rest] eqn:Sk2.
    - pose proof (LexerTokens.chr_not_operator c) as X.
      unfold chr in X. simpl in Op, X. congruence.
    - simpl in Op.
      assert (Hc2 : nth_error (code s) (pos s + 1) = Some c2).
      { rewrite <- (Nat.add_0_r (pos s + 1)), <- nth_error_skipn.
        now rewrite Nat.add_1_r, Sk2. }
      replace (pos s + 2) with (pos s + 1 + 1) by lia.
      rewrite (line_at_step _ _ _ Hc2), (operators_second _ _ _ Op).
      lia. }
  destruct (lookup (chr c) single_chars) as [ty |] eqn:Sc.
  { injection E as <- <-. cbn [line tokens pos code].
    split; [reflexivity |].
    split; [eexists; split; [reflexivity | repeat constructor] |].
    split; [intros _; lia | discriminate]. }
  injection E as <- <-. cbn [line tokens pos code].
  split; [reflexivity |]. split; [exists []; now rewrite app_nil_r |].
  split; [intros _; lia | discriminate].
Qed.

Lemma in_firstn {A} (l : list A) p q c :
  nth_error l p = Some c -> p < q -> In c (firstn q l).
Proof.
  intros H L. apply (nth_error_In _ p).
  rewrite nth_error_firstn.
  destruct (p <? q)%nat eqn:Q; [exact H |].
  apply Nat.ltb_ge in Q. lia.
Qed.

Lemma turns_lines fuel k : forall s0 s,
  turns fuel k s0 = Ok (tt, s) ->
  (line s0 <= line_at (code s0) (pos s0) ->
   line s <= line_at (code s0) (pos s))
  /\ (~ In DQUOTE (firstn (pos s) (code s0)) ->
      line s0 = line_at (code s0) (pos s0) ->
      line s = line_at (code s0) (pos s)).
Proof.
  induction k as [| k IH]; intros s0 s E.
  - injection E as <-. auto.
  - rewrite LexerInsert.turns_unfold in E.
    unfold bind at 1, in_bounds at 1, gets at 1 in E.
    destruct (pos s0 <? length (code s0))%nat eqn:B;
      [| injection E as <-; auto].
    apply bind_inv in E. destruct E as ([] & s1 & E1 & E2).
    apply Nat.ltb_lt in B.
    destruct (LexerTotal.cur_in_bounds s0 B) as [c Hc].
    destruct (tokenize_body_line _ _ _ _ _ E1 Hc) as (L & _ & N & P).
    pose proof (LexerInsert.tokenize_body_grows fuel s0) as G1.
    rewrite E1 in G1. destruct G1 as [C1 P1].
    pose proof (LexerInsert.turns_grows fuel k s1) as G2.
    rewrite E2 in G2. destruct G2 as [C2 P2].
    destruct (IH _ _ E2) as [I1 I2]. rewrite C1 in I1, I2.
    split.
    + intros H0. apply I1. rewrite L.
      destruct (c =? LF)%char eqn:Q.
      * rewrite N; [lia |]. apply Ascii.eqb_eq in Q. now subst c.
      * pose proof (line_at_mono (code s0) _ _ P1). lia.
    + intros ND H0.
      assert (D : (c =? DQUOTE)%char = false).
      { destruct (c =? DQUOTE)%char eqn:Q; [| reflexivity].
        exfalso. apply ND. specialize (P eq_refl).
        apply Ascii.eqb_eq in Q. subst c.
        apply (in_firstn _ (pos s0)); [exact Hc | lia]. }
      apply I2; [exact ND |]. rewrite L, (N D). lia.
Qed.

End LexerLines.

(** X13. The line of a token never exceeds the line the token starts on,
    and it is that line when no double quote stands before the token: a
    turn of the main loop of [tokenize] that starts at a position [p] stamps
    its token with a line that is at most one more than the number of
    newline characters before [p], and exactly that when the text before [p]
    holds no string literal. *)
Theorem token_lines_count_newlines fuel k code s s1 new :
  InsertSpec.turns fuel k (Lexer.init code) = Ok (tt, s) ->
  Lexer.tokenize_body fuel s = Ok (tt, s1) ->
  Lexer.tokens s1 = (Lexer.tokens s ++ new)%list ->
  Forall
    (fun tok =>
       Token.line tok <= LineSpec.line_at code (Lexer.pos s)
       /\ (~ In DQUOTE (firstn (Lexer.pos s) code) ->
           Token.line tok = LineSpec.line_at code (Lexer.pos s)))
    new.
Proof.
  intros E1 E2 T.
  destruct (LexerLines.turns_lines _ _ _ _ E1) as [I1 I2].
  simpl in I1, I2.
  assert (Hc : exists c, nth_error (Lexer.code s) (Lexer.pos s) = Some c).
  { unfold Lexer.tokenize_body, bind, Lexer.cur in E2.
    destruct (nth_error (Lexer.code s) (Lexer.pos s)); [eauto | discriminate]. }
  destruct Hc as [c Hc].
  destruct (LexerLines.tokenize_body_line _ _ _ _ _ E2 Hc)
    as (_ & (new' & T' & F) & _).
  rewrite T' in T. apply app_inv_head in T. subst new'.
  eapply Forall_impl; [| exact F].
  intros tok ->. split.
  - apply I1. unfold LineSpec.line_at. simpl. lia.
  - intros ND. now apply I2.
Qed.

Lemma token_lines_count_newlines_witness :
  let code := list_ascii_of_string ("a" ++ nl ++ nl ++ "b") in
  Forall
    (fun tok =>
       Token.line tok <= LineSpec.line_at code 3
       /\ (~ In DQUOTE (firstn 3 code) ->
           Token.line tok = LineSpec.line_at code 3))
    [Token.mk "IDENTIFIER" "b" 3].
Proof.
  intros code.
  apply (token_lines_count_newlines 10 3 code
           (Lexer.mk code 3 3 [Token.mk "IDENTIFIER" "a" 1])
           (Lexer.mk code 4 3 [Token.mk "IDENTIFIER" "a" 1;
                               Token.mk "IDENTIFIER" "b" 3])).
  - vm_compute. reflexivity.
  - vm_compute. reflexivity.
  - reflexivity.
Defined.

(** ** The runner *)

Module RunnerCheck.
Import Lexer.

Lemma tokenize_never_raises fuel code e :
  tokenize fuel (init code) <> Raise e.
Proof.
  intros H.
  destruct (LexerTotal.tokenize_returns code fuel) as (toks & s' & E & _).
  assert (L : fuel <= length code + 2 + fuel) by lia.
  pose proof (refines_ok _ _ _ _ (LexerFuel.tokenize_fuel _ _ L) H) as R.
  rewrite E in R. discriminate R. discriminate.
Qed.

Lemma program_no_failure body : Runner.reports_failure (program body) = false.
Proof. reflexivity. Qed.

End RunnerCheck.

(** X14. The test that the runner makes on the text returned by
    [compile_lakbay] is exact: the text starts with [ERROR:] if and only if
    the transpiler raised an exception, and it is then [ERROR: ] followed by
    the text of that exception. *)
Theorem runner_failure_test_exact fuel src cpp_code :
  compile_lakbay fuel src = Some cpp_code ->
  (Runner.reports_failure cpp_code = true <->
   exists toks ls e,
     Lexer.tokenize fuel (Lexer.init (list_ascii_of_string src))
     = Ok (toks, ls)
     /\ Transpiler.transpile fuel (Transpiler.init toks) = Raise e
     /\ cpp_code = "ERROR: " ++ str_exn e).
Proof.
  unfold compile_lakbay.
  destruct (Lexer.tokenize fuel _) as [[toks ls] | e |] eqn:E1.
  - pose proof (Shape.transpile_shape toks fuel) as S.
    destruct (Transpiler.transpile fuel _) as [[text ts] | e |] eqn:E2.
    + intros H. injection H as <-. destruct S as [body ->].
      rewrite RunnerCheck.program_no_failure. split; [discriminate |].
      intros (toks' & ls' & e & H1 & H2 & _).
      injection H1 as <- <-. congruence.
    + intros H. injection H as <-.
      split; [intros _ | intros _; reflexivity].
      exists toks, ls, e. auto.
    + discriminate.
  - now destruct (RunnerCheck.tokenize_never_raises _ _ _ E1).
  - discriminate.
Qed.

Lemma runner_failure_test_exact_witness :
  Runner.reports_failure "ERROR: Line 1: Expected SEMI, got RBRACE" = true <->
  exists toks ls e,
    Lexer.tokenize 40 (Lexer.init (list_ascii_of_string "class A { int x }"))
    = Ok (toks, ls)
    /\ Transpiler.transpile 40 (Transpiler.init toks) = Raise e
    /\ "ERROR: Line 1: Expected SEMI, got RBRACE" = "ERROR: " ++ str_exn e.
Proof.
  apply (runner_failure_test_exact 40 "class A { int x }").
  vm_compute. reflexivity.
Defined.

(** ** The text of a token *)

Module LexerText.
Import Lexer LexerSpec TextSpec.

Lemma slice_empty code p : slice code p p = "".
Proof. unfold slice. now rewrite Nat.sub_diag. Qed.

Lemma slice_cons code p q c :
  nth_error code p = Some c -> p + 1 <= q ->
  slice code p q = String c (slice code (p + 1) q).
Proof.
  intros H L. unfold slice.
  rewrite (LexerTotal.skipn_nth_error _ _ _ H).
  replace (q - p) with (S (q - (p + 1))) by lia.
  now rewrite Nat.add_1_r.
Qed.

Lemma number_loop_reads n : reads (number_loop n).
Proof.
  induction n as [| n IH]; intros w s w' s' E; [discriminate |].
  simpl in E. unfold bind, in_bounds, gets, cur in E.
  destruct (pos s <? length (code s))%nat.
  - destruct (nth_error (code s) (pos s)) as [x |] eqn:Hx; [| discriminate].
    destruct (isdigit x || (x =? ".")%char); simpl in E.
    + apply IH in E. simpl in E. destruct E as [L ->].
      split; [lia |].
      rewrite (slice_cons _ _ _ _ Hx L). apply LexerLiteral.append_chr.
    + injection E as <- <-. split; [lia |].
      now rewrite slice_empty, LexerLiteral.append_empty.
  - injection E as <- <-. split; [lia |].
    now rewrite slice_empty, LexerLiteral.append_empty.
Qed.

Lemma ident_loop_reads n : reads (ident_loop n).
Proof.
  induction n as [| n IH]; intros w s w' s' E; [discriminate |].
  simpl in E. unfold bind, in_bounds, gets, cur in E.
  destruct (pos s <? length (code s))%nat.
  - destruct (nth_error (code s) (pos s)) as [x |] eqn:Hx; [| discriminate].
    destruct (isalnum x || (x =? "_")%char); simpl in E.
    + apply IH in E. simpl in E. destruct E as [L ->].
      split; [lia |].
      rewrite (slice_cons _ _ _ _ Hx L). apply LexerLiteral.append_chr.
    + injection E as <- <-. split; [lia |].
      now rewrite slice_empty, LexerLiteral.append_empty.
  - injection E as <- <-. split; [lia |].
    now rewrite slice_empty, LexerLiteral.append_empty.
Qed.

Lemma no_token {A} (l : list A) x : l <> (l ++ [x])%list.
Proof.
  intros H. apply (f_equal (@length A)) in H.
  rewrite length_app in H. simpl in H. lia.
Qed.

Lemma one_token {A} (l : list A) x y : (l ++ [x])%list = (l ++ [y])%list -> x = y.
Proof. intros H. apply app_inv_head in H. now injection H. Qed.

Lemma tokenize_body_text n s u s1 tok :
  tokenize_body n s = Ok (u, s1) ->
  tokens s1 = (tokens s ++ [tok])%list ->
  Token.type tok <> "STRING" ->
  Token.value tok = slice (code s) (pos s) (pos s1).
Proof.
  unfold tokenize_body. intros E T NS.
  unfold bind at 1, cur at 1 in E.
  destruct (nth_error (code s) (pos s)) as [c |] eqn:Hc; [| discriminate].
  destruct (isspace c).
  { exfalso. unfold bind, newline, step, modify, ret in E.
    destruct (c =? LF)%char; injection E as <- <-; simpl in T;
      exact (no_token _ _ T). }
  unfold bind at 1, before_last at 1, gets at 1 in E.
  unfold bind at 1, peek2 at 1, gets at 1 in E.
  destruct (_ && _).
  { exfalso. apply LexerLines.comment_loop_on_line in E.
    destruct E as (_ & T' & _). rewrite T' in T. exact (no_token _ _ T). }
  destruct (isdigit c).
  { apply bind_inv in E. destruct E as (num & s2 & E1 & E2).
    destruct (LexerLines.number_loop_on_line _ _ _ _ _ E1) as (_ & T' & _).
    apply number_loop_reads in E1. destruct E1 as [_ ->].
    injection E2 as <- <-. cbn [tokens pos] in *.
    rewrite T' in T. apply one_token in T. now subst tok. }
  destruct (isalpha c || (c =? "_")%char).
  { apply bind_inv in E. destruct E as (ident & s2 & E1 & E2).
    destruct (LexerLines.ident_loop_on_line _ _ _ _ _ E1) as (_ & T' & _).
    apply ident_loop_reads in E1. destruct E1 as [_ ->].
    injection E2 as <- <-. cbn [tokens pos] in *.
    rewrite T' in T. apply one_token in T. now subst tok. }
  destruct (c =? DQUOTE)%char.
  { exfalso. unfold bind at 1, step at 1, modify at 1 in E.
    apply bind_inv in E. destruct E as (str & s2 & E1 & E2).
    apply LexerLines.string_loop_line in E1. destruct E1 as [_ T'].
    injection E2 as <- <-. cbn [tokens] in *. rewrite T' in T.
    apply one_token in T. subst tok. now apply NS. }
  destruct (lookup (slice (code s) (pos s) (pos s + 2)) operators)
    as [ty |].
  { injection E as <- <-. cbn [tokens pos] in *.
    apply one_token in T. now subst tok. }
  destruct (lookup (chr c) single_chars) as [ty |].
  { injection E as <- <-. cbn [tokens pos] in *.
    apply one_token in T. subst tok. simpl.
    rewrite (slice_cons _ _ _ _ Hc (Nat.le_refl _)).
    now rewrite slice_empty. }
  exfalso. injection E as <- <-. simpl in T. exact (no_token _ _ T).
Qed.

End LexerText.

(** X15. The text of a token is the text it was read from: a turn of the
    main loop of [tokenize] that emits a token other than a [STRING] gives it
    the characters of the source between the position where the turn starts
    and the position where it ends, unchanged. *)
Theorem token_text_is_source_text fuel s s1 tok :
  Lexer.tokenize_body fuel s = Ok (tt, s1) ->
  Lexer.tokens s1 = (Lexer.tokens s ++ [tok])%list ->
  Token.type tok <> "STRING" ->
  Token.value tok = slice (Lexer.code s) (Lexer.pos s) (Lexer.pos s1).
Proof. exact (LexerText.tokenize_body_text fuel s tt s1 tok). Qed.

Lemma token_text_is_source_text_witness :
  let code := list_ascii_of_string "x1<=22" in
  Token.value (Token.mk "NUMBER" "22" 1) = slice code 4 6.
Proof.
  intros code.
  apply (token_text_is_source_text 10
           (Lexer.mk code 4 1 [Token.mk "IDENTIFIER" "x1" 1;
                               Token.mk "LEQ" "<=" 1])
           (Lexer.mk code 6 1 [Token.mk "IDENTIFIER" "x1" 1;
                               Token.mk "LEQ" "<=" 1;
                               Token.mk "NUMBER" "22" 1])).
  - vm_compute. reflexivity.
  - reflexivity.
  - discriminate.
Defined.

(** ** The frame of a translation *)

(** X16. A translation that is no error is framed: the text that
    [compile_lakbay] returns, when the runner does not take it for a failure,
    is the preamble, then the lines of the classes, then the entry point. *)
Theorem translation_is_framed fuel src cpp_code :
  compile_lakbay fuel src = Some cpp_code ->
  Runner.reports_failure cpp_code = false ->
  exists body, cpp_code = program body.
Proof.
  unfold compile_lakbay.
  destruct (Lexer.tokenize fuel _) as [[toks ls] | e |] eqn:E1.
  - pose proof (Shape.transpile_shape toks fuel) as S.
    destruct (Transpiler.transpile fuel _) as [[text ts] | e |] eqn:E2.
    + intros H _. injection H as <-. exact S.
    + intros H F. injection H as <-. discriminate F.
    + discriminate.
  - intros H F. injection H as <-. discriminate F.
  - discriminate.
Qed.

Lemma translation_is_framed_witness :
  exists body,
    program [nl ++ "class A {"; "public:"; "    int x;"; "};"]
    = program body.
Proof.
  apply (translation_is_framed 40 "class A { int x; }").
  - vm_compute. reflexivity.
  - reflexivity.
Defined.

(** ** A string literal without its closing quote *)

Module LexerOpen.
Import Lexer LexerSpec LiteralSpec LexerLiteral.

(** The same literal without its closing quote. *)
Lemma string_loop_open v : forall n acc s,
  skipn (pos s) (code s) = list_ascii_of_string (literal_of v) ->
  String.length v < n ->
  string_loop n acc s
  = Ok (acc ++ v, set_pos s (pos s + String.length (literal_of v))).
Proof.
  induction v as [| c r IH]; intros n acc s Sk Hn;
    (destruct n as [| n]; [simpl in Hn; lia |]).
  - simpl in Sk.
    assert (B : length (code s) <= pos s).
    { destruct (Nat.le_gt_cases (length (code s)) (pos s)) as [L | L];
        [exact L |].
      destruct (LexerTotal.cur_in_bounds s L) as [x Hx].
      rewrite (LexerTotal.skipn_nth_error _ _ _ Hx) in Sk. discriminate. }
    simpl. unfold bind, in_bounds, gets, ret.
    rewrite (proj2 (Nat.ltb_ge _ _) B).
    rewrite append_empty, Nat.add_0_r. now destruct s.
  - simpl in Hn. simpl literal_of in *.
    destruct ((c =? DQUOTE)%char || (c =? BACKSLASH)%char) eqn:Q.
    + simpl in Sk. destruct (skipn_cons _ _ _ _ Sk) as (Hc & Sk1 & B).
      destruct (skipn_cons _ _ _ _ Sk1) as (Hc1 & Sk2 & B1).
      assert (U : unescape c = c).
      { apply orb_prop in Q. destruct Q as [Q | Q];
          apply Ascii.eqb_eq in Q; subst c; reflexivity. }
      simpl. unfold bind, in_bounds, has_next, gets, cur, step, modify.
      rewrite (proj2 (Nat.ltb_lt _ _) B), Hc. simpl.
      rewrite Nat.add_1_r, (proj2 (Nat.ltb_lt _ _) B1). simpl.
      rewrite Nat.add_1_r, Hc1, U.
      rewrite (IH n (acc ++ chr c)); simpl.
      * rewrite append_chr. unfold set_pos. simpl.
        do 3 f_equal. lia.
      * rewrite Nat.add_1_r. exact Sk2.
      * lia.
    + simpl in Sk. destruct (skipn_cons _ _ _ _ Sk) as (Hc & Sk1 & B).
      apply orb_false_elim in Q. destruct Q as [Q1 Q2].
      simpl. unfold bind, in_bounds, has_next, gets, cur, step, modify.
      rewrite (proj2 (Nat.ltb_lt _ _) B), Hc, Q1, Q2. simpl.
      rewrite (IH n (acc ++ chr c)); simpl.
      * rewrite append_chr. unfold set_pos. simpl.
        do 3 f_equal. lia.
      * rewrite Nat.add_1_r. exact Sk1.
      * lia.
Qed.

Lemma open_literal_tokens v k :
  tokenize (String.length v + 2 + k)
    (init (DQUOTE :: list_ascii_of_string (literal_of v)))
  = Ok ([Token.mk "STRING" v 1],
        mk (DQUOTE :: list_ascii_of_string (literal_of v))
           (String.length (literal_of v) + 2) 1
           [Token.mk "STRING" v 1]).
Proof.
  set (code := (DQUOTE :: list_ascii_of_string (literal_of v))%list).
  assert (Len : length code = String.length (literal_of v) + 1).
  { unfold code. simpl. rewrite <- length_list_ascii_of_string. lia. }
  unfold tokenize.
  replace (String.length v + 2 + k) with (S (S (String.length v + k))) by lia.
  assert (Eb : tokenize_body (S (String.length v + k)) (init code)
               = Ok (tt, mk code (String.length (literal_of v) + 2) 1
                           [Token.mk "STRING" v 1])).
  { rewrite tokenize_body_string by reflexivity.
    unfold bind at 1, step at 1, modify at 1.
    rewrite (bind_ok _ _ _ _ _
               (string_loop_open v (S (String.length v + k)) ""
                  (mk code 1 1 []) eq_refl ltac:(lia))).
    unfold bind, step, emit, modify, set_pos. simpl.
    do 3 f_equal. lia. }
  assert (El : tokenize_loop (S (S (String.length v + k))) (init code)
               = Ok (tt, mk code (String.length (literal_of v) + 2) 1
                           [Token.mk "STRING" v 1])).
  { rewrite LexerInsert.tokenize_loop_unfold.
    unfold bind at 1, in_bounds at 1, gets at 1.
    replace (pos (init code) <? length (Lexer.code (init code)))%nat
      with true by (symmetry; apply Nat.ltb_lt; simpl; lia).
    rewrite (bind_ok _ _ _ _ _ Eb).
    rewrite LexerInsert.tokenize_loop_unfold.
    unfold bind, in_bounds, gets. cbn [pos Lexer.code].
    rewrite (proj2 (Nat.ltb_ge _ _)) by lia. reflexivity. }
  unfold bind. rewrite El. reflexivity.
Qed.

End LexerOpen.

(** X17. A string literal that is not closed is no error: the literal
    reads to the end of the text, escapes decoded, and is one [STRING]
    token; standing alone it is translated to the program with no
    class. *)
Theorem unterminated_string_reads_to_the_end v k :
  tokens_of (String.length v + 2 + k) (dq ++ LiteralSpec.literal_of v)
  = Some [Token.mk "STRING" v 1]
  /\ compile_lakbay (String.length v + 2 + k)
       (dq ++ LiteralSpec.literal_of v)
     = Some (program []).
Proof.
  assert (L : Lexer.tokenize (String.length v + 2 + k)
                (Lexer.init
                   (list_ascii_of_string (dq ++ LiteralSpec.literal_of v)))
              = Ok ([Token.mk "STRING" v 1],
                    Lexer.mk
                      (DQUOTE
                       :: list_ascii_of_string (LiteralSpec.literal_of v))
                      (String.length (LiteralSpec.literal_of v) + 2) 1
                      [Token.mk "STRING" v 1]))
    by exact (LexerOpen.open_literal_tokens v k).
  unfold tokens_of, compile_lakbay. rewrite L. split; [reflexivity |].
  replace (String.length v + 2 + k) with (S (S (String.length v + k)))
    by lia.
  reflexivity.
Qed.

(** ** Blocks without unhandled keywords return *)

Module BlockTermination.
Import Transpiler TranspilerSpec TranspilerSound MethodSpec CursorSpec Cursor.
Import TerminationSpec Termination BlockSpec.

Lemma handled_ahead_keeps s s' :
  tokens s' = tokens s -> pos s <= pos s' ->
  handled_ahead s -> handled_ahead s'.
Proof.
  unfold handled_ahead. intros T L H. rewrite T.
  replace (pos s') with ((pos s' - pos s) + pos s) by lia.
  rewrite <- skipn_skipn.
  rewrite Forall_forall in *. intros x Hx. apply H.
  rewrite <- (firstn_skipn (pos s' - pos s) (skipn (pos s) (tokens s))).
  apply in_or_app. now right.
Qed.

Lemma keeps_remaining d A (m : M t A) s a s' b :
  keeps d m -> m s = Ok (a, s') -> remaining s <= b ->
  remaining s' <= b - d.
Proof.
  intros K E L. destruct (K _ _ _ E) as [T P].
  unfold remaining in *. rewrite T. lia.
Qed.

Lemma keeps_advances d A (m : M t A) : advances d m -> keeps d m.
Proof.
  intros H s a s' E. destruct (H _ _ _ E) as [Q L].
  split; [| exact L]. rewrite Q. reflexivity.
Qed.

Lemma keeps_sound A (m : M t A) : (forall toks, sound toks m) -> keeps 0 m.
Proof.
  intros H s a s' E. specialize (H (tokens s) s eq_refl).
  rewrite E in H. destruct H as (T & P & _). split; [exact T | lia].
Qed.

Lemma rh_lo lo b A (m : M t A) :
  returns_handled 0 b m -> returns_handled lo b m.
Proof. intros H s Q L. apply H; [exact Q | lia]. Qed.

Lemma rh_pos b A (m : M t A) :
  (1 <= b -> returns_handled 1 b m) -> returns_handled 1 b m.
Proof. intros H s Q L. apply H; [lia | exact Q | lia]. Qed.

Lemma rh_returns lo b A (m : M t A) :
  returns 0 b m -> returns_handled lo b m.
Proof. intros H s _ L. apply H. lia. Qed.

Lemma rh_ret lo b A (a : A) : returns_handled lo b (ret a).
Proof. intros s _ _. discriminate. Qed.

Lemma rh_raise lo b A e : returns_handled lo b (@raise t A e).
Proof. intros s _ _. discriminate. Qed.

Lemma rh_cur_is lo b p A (k : bool -> M t A) :
  returns_handled 1 b (k true) -> returns_handled lo b (k false) ->
  returns_handled lo b (bind (cur_is p) k).
Proof.
  intros Ht Hf s Q L. unfold bind, cur_is, gets.
  destruct (nth_error (tokens s) (pos s)) as [tok |] eqn:E.
  - apply remaining_some in E.
    destruct (p tok); [apply Ht | apply Hf]; auto; lia.
  - now apply Hf.
Qed.

Lemma rh_current lo b A (k : option Token.t -> M t A) :
  (forall tok, returns_handled 1 b (k (Some tok))) ->
  returns_handled lo b (k None) ->
  returns_handled lo b (bind current k).
Proof.
  intros Hs Hn s Q L. unfold bind, current, gets.
  destruct (nth_error (tokens s) (pos s)) as [tok |] eqn:E.
  - apply remaining_some in E. apply Hs; auto. lia.
  - now apply Hn.
Qed.

Lemma rh_advance b A (k : unit -> M t A) :
  returns_handled 0 (b - 1) (k tt) -> returns_handled 1 b (bind advance k).
Proof.
  intros H s Q L. unfold bind, advance, modify. apply H.
  - revert Q. apply handled_ahead_keeps; simpl; [reflexivity | lia].
  - unfold remaining in *. simpl. lia.
Qed.

Lemma rh_expect lo b ty v A (k : Token.t -> M t A) :
  (forall tok, 1 <= b -> returns_handled 0 (b - 1) (k tok)) ->
  returns_handled lo b (bind (expect ty v) k).
Proof.
  intros H s Q L. unfold bind.
  destruct (expect ty v s) as [[tok s'] | e |] eqn:E; try discriminate.
  - apply Members.expect_inv in E. destruct E as (E & _ & ->).
    apply remaining_some in E. apply H; [lia | |].
    + revert Q. apply handled_ahead_keeps; simpl; [reflexivity | lia].
    + unfold remaining in *. simpl. lia.
  - exfalso. revert E. unfold expect, bind, current, gets, raise.
    destruct (nth_error (tokens s) (pos s)); [| discriminate].
    destruct (negb _); [discriminate |].
    destruct v; [destruct (_ && _) |]; discriminate.
Qed.

(** A step that cannot fail to return and leaves tokens and cursor
    alone. *)
Lemma rh_write lo b c A (k : unit -> M t A) :
  returns_handled lo b (k tt) -> returns_handled lo b (bind (write c) k).
Proof. intros H s Q L. rewrite Members.write_eval. now apply H. Qed.

Lemma rh_indent_add lo b d A (k : unit -> M t A) :
  returns_handled lo b (k tt) ->
  returns_handled lo b (bind (indent_add d) k).
Proof. intros H s Q L. unfold bind, indent_add, modify. now apply H. Qed.

Lemma rh_ret_bind lo b A B (a : A) (k : A -> M t B) :
  returns_handled lo b (k a) -> returns_handled lo b (bind (ret a) k).
Proof. intros H s Q L. unfold bind, ret. now apply H. Qed.

Lemma rh_assoc lo b A B C (m : M t A) (f : A -> M t B) (g : B -> M t C) :
  returns_handled lo b (bind m (fun a => bind (f a) g)) ->
  returns_handled lo b (bind (bind m f) g).
Proof.
  intros H s Q L E. apply (H s Q L). revert E. unfold bind.
  destruct (m s) as [[a s1] | |]; auto.
Qed.

Lemma rh_call lo b d A B (m : M t A) (k : A -> M t B) :
  returns_handled 0 b m -> keeps d m ->
  (forall a, returns_handled 0 (b - d) (k a)) ->
  returns_handled lo b (bind m k).
Proof.
  intros Hm Hk Hc s Q L. unfold bind.
  destruct (m s) as [[a s'] | e |] eqn:E.
  - destruct (Hk _ _ _ E) as [T P]. apply Hc.
    + revert Q. apply handled_ahead_keeps; [exact T | lia].
    + split; [lia |]. apply (keeps_remaining d _ m s a); auto. lia.
  - discriminate.
  - exfalso. apply (Hm s); [exact Q | lia | exact E].
Qed.

Ltac rh_ih :=
  match goal with
  | H : forall b, _ -> returns_handled 0 b ?m |- returns_handled 0 _ ?m =>
      apply H; lia
  | H : forall b, _ -> returns 0 b ?m |- returns_handled 0 _ ?m =>
      apply rh_returns; apply H; lia
  | H : forall x b, _ -> returns 0 b (?f ?n x)
    |- returns_handled 0 _ (?f ?n _) =>
      apply rh_returns; apply H; lia
  end.

Ltac keeps_fact :=
  match goal with
  | H : keeps _ ?m |- keeps _ ?m => exact H
  | H : advances _ ?m |- keeps _ ?m => apply keeps_advances; exact H
  | H : forall x, advances _ (?f ?n x) |- keeps _ (?f ?n _) =>
      apply keeps_advances; apply H
  end.

(** Proves a goal [returns_handled lo b m] along the shape of [m]. *)
Ltac rh_tac :=
  cbv beta iota zeta;
  lazymatch goal with
  | |- returns_handled _ _ (if ?c then _ else _) => destruct c; rh_tac
  | |- returns_handled _ _ (match ?x with _ => _ end) => destruct x; rh_tac
  | |- returns_handled _ _ (bind (bind _ _) _) => apply rh_assoc; rh_tac
  | |- returns_handled _ _ (bind (if ?c then _ else _) _) =>
      destruct c; rh_tac
  | |- returns_handled _ _ (bind (cur_is _) _) =>
      apply rh_cur_is; [ apply rh_pos; intros ?; rh_tac | rh_tac ]
  | |- returns_handled _ _ (bind current _) =>
      apply rh_current;
      [ intros ?; apply rh_pos; intros ?; rh_tac | rh_tac ]
  | |- returns_handled 1 _ (bind advance _) => apply rh_advance; rh_tac
  | |- returns_handled _ _ (bind (expect _ _) _) =>
      apply rh_expect; intros ? ?; rh_tac
  | |- returns_handled _ _ (bind (write _) _) => apply rh_write; rh_tac
  | |- returns_handled _ _ (bind (indent_add _) _) =>
      apply rh_indent_add; rh_tac
  | |- returns_handled _ _ (bind (ret _) _) => apply rh_ret_bind; rh_tac
  | |- returns_handled _ _ (bind _ _) =>
      eapply rh_call; [ rh_ih | keeps_fact | intros ?; rh_tac ]
  | |- returns_handled _ _ (ret _) => apply rh_ret
  | |- returns_handled _ _ (raise _) => apply rh_raise
  | |- returns_handled _ _ (write _) =>
      intros ? ? ?; discriminate
  | |- returns_handled _ _ _ => apply rh_lo; rh_ih
  end.

Lemma transpile_print_returns n b :
  12 * b + 1 <= n -> returns_handled 0 b (transpile_print n).
Proof.
  intros Hb. destruct (expr_returns_all n), (expr_advances_all n).
  unfold transpile_print. rh_tac.
Qed.

Lemma transpile_var_declaration_returns n b :
  12 * b + 1 <= n -> returns_handled 0 b (transpile_var_declaration n).
Proof.
  intros Hb. destruct (expr_returns_all n), (expr_advances_all n).
  unfold transpile_var_declaration. rh_tac.
Qed.

Lemma handled_current s tok :
  handled_ahead s -> nth_error (tokens s) (pos s) = Some tok ->
  unhandled_keyword tok = false.
Proof.
  unfold handled_ahead. intros H E.
  rewrite (LexerTotal.skipn_nth_error _ _ _ E) in H.
  now apply Forall_inv in H.
Qed.

Lemma block_step n b :
  (forall b, 12 * b + 12 <= n -> returns_handled 0 b (transpile_block n)) ->
  (forall b, 12 * b + 11 <= n ->
     returns_handled 0 b (transpile_statement n)) ->
  12 * b + 12 <= S n ->
  returns_handled 0 b (transpile_block (S n)).
Proof.
  intros Hblock Hstmt Hb s Q L. simpl. rewrite Members.cur_is_eval.
  destruct (nth_error (tokens s) (pos s)) as [tok |] eqn:C;
    [| discriminate].
  destruct (negb (Token.type tok =? "RBRACE")); [| discriminate].
  pose proof (remaining_some _ _ C) as R.
  unfold bind.
  destruct (transpile_statement n s) as [[u s1] | e |] eqn:E.
  - pose proof (Progress.statement_progresses n s tok u s1 E C
                  (handled_current s tok Q C)) as P.
    pose proof (ss_statement _ _ (stmt_sound_all (tokens s) n) s eq_refl)
      as S.
    rewrite E in S. destruct S as (T & _ & _).
    apply (Hblock (b - 1)); [lia | |].
    + revert Q. apply handled_ahead_keeps; [exact T | lia].
    + unfold remaining in *. rewrite T. lia.
  - discriminate.
  - exfalso. apply (Hstmt b ltac:(lia) s Q); [lia | exact E].
Qed.

Lemma stmt_returns_all n : stmt_returns n.
Proof.
  induction n as [| n IH].
  - constructor; intros; lia.
  - destruct IH. destruct (expr_returns_all n), (expr_advances_all n).
    assert (Hp := transpile_print_returns n).
    assert (Hv := transpile_var_declaration_returns n).
    assert (Kb : keeps 0 (transpile_block n))
      by (apply keeps_sound; intros toks;
          apply (stmt_sound_all toks n)).
    constructor; intros b Hb.
    + now apply block_step.
    + simpl. rh_tac.
    + simpl. rh_tac.
    + simpl. rh_tac.
    + simpl. rh_tac.
Qed.

End BlockTermination.

(** X18. A block loops only on an unhandled keyword: when none of the
    tokens from the cursor on is a keyword that [transpile_statement] has no
    branch for, [transpile_block] returns or raises, as soon as the fuel
    covers twelve calls for each token that remains and the twelve levels
    from [transpile_block] down to [transpile_primary]. *)
Theorem block_returns_without_unhandled_keyword fuel s :
  Forall (fun tok => unhandled_keyword tok = false)
    (skipn (Transpiler.pos s) (Transpiler.tokens s)) ->
  12 * (length (Transpiler.tokens s) - Transpiler.pos s) + 12 <= fuel ->
  Transpiler.transpile_block fuel s <> Timeout.
Proof.
  intros Q H.
  apply (BlockSpec.sr_block _ (BlockTermination.stmt_returns_all fuel)
           (length (Transpiler.tokens s) - Transpiler.pos s) H s Q).
  unfold TerminationSpec.remaining. lia.
Qed.

Lemma block_returns_without_unhandled_keyword_witness :
  Transpiler.transpile_block 108
    (Transpiler.init
       [ Token.mk "KEYWORD" "while" 1; Token.mk "LPAREN" "(" 1;
         Token.mk "IDENTIFIER" "x" 1; Token.mk "RPAREN" ")" 1;
         Token.mk "LBRACE" "{" 1; Token.mk "KEYWORD" "return" 1;
         Token.mk "SEMI" ";" 1; Token.mk "RBRACE" "}" 1 ])
  <> Timeout.
Proof.
  apply block_returns_without_unhandled_keyword.
  - repeat constructor.
  - simpl. lia.
Defined.
